(** * aos_core_lib_cpp: bounded arrays, time arithmetic, the launcher's
      storage, status comparison and reconciliation rounds

    A shallow embedding of the C++ sources
      - [aos/common/tools/array.hpp]  (class [Array<T>]),
      - [aos/common/tools/time.hpp]   (class [Time]),
      - the launcher test with its mocks ([MockStorage], [MockServiceManager],
        [MockRunner], [MockOCIManager], [MockStatusReceiver]) and
        [CompareInstanceStatuses],
    and a model of the launcher itself, whose code is not among the
    sources, after the specification; followed by the properties proved
    about them.

    Conventions.
      - [size_t] and [int64_t] values are integers of [Z]; every operation
        that can leave the range of its type has its wrap-around written out
        ([wrap_size], [wrap_int64]).
      - An [Array<T>] does not own its items: it points at a buffer.  The
        buffer is a list of slots, a pointer into it is a slot index, and an
        access to a slot that the buffer does not have ends the computation
        with [OutOfBounds].  A second value given to a [std::promise] ends
        it with [FutureError].
      - [std::vector] is a list; an iterator is a position in it. *)

From Stdlib Require Import String DecimalString ZArith List Bool Lia Permutation.
Import ListNotations.

Local Open Scope string_scope.
Local Open Scope list_scope.
Local Open Scope Z_scope.

(* ================================================================== *)
(** * Part I: the program                                              *)
(* ================================================================== *)

(** ** Errors ([aos/common/tools/error.hpp], used through its enumerators) *)

(** The header is not among the sources.  The enumerators are the ones the
    sources name ([eNone], [eNoMemory], [eOutOfRange], [eInvalidArgument],
    [eNotFound], [eAlreadyExist]) and the two further kinds of the
    specification's error list ([InvalidSpec], [Timeout]). *)
Inductive ErrorEnum : Type :=
| eNone
| eNoMemory
| eOutOfRange
| eInvalidArgument
| eNotFound
| eAlreadyExist
| eInvalidSpec
| eTimeout.

Definition Error : Type := ErrorEnum.

Definition IsNone (err : Error) : bool :=
  match err with
  | eNone => true
  | _ => false
  end.

(** [RetWithError<T>]: a value and an error.  A [RetWithError] built from
    a value alone ([return it;], [return &mItems[index];]) carries [eNone]. *)
Record RetWithError (A : Type) : Type := mkRet { mValue : A; mError : Error }.
Arguments mkRet {A} _ _.
Arguments mValue {A} _.
Arguments mError {A} _.

Definition RetValue {A : Type} (value : A) : RetWithError A := mkRet value eNone.

(** ** Machine integers *)

Definition size_t_modulus : Z := 2 ^ 64.

(** Unsigned arithmetic on [size_t] is modulo [2^64]. *)
Definition wrap_size (z : Z) : Z := z mod size_t_modulus.

Definition int64_min : Z := - 2 ^ 63.
Definition int64_max : Z := 2 ^ 63 - 1.

(** Two's-complement wrap-around of a signed 64-bit result. *)
Definition wrap_int64 (z : Z) : Z := (z + 2 ^ 63) mod 2 ^ 64 - 2 ^ 63.

Definition in_int64 (z : Z) : Prop := int64_min <= z <= int64_max.

(** ** Outcomes and pointers *)

(** The result of a computation: a value, an access to a slot outside a
    buffer (undefined behaviour in C++), or the [std::future_error] a
    promise throws when it is given a second value. *)
Inductive outcome (A : Type) : Type :=
| Done (a : A)
| OutOfBounds (slot : Z)
| FutureError.
Arguments Done {A} _.
Arguments OutOfBounds {A} _.
Arguments FutureError {A}.

Definition bind {A B : Type} (m : outcome A) (k : A -> outcome B) : outcome B :=
  match m with
  | Done a => k a
  | OutOfBounds slot => OutOfBounds slot
  | FutureError => FutureError
  end.

Notation "x <- m ;; k" := (bind m (fun x => k))
  (at level 61, m at next level, right associativity).

(** A pointer of type [T*] into the items of an array: [nullptr], or the
    address of the slot with the given index ([&mItems[index]]). *)
Inductive pointer : Type :=
| nullptr
| SlotPtr (index : Z).

(** [operator==] of an item type. *)
Class EqualOp (T : Type) : Type := equal : T -> T -> bool.

(** ** [Array<T>] (array.hpp) *)

Record Array (T : Type) : Type := mkArray {
  mItems : list T;   (* the slots of the buffer [mItems] points at *)
  mSize : Z;
  mMaxSize : Z
}.
Arguments mkArray {T} _ _ _.
Arguments mItems {T} _.
Arguments mSize {T} _.
Arguments mMaxSize {T} _.

Section ArrayOperations.
Context {T : Type}.

(** [buf[i]] read, for a slot the buffer has. *)
Fixpoint slot_read (buf : list T) (i : Z) : option T :=
  match buf with
  | [] => None
  | x :: rest => if i =? 0 then Some x else slot_read rest (i - 1)
  end.

(** [buf[i] = v], for a slot the buffer has. *)
Fixpoint slot_write (buf : list T) (i : Z) (v : T) : option (list T) :=
  match buf with
  | [] => None
  | x :: rest =>
      if i =? 0 then Some (v :: rest)
      else option_map (cons x) (slot_write rest (i - 1) v)
  end.

Definition load (a : Array T) (i : Z) : outcome T :=
  match slot_read (mItems a) i with
  | Some x => Done x
  | None => OutOfBounds i
  end.

Definition store (a : Array T) (i : Z) (v : T) : outcome (Array T) :=
  match slot_write (mItems a) i v with
  | Some buf => Done (mkArray buf (mSize a) (mMaxSize a))
  | None => OutOfBounds i
  end.

Definition SetSize (a : Array T) (size : Z) : Array T :=
  mkArray (mItems a) size (mMaxSize a).

(** [Array()]: no buffer. *)
Definition EmptyArray : Array T := mkArray [] 0 0.

(** [Array(T* items, size_t size)]: a full array over a C array. *)
Definition ArrayFromC (items : list T) (size : Z) : Array T :=
  mkArray items size size.

(** [Array<T>(v.data(), v.size())] for a [std::vector] [v]. *)
Definition ArrayOfVector (v : list T) : Array T :=
  ArrayFromC v (Z.of_nat (length v)).

(** [StaticArray<T, cMaxSize>()]: an empty array over a buffer of
    [cMaxSize] slots of its own; [slots] is what the buffer holds when the
    array is created. *)
Definition StaticArray (slots : list T) : Array T :=
  mkArray slots 0 (Z.of_nat (length slots)).

Definition Clear (a : Array T) : Array T := SetSize a 0.
Definition IsEmpty (a : Array T) : bool := mSize a =? 0.
Definition IsFull (a : Array T) : bool := mSize a =? mMaxSize a.
Definition Size (a : Array T) : Z := mSize a.
Definition MaxSize (a : Array T) : Z := mMaxSize a.

(** [begin()] and [end()] as slot indices. *)
Definition begin_ (a : Array T) : Z := 0.
Definition end_ (a : Array T) : Z := mSize a.

(** The loop of [Resize]: [n] rounds ([it] runs from [end()] to
    [end() + size - mSize]), each one copying [value] to [end()]. *)
Fixpoint Resize_fill (n : nat) (a : Array T) (value : T) : outcome (Array T) :=
  match n with
  | O => Done a
  | S n' => a1 <- store a (end_ a) value ;; Resize_fill n' a1 value
  end.

Definition Resize (a : Array T) (size : Z) (value : T)
  : outcome (Error * Array T) :=
  if mMaxSize a <? size then Done (eNoMemory, a)
  else
    a1 <- (if mSize a <? size
           then Resize_fill (Z.to_nat (size - mSize a)) a value
           else Done a) ;;
    Done (eNone, SetSize a1 size).

(** [At(index)]: no item is read, the result is the item's address. *)
Definition At (a : Array T) (index : Z) : RetWithError pointer :=
  if mSize a <=? index then mkRet nullptr eOutOfRange
  else RetValue (SlotPtr index).

Definition Front (a : Array T) : RetWithError pointer := At a 0.
Definition Back (a : Array T) : RetWithError pointer :=
  At a (wrap_size (mSize a - 1)).

Definition PushBack (a : Array T) (item : T) : outcome (Error * Array T) :=
  if IsFull a then Done (eNoMemory, a)
  else
    a1 <- store a (end_ a) item ;;
    Done (eNone, SetSize a1 (wrap_size (mSize a1 + 1))).

(** [PopBack()].  [zeroed] is the item whose bytes are all zero (what
    [memset(end(), 0, sizeof(T))] leaves in a slot) and [dflt] is [T()].
    The statement under [if (IsEmpty())] builds a [RetWithError] and drops
    it: there is no [return], and control goes on to the read of
    [mItems[mSize - 1]]. *)
Definition PopBack (zeroed dflt : T) (a : Array T)
  : outcome (RetWithError T * Array T) :=
  let _dropped :=
    if IsEmpty a then Some (mkRet dflt eNotFound) else None in
  last <- load a (wrap_size (mSize a - 1)) ;;
  let result := mkRet last eNone in
  let a1 := SetSize a (wrap_size (mSize a - 1)) in
  a2 <- store a1 (end_ a1) zeroed ;;
  Done (result, a2).

(** The loop of [Find(const T& item)]: [n] items are left to visit and
    [it] is the slot [it] points at. *)
Fixpoint Find_from `{EqualOp T} (a : Array T) (item : T) (n : nat) (it : Z)
  : outcome (RetWithError pointer) :=
  match n with
  | O => Done (mkRet nullptr eNotFound)
  | S n' =>
      x <- load a it ;;
      if equal x item then Done (RetValue (SlotPtr it))
      else Find_from a item n' (it + 1)
  end.

Definition Find `{EqualOp T} (a : Array T) (item : T)
  : outcome (RetWithError pointer) :=
  Find_from a item (Z.to_nat (mSize a)) (begin_ a).

(** The items of the array: the first [mSize] slots. *)
Definition elements (a : Array T) : list T :=
  firstn (Z.to_nat (mSize a)) (mItems a).

(** What the constructors establish and every operation relies on: the
    size is within the capacity, and the capacity is the number of slots
    of the buffer. *)
Definition well_formed (a : Array T) : Prop :=
  0 <= mSize a <= mMaxSize a
  /\ mMaxSize a = Z.of_nat (length (mItems a))
  /\ mMaxSize a < size_t_modulus.

(** The array [PushBack] leaves behind when there is room: the item in
    the slot at the former end, and one item more. *)
Definition pushed (a : Array T) (item : T) : Array T :=
  mkArray (firstn (Z.to_nat (mSize a)) (mItems a)
             ++ item :: skipn (S (Z.to_nat (mSize a))) (mItems a))
          (mSize a + 1) (mMaxSize a).

End ArrayOperations.

(** ** [Time] (time.hpp) *)

(** [Duration]: nanoseconds in an [int64_t]. *)
Definition Duration : Type := Z.

Definition Nanoseconds : Duration := 1.
Definition Microseconds : Duration := 1000 * Nanoseconds.
Definition Milliseconds : Duration := 1000 * Microseconds.
Definition Seconds : Duration := 1000 * Milliseconds.
Definition Minutes : Duration := 60 * Seconds.
Definition Hours : Duration := 60 * Minutes.

(** [timespec]; [time_t] and [long] are signed 64-bit integers (LP64). *)
Record timespec : Type := mkTimespec { tv_sec : Z; tv_nsec : Z }.

(** A [Time] is its [mTime]. *)
Definition Time : Type := timespec.

Definition Unix (sec nsec : Z) : Time := mkTimespec sec nsec.

(** [Time::Add].  [/] and [%] of C++ truncate towards zero ([Z.quot],
    [Z.rem]).  The sums are signed 64-bit sums; C++ leaves a sum outside
    the range undefined, and the model gives it the two's-complement
    result. *)
Definition Add (mTime : Time) (duration : Duration) : Time :=
  let nsec := wrap_int64 (tv_nsec mTime + duration) in
  let sec1 := wrap_int64 (tv_sec mTime + Z.quot nsec Seconds) in
  let nsec1 := Z.rem nsec Seconds in
  if nsec1 <? 0
  then mkTimespec (wrap_int64 (sec1 - 1)) (wrap_int64 (nsec1 + Seconds))
  else mkTimespec sec1 nsec1.

(** The instant of a [Time] in nanoseconds, as an exact integer. *)
Definition total_nanoseconds (t : Time) : Z := tv_sec t * 10 ^ 9 + tv_nsec t.

(** ** Value types of the launcher ([aos/common/types.hpp] and the
       headers of the service manager, the runner and the OCI codec) *)

(** None of these declarations is among the sources.  The fields are the
    ones the sources name ([mInstanceIdent], [mVersionInfo], [mServiceID],
    [mProviderID], [mImagePath], [mConfig.mCmd]) and the ones the
    specification's data model lists, in the order of the initialisers of
    the launcher test.  Unsigned integers are integers of [Z]. *)

(** Modelled from the spec: [InstanceIdent], the identity
    [{serviceID, subjectID, instanceIndex}] of an instance. *)
Record InstanceIdent : Type := mkInstanceIdent {
  mServiceID : string;
  mSubjectID : string;
  mInstance : Z
}.

(** Modelled from the spec: [InstanceIdent::operator==] is structural over
    all three fields. *)
#[global] Instance InstanceIdent_equal : EqualOp InstanceIdent :=
  fun a b =>
    String.eqb (mServiceID a) (mServiceID b)
    && String.eqb (mSubjectID a) (mSubjectID b)
    && (mInstance a =? mInstance b).

(** Modelled from the spec: [InstanceInfo], the desired-state record
    [{InstanceIdent, uid, gid, storagePath, statePath}]. *)
Record InstanceInfo : Type := mkInstanceInfo {
  mInstanceIdent : InstanceIdent;
  mUID : Z;
  mGID : Z;
  mStoragePath : string;
  mStatePath : string
}.

(** Modelled from the spec: [VersionInfo],
    [{versionID, versionString, description}]. *)
Record VersionInfo : Type := mkVersionInfo {
  mVersionID : Z;
  mVersionString : string;
  mDescription : string
}.

(** Modelled from the spec: [ServiceInfo], the desired service
    descriptor: version, service and provider, size, source, the two
    digests the test leaves empty, and group. *)
Record ServiceInfo : Type := mkServiceInfo {
  siVersionInfo : VersionInfo;
  siServiceID : string;
  siProviderID : string;
  siSize : Z;
  siURL : string;
  siSHA256 : list Z;
  siSHA512 : list Z;
  siGID : Z
}.

(** Modelled from the spec: [LayerInfo]; a layer is passed through to the
    installation and is opaque to the reconciliation. *)
Record LayerInfo : Type := mkLayerInfo { liLayerID : string }.

(** Modelled from the spec: [ServiceData], the installed-service record,
    with the four members [MockServiceManager::InstallServices] fills. *)
Record ServiceData : Type := mkServiceData {
  sdVersionInfo : VersionInfo;
  sdServiceID : string;
  sdProviderID : string;
  sdImagePath : string
}.

(** Modelled from the spec: [ImageParts],
    [{imageSpecPath, runtimeSpecPath, imageRootPath}]. *)
Record ImageParts : Type := mkImageParts {
  mImageSpecPath : string;
  mRuntimeSpecPath : string;
  mImageRootPath : string
}.

(** Modelled from the spec: the run states [{Active, Failed, ...}]; the
    two the specification names. *)
Inductive InstanceRunStateEnum : Type :=
| eActive
| eFailed.

(** Modelled from the spec: [InstanceStatus],
    [{InstanceIdent, serviceVersionID, runState, error}]. *)
Record InstanceStatus : Type := mkInstanceStatus {
  isInstanceIdent : InstanceIdent;
  isServiceVersionID : Z;
  isRunState : InstanceRunStateEnum;
  isError : Error
}.

(** Modelled from the spec: [InstanceStatus::operator==] is not among the
    sources; equality of two statuses for comparison purposes is the match
    of their identities, whatever their version, run state and error. *)
#[global] Instance InstanceStatus_equal : EqualOp InstanceStatus :=
  fun a b => equal (isInstanceIdent a) (isInstanceIdent b).

(** Modelled from the spec: [RunStatus], what the runner answers to a
    start: a run state and an error. *)
Record RunStatus : Type := mkRunStatus {
  rsInstanceID : string;
  rsState : InstanceRunStateEnum;
  rsError : Error
}.

(** Modelled from the spec: [RunStatus {}], the value-initialised answer
    of [MockRunner]: the first run state and no error. *)
Definition RunStatus_default : RunStatus := mkRunStatus "" eActive eNone.

(** Modelled from the spec: of the image specification of the OCI codec,
    the entry point and the command the runtime spec preparer asks for. *)
Record ImageSpec : Type := mkImageSpec {
  mEntryPoint : list string;
  mCmd : list string
}.

(** Modelled from the spec: of the runtime specification, what the
    preparer merges into it: the command, the user and group, the mounts. *)
Record RuntimeSpec : Type := mkRuntimeSpec {
  rtArgs : list string;
  rtUID : Z;
  rtGID : Z;
  rtMounts : list string
}.

(** [ServiceData()] and [InstanceInfo()], the value-initialised records. *)
Definition ServiceData_default : ServiceData :=
  mkServiceData (mkVersionInfo 0 "" "") "" "" "".

Definition InstanceInfo_default : InstanceInfo :=
  mkInstanceInfo (mkInstanceIdent "" "" 0) 0 0 "" "".

(** [FS::JoinPath] (fs.hpp is not among the sources): the two parts with a
    separator between them.  No property below depends on the paths. *)
Definition JoinPath (base entry : string) : string :=
  String.append base (String.append "/" entry).

(** ** [std::vector] and [<algorithm>] *)

(** [std::find_if(v.begin(), v.end(), pred)]: the position of the first
    item that satisfies [pred]; [None] is [v.end()]. *)
Fixpoint find_if {A : Type} (pred : A -> bool) (v : list A) : option nat :=
  match v with
  | [] => None
  | x :: rest => if pred x then Some O else option_map S (find_if pred rest)
  end.

(** [v.erase(it)]. *)
Fixpoint erase {A : Type} (v : list A) (it : nat) : list A :=
  match v, it with
  | [], _ => []
  | _ :: rest, O => rest
  | x :: rest, S it' => x :: erase rest it'
  end.

(** [*it = value]. *)
Fixpoint assign {A : Type} (v : list A) (it : nat) (value : A) : list A :=
  match v, it with
  | [], _ => []
  | _ :: rest, O => value :: rest
  | x :: rest, S it' => x :: assign rest it' value
  end.

Definition push_back {A : Type} (v : list A) (value : A) : list A :=
  v ++ [value].

(** ** [MockStorage] *)

(** The storage is its vector [mInstances]; every method runs under the
    storage's mutex, one at a time. *)
Definition MockStorage : Type := list InstanceInfo.

Definition AddInstance (instance : InstanceInfo) (mInstances : MockStorage)
  : Error * MockStorage :=
  match find_if (fun info => equal (mInstanceIdent instance) (mInstanceIdent info))
                mInstances with
  | Some _ => (eAlreadyExist, mInstances)
  | None => (eNone, push_back mInstances instance)
  end.

Definition UpdateInstance (instance : InstanceInfo) (mInstances : MockStorage)
  : Error * MockStorage :=
  match find_if (fun info => equal (mInstanceIdent instance) (mInstanceIdent info))
                mInstances with
  | None => (eNotFound, mInstances)
  | Some it => (eNone, assign mInstances it instance)
  end.

Definition RemoveInstance (instanceIdent : InstanceIdent) (mInstances : MockStorage)
  : Error * MockStorage :=
  match find_if (fun instance => equal (mInstanceIdent instance) instanceIdent)
                mInstances with
  | None => (eNotFound, mInstances)
  | Some it => (eNone, erase mInstances it)
  end.

(** [GetAllInstances(instances)]: the records are pushed onto the caller's
    array, up to the first push that fails. *)
Fixpoint GetAllInstances (mInstances : MockStorage) (instances : Array InstanceInfo)
  : outcome (Error * Array InstanceInfo) :=
  match mInstances with
  | [] => Done (eNone, instances)
  | instance :: rest =>
      r <- PushBack instances instance ;;
      if negb (IsNone (fst r)) then Done (fst r, snd r)
      else GetAllInstances rest (snd r)
  end.

(** The calls a client of the storage can make, and the states they lead
    to from the empty storage. *)
Inductive storage_call : Type :=
| CallAdd (instance : InstanceInfo)
| CallUpdate (instance : InstanceInfo)
| CallRemove (instanceIdent : InstanceIdent).

Definition storage_step (call : storage_call) (st : MockStorage)
  : Error * MockStorage :=
  match call with
  | CallAdd instance => AddInstance instance st
  | CallUpdate instance => UpdateInstance instance st
  | CallRemove instanceIdent => RemoveInstance instanceIdent st
  end.

Inductive storage_reachable : MockStorage -> Prop :=
| storage_initial : storage_reachable []
| storage_after (call : storage_call) (st : MockStorage) :
    storage_reachable st -> storage_reachable (snd (storage_step call st)).

(** ** [MockServiceManager] *)

Definition MockServiceManager : Type := list ServiceData.

Definition InstallServices (services : list ServiceInfo) (mServicesData : MockServiceManager)
  : Error * MockServiceManager :=
  (eNone,
   map (fun service =>
          mkServiceData (siVersionInfo service) (siServiceID service)
            (siProviderID service) (JoinPath "/aos/storages" (siServiceID service)))
       services).

Definition GetService (mServicesData : MockServiceManager) (serviceID : string)
  : RetWithError ServiceData :=
  match find_if (fun service => String.eqb (sdServiceID service) serviceID)
                mServicesData with
  | None => mkRet ServiceData_default eNotFound
  | Some it => RetValue (nth it mServicesData ServiceData_default)
  end.

Definition GetImageParts (service : ServiceData) : RetWithError ImageParts :=
  RetValue (mkImageParts (JoinPath (sdImagePath service) "image.json")
                         (JoinPath (sdImagePath service) "service.json")
                         (sdImagePath service)).

(** ** [MockRunner] *)

Definition StartInstance (instanceID runtimeDir : string) : RunStatus :=
  RunStatus_default.

Definition StopInstance (instanceID : string) : Error := eNone.

(** ** [MockOCIManager] *)

Definition LoadImageSpec (path : string) (imageSpec : ImageSpec) : Error * ImageSpec :=
  (eNone, mkImageSpec (mEntryPoint imageSpec) (mCmd imageSpec ++ ["unikernel"])).

Definition SaveImageSpec (path : string) (imageSpec : ImageSpec) : Error := eNone.

Definition LoadRuntimeSpec (path : string) (runtimeSpec : RuntimeSpec)
  : Error * RuntimeSpec :=
  (eNone, runtimeSpec).

Definition SaveRuntimeSpec (path : string) (runtimeSpec : RuntimeSpec) : Error := eNone.

(** ** [MockStatusReceiver] *)

(** The receiver is the shared state of its promise [mPromise]: no value
    yet, or the batch the promise was given, which is what the future of
    [GetFeature] yields.  [set_value] on a promise that has its value
    throws. *)
Definition MockStatusReceiver : Type := option (Array InstanceStatus).

(** [GetFeature()]: the promise is replaced by a new one. *)
Definition GetFeature (mPromise : MockStatusReceiver) : MockStatusReceiver := None.

Definition set_value (mPromise : MockStatusReceiver) (status : Array InstanceStatus)
  : outcome MockStatusReceiver :=
  match mPromise with
  | None => Done (Some status)
  | Some _ => FutureError
  end.

Definition InstancesRunStatus (status : Array InstanceStatus) (mPromise : MockStatusReceiver)
  : outcome (Error * MockStatusReceiver) :=
  promise <- set_value mPromise status ;;
  Done (eNone, promise).

Definition InstancesUpdateStatus (status : Array InstanceStatus) (mPromise : MockStatusReceiver)
  : outcome (Error * MockStatusReceiver) :=
  promise <- set_value mPromise status ;;
  Done (eNone, promise).

(** ** [CompareInstanceStatuses] *)

(** One of the two range-based loops: every item of [items] is looked up
    in [other], and the first one that is not found ends the comparison. *)
Fixpoint all_found (other : Array InstanceStatus) (n : nat) (status : Array InstanceStatus)
    (it : Z) : outcome bool :=
  match n with
  | O => Done true
  | S n' =>
      instance <- load status it ;;
      found <- Find other instance ;;
      if negb (IsNone (mError found)) then Done false
      else all_found other n' status (it + 1)
  end.

Definition CompareInstanceStatuses (status1 status2 : Array InstanceStatus)
  : outcome bool :=
  if negb (Size status1 =? Size status2) then Done false
  else
    ok1 <- all_found status2 (Z.to_nat (mSize status1)) status1 (begin_ status1) ;;
    if negb ok1 then Done false
    else
      ok2 <- all_found status1 (Z.to_nat (mSize status2)) status2 (begin_ status2) ;;
      if negb ok2 then Done false
      else Done true.

(** ** The launcher ([aos/sm/launcher.hpp]) *)

(** The launcher's code is not among the sources: only its test, which
    drives it through [Init], [RunLastInstances] and [RunInstances] with the
    mocks above, is.  Its model follows the specification's reconciliation
    engine, step by step, over the mocks.  The per-instance operations of a
    round, which the specification lets run concurrently and in no
    guaranteed order, are taken one after the other in the order of the
    desired set; the properties below are stated on batches as sets. *)

Section LauncherModel.

(** Modelled from the spec: the declared maximum capacity of the
    collections of instances the engine handles ([cMaxNumInstances]), and
    the names the engine gives the runner for an instance and for its
    runtime directory (one per identity and service version). *)
Variable cMaxNumInstances : nat.
Variable instanceID : InstanceIdent -> string.
Variable runtimeDir : InstanceIdent -> Z -> string.

(** Modelled from the spec: the launcher holds its collaborators (here
    the mocks with state) and, in memory, the last status it reported for
    each running instance, from which it knows the service version an
    instance is bound to. *)
Record Launcher : Type := mkLauncher {
  mServiceManager : MockServiceManager;
  mStatusReceiver : MockStatusReceiver;
  mStorage : MockStorage;
  mCurrentInstances : list InstanceStatus
}.

(** Modelled from the spec: [Init(collaborators...) -> Error]. *)
Definition Init (serviceManager : MockServiceManager)
    (statusReceiver : MockStatusReceiver) (storage : MockStorage)
  : Error * Launcher :=
  (eNone, mkLauncher serviceManager statusReceiver storage []).

(** Modelled from the spec: a desired set in which an identity occurs
    twice is rejected. *)
Fixpoint has_duplicate (idents : list InstanceIdent) : bool :=
  match idents with
  | [] => false
  | ident :: rest => existsb (equal ident) rest || has_duplicate rest
  end.

(** Modelled from the spec: the runtime spec preparer,
    [Prepare(serviceData, instanceInfo) -> runtimeDir | Error].  It loads
    the image parts, the image spec and the runtime spec, fails with
    [InvalidSpec] on an image spec without entry point and command, merges
    the instance's parameters and saves the runtime spec in the
    instance's runtime directory. *)
Definition Prepare (service : ServiceData) (instance : InstanceInfo)
  : RetWithError string :=
  let parts := GetImageParts service in
  if negb (IsNone (mError parts)) then mkRet "" (mError parts)
  else
    let image := LoadImageSpec (mImageSpecPath (mValue parts)) (mkImageSpec [] []) in
    if negb (IsNone (fst image)) then mkRet "" (fst image)
    else
      match mEntryPoint (snd image) ++ mCmd (snd image) with
      | [] => mkRet "" eInvalidSpec
      | command =>
          let runtime :=
            LoadRuntimeSpec (mRuntimeSpecPath (mValue parts))
                            (mkRuntimeSpec [] 0 0 []) in
          if negb (IsNone (fst runtime)) then mkRet "" (fst runtime)
          else
            let merged :=
              mkRuntimeSpec command (mUID instance) (mGID instance)
                (rtMounts (snd runtime)
                 ++ [mStoragePath instance; mStatePath instance]) in
            let dir :=
              runtimeDir (mInstanceIdent instance)
                         (mVersionID (sdVersionInfo service)) in
            let saved := SaveRuntimeSpec (JoinPath dir "config.json") merged in
            if negb (IsNone saved) then mkRet "" saved
            else RetValue dir
      end.

(** Modelled from the spec: the in-memory mirror drops and records the
    status of an identity. *)
Definition forget (ident : InstanceIdent) (current : list InstanceStatus)
  : list InstanceStatus :=
  filter (fun status => negb (equal (isInstanceIdent status) ident)) current.

(** Modelled from the spec: the status an identity was reported with
    last replaces the one the mirror held. *)
Definition remember (status : InstanceStatus) (current : list InstanceStatus)
  : list InstanceStatus :=
  forget (isInstanceIdent status) current ++ [status].

(** Modelled from the spec: "upsert the InstanceInfo": the record is
    updated, or added when the registry has none for the identity. *)
Definition upsert (instance : InstanceInfo) (storage : MockStorage)
  : Error * MockStorage :=
  let updated := UpdateInstance instance storage in
  match fst updated with
  | eNotFound => AddInstance instance storage
  | _ => updated
  end.

(** Modelled from the spec: the [Failed] status of an instance, with the
    originating error. *)
Definition failed (ident : InstanceIdent) (version : Z) (err : Error)
  : InstanceStatus :=
  mkInstanceStatus ident version eFailed err.

(** Modelled from the spec: step 4 for one entry of ToStart: resolve the
    service, prepare the runtime directory, start the instance; on success
    upsert the record and report [Active]; on any failure report [Failed]
    with the error and leave the registry as it is. *)
Definition startInstance (instance : InstanceInfo) (l : Launcher)
  : InstanceStatus * Launcher :=
  let ident := mInstanceIdent instance in
  let dropped :=
    mkLauncher (mServiceManager l) (mStatusReceiver l) (mStorage l)
               (forget ident (mCurrentInstances l)) in
  let service := GetService (mServiceManager l) (mServiceID ident) in
  if negb (IsNone (mError service)) then (failed ident 0 (mError service), dropped)
  else
    let version := mVersionID (sdVersionInfo (mValue service)) in
    let dir := Prepare (mValue service) instance in
    if negb (IsNone (mError dir)) then (failed ident version (mError dir), dropped)
    else
      let run := StartInstance (instanceID ident) (mValue dir) in
      match rsState run, IsNone (rsError run) with
      | eActive, true =>
          let stored := upsert instance (mStorage l) in
          if negb (IsNone (fst stored)) then (failed ident version (fst stored), dropped)
          else
            let status := mkInstanceStatus ident version eActive eNone in
            (status,
             mkLauncher (mServiceManager l) (mStatusReceiver l) (snd stored)
                        (remember status (mCurrentInstances l)))
      | _, _ => (failed ident version (rsError run), dropped)
      end.

(** Modelled from the spec: step 4 over ToStart; an entry that is
    running is stopped first (a restart is a stop followed by a start). *)
Fixpoint startInstances (toStart : list InstanceInfo) (l : Launcher)
  : list InstanceStatus * Launcher :=
  match toStart with
  | [] => ([], l)
  | instance :: rest =>
      let _stopped :=
        if existsb (fun info => equal (mInstanceIdent info) (mInstanceIdent instance))
                   (mStorage l)
        then StopInstance (instanceID (mInstanceIdent instance))
        else eNone in
      let started := startInstance instance l in
      let others := startInstances rest (snd started) in
      (fst started :: fst others, snd others)
  end.

(** Modelled from the spec: step 3 over ToStop: the instance is stopped
    and its record removed, whatever the stop returned; a stop reports no
    status (the test's round with an empty desired set expects an empty
    batch). *)
Fixpoint stopInstances (toStop : list InstanceInfo) (l : Launcher) : Launcher :=
  match toStop with
  | [] => l
  | instance :: rest =>
      let _stopped := StopInstance (instanceID (mInstanceIdent instance)) in
      let removed := RemoveInstance (mInstanceIdent instance) (mStorage l) in
      stopInstances rest
        (mkLauncher (mServiceManager l) (mStatusReceiver l) (snd removed)
                    (forget (mInstanceIdent instance) (mCurrentInstances l)))
  end.

(** Modelled from the spec: step 2, "Unchanged: in both with identical
    service version -- left untouched, no status event emitted for them in
    this round (they keep their last-reported state)".  A desired instance
    is unchanged when the registry has its identity and the version of its
    service is the one it was last reported with. *)
Definition unchanged (l : Launcher) (current : list InstanceInfo)
    (instance : InstanceInfo) : bool :=
  let ident := mInstanceIdent instance in
  let service := GetService (mServiceManager l) (mServiceID ident) in
  existsb (fun info => equal (mInstanceIdent info) ident) current
  && IsNone (mError service)
  && existsb (fun status =>
                equal (isInstanceIdent status) ident
                && (isServiceVersionID status
                    =? mVersionID (sdVersionInfo (mValue service))))
             (mCurrentInstances l).

(** Modelled from the spec: the registry's records, loaded in a
    collection of the declared capacity. *)
Definition loadInstances (l : Launcher) : outcome (Error * Array InstanceInfo) :=
  GetAllInstances (mStorage l)
                  (StaticArray (repeat InstanceInfo_default cMaxNumInstances)).

(** Modelled from the spec: the batch of a round is delivered once,
    through the "run" delivery of the status sink; an error of the sink is
    returned to the caller and the committed state is kept. *)
Definition deliver (statuses : list InstanceStatus) (l : Launcher)
  : outcome (Error * Launcher) :=
  sent <- InstancesRunStatus (ArrayOfVector statuses) (mStatusReceiver l) ;;
  Done (fst sent,
        mkLauncher (mServiceManager l) (snd sent) (mStorage l) (mCurrentInstances l)).

(** Modelled from the spec: [RunInstances(services, layers, instances)],
    steps 1 to 6 of the reconciliation algorithm.  A desired set with a
    duplicate identity is rejected with [InvalidArgument] and one over the
    declared capacity with [NoMemory], both before any effect. *)
Definition RunInstances (services : list ServiceInfo) (layers : list LayerInfo)
    (instances : list InstanceInfo) (l : Launcher) : outcome (Error * Launcher) :=
  if has_duplicate (map mInstanceIdent instances) then Done (eInvalidArgument, l)
  else if (cMaxNumInstances <? length instances)%nat then Done (eNoMemory, l)
  else
    let installed := InstallServices services (mServiceManager l) in
    if negb (IsNone (fst installed)) then Done (fst installed, l)
    else
      let l1 :=
        mkLauncher (snd installed) (mStatusReceiver l) (mStorage l)
                   (mCurrentInstances l) in
      loaded <- loadInstances l1 ;;
      if negb (IsNone (fst loaded)) then Done (fst loaded, l1)
      else
        let current := elements (snd loaded) in
        let toStop :=
          filter (fun info =>
                    negb (existsb (fun instance =>
                                     equal (mInstanceIdent instance)
                                           (mInstanceIdent info))
                                  instances))
                 current in
        let toStart :=
          filter (fun instance => negb (unchanged l1 current instance)) instances in
        let l2 := stopInstances toStop l1 in
        let started := startInstances toStart l2 in
        deliver (fst started) (snd started).

(** Modelled from the spec: [RunLastInstances()]: the desired set is the
    registry's, every entry of it is resolved against the installed
    services and started, and the batch is delivered; with an empty
    registry the batch is empty. *)
Definition RunLastInstances (l : Launcher) : outcome (Error * Launcher) :=
  loaded <- loadInstances l ;;
  if negb (IsNone (fst loaded)) then Done (fst loaded, l)
  else
    let started := startInstances (elements (snd loaded)) l in
    deliver (fst started) (snd started).

(** The test's [feature = statusReceiver.GetFeature()] before a round. *)
Definition renew_promise (l : Launcher) : Launcher :=
  mkLauncher (mServiceManager l) (GetFeature (mStatusReceiver l))
             (mStorage l) (mCurrentInstances l).

(** The states of a launcher that is initialised over a fresh receiver
    and an empty storage, as the test does, and then driven through its
    entry points, the test renewing the receiver's promise in between. *)
Inductive launcher_reachable : Launcher -> Prop :=
| reachable_Init (serviceManager : MockServiceManager) :
    launcher_reachable (snd (Init serviceManager None []))
| reachable_GetFeature (l : Launcher) :
    launcher_reachable l ->
    launcher_reachable (renew_promise l)
| reachable_RunInstances (services : list ServiceInfo) (layers : list LayerInfo)
    (instances : list InstanceInfo) (l l' : Launcher) (err : Error) :
    launcher_reachable l ->
    RunInstances services layers instances l = Done (err, l') ->
    launcher_reachable l'
| reachable_RunLastInstances (l l' : Launcher) (err : Error) :
    launcher_reachable l ->
    RunLastInstances l = Done (err, l') ->
    launcher_reachable l'.

End LauncherModel.

(** The launcher test's data: the instances and the service of its first
    round, and the statuses it expects. *)
Definition test_instance (index : Z) : InstanceInfo :=
  mkInstanceInfo (mkInstanceIdent "service1" "subject1" index) 0 0 "" "".

Definition test_service (version : Z) : ServiceInfo :=
  mkServiceInfo (mkVersionInfo version "1.0" "") "service1" "provider1" 0 "" [] [] 0.

Definition test_status (index version : Z) : InstanceStatus :=
  mkInstanceStatus (mkInstanceIdent "service1" "subject1" index) version eActive eNone.

Definition test_instances : list InstanceInfo :=
  [test_instance 0; test_instance 1; test_instance 2].

(** A launcher as the test sets it up: a capacity, names for instances
    and runtime directories that tell identities and versions apart, and
    fresh mocks. *)
Definition test_capacity : nat := 8.

Definition test_instanceID (ident : InstanceIdent) : string :=
  JoinPath (JoinPath (mServiceID ident) (mSubjectID ident))
           (NilZero.string_of_int (Z.to_int (mInstance ident))).

Definition test_runtimeDir (ident : InstanceIdent) (version : Z) : string :=
  JoinPath (JoinPath "/run/aos/runtime" (test_instanceID ident))
           (NilZero.string_of_int (Z.to_int version)).

Definition test_launcher : Launcher := snd (Init [] None []).

Definition launcher_after (round : outcome (Error * Launcher)) (before : Launcher)
  : Launcher :=
  match round with
  | Done (_, after) => after
  | _ => before
  end.

(** The first round of the test, and the same desired set submitted once
    more, each with a promise of its own. *)
Definition test_round (l : Launcher) : outcome (Error * Launcher) :=
  RunInstances test_capacity test_instanceID test_runtimeDir
               [test_service 1] [] test_instances l.

Definition test_launcher_1 : Launcher :=
  launcher_after (test_round test_launcher) test_launcher.

Definition test_launcher_2 : Launcher :=
  launcher_after (test_round (renew_promise test_launcher_1)) test_launcher_1.

(** One step of [TEST(launcher, RunInstances)]: the round returns no
    error, the future has its value, and [CompareInstanceStatuses] finds it
    equal to the expected statuses. *)
Definition expect_statuses (round : outcome (Error * Launcher))
    (expected : list InstanceStatus) : outcome (bool * Launcher) :=
  r <- round ;;
  match mStatusReceiver (snd r) with
  | None => Done (false, snd r)
  | Some batch =>
      same <- CompareInstanceStatuses batch (ArrayOfVector expected) ;;
      Done (IsNone (fst r) && same, snd r)
  end.

(** The test as a whole: [RunLastInstances] on the fresh launcher, the
    three rounds of [testData], and [RunLastInstances] again. *)
Definition launcher_test : outcome bool :=
  let run := RunInstances test_capacity test_instanceID test_runtimeDir in
  let runLast := RunLastInstances test_capacity test_instanceID test_runtimeDir in
  r0 <- expect_statuses (runLast test_launcher) [] ;;
  r1 <- expect_statuses
          (run [test_service 1] [] test_instances (renew_promise (snd r0)))
          [test_status 0 1; test_status 1 1; test_status 2 1] ;;
  r2 <- expect_statuses (run [] [] [] (renew_promise (snd r1))) [] ;;
  r3 <- expect_statuses
          (run [test_service 2] []
               [test_instance 4; test_instance 5; test_instance 6]
               (renew_promise (snd r2)))
          [test_status 4 2; test_status 5 2; test_status 6 2] ;;
  r4 <- expect_statuses (runLast (renew_promise (snd r3)))
          [test_status 4 2; test_status 5 2; test_status 6 2] ;;
  Done (fst r0 && fst r1 && fst r2 && fst r3 && fst r4).

(** ** More of [Array<T>]: [Insert], [Remove], [Find] by a predicate *)

(** [operator==] of an integer item type. *)
#[global] Instance integer_equal : EqualOp Z := Z.eqb.

(** The counter of [for (auto i = 0; i < bound; i++)] is an [int].  The
    loop makes as many rounds as [i < bound] allows; a round that ends with
    [i] at [INT_MAX] increments it out of its range, which C++ leaves
    undefined: [None].  The other results of a loop are outcomes. *)
Definition int_max : Z := 2 ^ 31 - 1.

Fixpoint for_int {S : Type} (rounds : nat) (i : Z) (body : Z -> S -> outcome S) (s : S)
  : option (outcome S) :=
  match rounds with
  | O => Some (Done s)
  | S rounds' =>
      match body i s with
      | Done s' => if i =? int_max then None else for_int rounds' (i + 1) body s'
      | OutOfBounds slot => Some (OutOfBounds slot)
      | FutureError => Some FutureError
      end
  end.

Definition and_then {A B : Type} (m : option (outcome A))
    (k : A -> option (outcome B)) : option (outcome B) :=
  match m with
  | None => None
  | Some (Done a) => k a
  | Some (OutOfBounds slot) => Some (OutOfBounds slot)
  | Some FutureError => Some FutureError
  end.

Notation "x <-- m ;; k" := (and_then m (fun x => k))
  (at level 61, m at next level, right associativity).

(** The buffer that [from] and [till] of [Insert] point into: the array's
    own buffer, which [Insert] writes while it reads the range from it, or
    another buffer, given by what its slots hold, which [Insert] only
    reads. *)
Inductive range_buffer (T : Type) : Type :=
| own_buffer
| other_buffer (slots : list T).

Arguments own_buffer {T}.
Arguments other_buffer {T} slots.

Section ArrayMoreOperations.
Context {T : Type}.

(** [*(from + i)]: read when the round is made, from the buffer as it is
    then. *)
Definition range_load (buffer : range_buffer T) (a : Array T) (slot : Z) : outcome T :=
  match buffer with
  | own_buffer => load a slot
  | other_buffer slots =>
      match slot_read slots slot with
      | Some x => Done x
      | None => OutOfBounds slot
      end
  end.

(** [Insert(pos, from, till)].  [pos], [from] and [till] are slots, the
    first of the array's buffer and the other two of [buffer]; [size] is a
    [ptrdiff_t] and its sum with [mSize] a [size_t].  The first loop copies
    the items from [pos] on upwards by [size] slots, lowest first; the
    second one copies the range in, reading each item when its round
    comes. *)
Definition Insert (a : Array T) (pos : Z) (buffer : range_buffer T) (from till : Z)
  : option (outcome (Error * Array T)) :=
  let size := till - from in
  if mMaxSize a <? wrap_size (mSize a + size) then Some (Done (eNoMemory, a))
  else if (pos <? begin_ a) || (end_ a <? pos) then Some (Done (eInvalidArgument, a))
  else
    a1 <-- for_int (Z.to_nat (end_ a - pos)) 0
             (fun i b => x <- load b (pos + i) ;; store b (pos + size + i) x) a ;;
    a2 <-- for_int (Z.to_nat size) 0
             (fun i b => x <- range_load buffer b (from + i) ;; store b (pos + i) x) a1 ;;
    Some (Done (eNone, SetSize a2 (wrap_size (mSize a2 + size)))).

(** What the buffer of the range holds when [Insert] is called, and the
    items of [[from, till)] then. *)
Definition range_slots (buffer : range_buffer T) (a : Array T) : list T :=
  match buffer with
  | own_buffer => mItems a
  | other_buffer slots => slots
  end.

Definition range_items (buffer : range_buffer T) (a : Array T) (from till : Z) : list T :=
  firstn (Z.to_nat (till - from)) (skipn (Z.to_nat from) (range_slots buffer a)).

(** A range of slots of its buffer that is apart from the slots [Insert]
    writes: it is in another buffer, or in the array's own and ends at or
    before [pos]. *)
Definition range_apart (buffer : range_buffer T) (a : Array T) (pos from till : Z)
  : Prop :=
  0 <= from <= till
  /\ till <= Z.of_nat (length (range_slots buffer a))
  /\ match buffer with
     | own_buffer => till <= pos
     | other_buffer _ => True
     end.

(** [Remove(T* item)]: the items after [item] move down by one slot. *)
Definition Remove (a : Array T) (item : Z)
  : option (outcome (RetWithError pointer * Array T)) :=
  if (item <? begin_ a) || (end_ a <? item)
  then Some (Done (mkRet nullptr eInvalidArgument, a))
  else
    a1 <-- for_int (Z.to_nat (end_ a - item - 1)) 0
             (fun i b => x <- load b (item + 1 + i) ;; store b (item + i) x) a ;;
    Some (Done (RetValue (SlotPtr item), SetSize a1 (wrap_size (mSize a1 - 1)))).

(** The loop of [Remove(P match)]: [n] items are left between [it] and
    [end()].  An item that matches is removed and [it] becomes the pointer
    [Remove] returns; a null [it] points into no buffer. *)
Fixpoint RemoveMatch_from (match_ : T -> bool) (n : nat) (it : Z) (a : Array T)
  : option (outcome (RetWithError pointer * Array T)) :=
  match n with
  | O => Some (Done (RetValue (SlotPtr (end_ a)), a))
  | S n' =>
      match load a it with
      | Done x =>
          if match_ x then
            result <-- Remove a it ;;
            if negb (IsNone (mError (fst result))) then Some (Done result)
            else
              match mValue (fst result) with
              | SlotPtr next => RemoveMatch_from match_ n' next (snd result)
              | nullptr => Some (OutOfBounds (-1))
              end
          else RemoveMatch_from match_ n' (it + 1) a
      | OutOfBounds slot => Some (OutOfBounds slot)
      | FutureError => Some FutureError
      end
  end.

Definition RemoveMatch (match_ : T -> bool) (a : Array T)
  : option (outcome (RetWithError pointer * Array T)) :=
  RemoveMatch_from match_ (Z.to_nat (mSize a)) (begin_ a) a.

(** The loop of [Find(P match)]. *)
Fixpoint FindMatch_from (match_ : T -> bool) (a : Array T) (n : nat) (it : Z)
  : outcome (RetWithError pointer) :=
  match n with
  | O => Done (mkRet nullptr eNotFound)
  | S n' =>
      x <- load a it ;;
      if match_ x then Done (RetValue (SlotPtr it))
      else FindMatch_from match_ a n' (it + 1)
  end.

Definition FindMatch (match_ : T -> bool) (a : Array T)
  : outcome (RetWithError pointer) :=
  FindMatch_from match_ a (Z.to_nat (mSize a)) (begin_ a).

End ArrayMoreOperations.

(** ** More of [Time] *)

(** [Years(num)]: a product of two [int64_t]. *)
Definition Years (num : Z) : Duration := wrap_int64 (31556925974700000 * num).

(** [Time()]: a zeroed [timespec]. *)
Definition Time_default : Time := mkTimespec 0 0.

(** [operator==], [operator!=] and [operator<] of [Time]. *)
Definition Time_eq (a b : Time) : bool :=
  (tv_sec a =? tv_sec b) && (tv_nsec a =? tv_nsec b).

Definition Time_ne (a b : Time) : bool := negb (Time_eq a b).

Definition Time_lt (a b : Time) : bool :=
  (tv_sec a <? tv_sec b)
  || ((tv_sec a =? tv_sec b) && (tv_nsec a <? tv_nsec b)).

Definition IsZero (t : Time) : bool := Time_eq t Time_default.

Definition UnixTime (t : Time) : timespec := t.

(** [UnixNano()]: the sum is a signed 64-bit one and its result is
    converted to [uint64_t]. *)
Definition UnixNano (t : Time) : Z :=
  wrap_size (wrap_int64 (tv_nsec t + wrap_int64 (tv_sec t * Seconds))).

(** A [Time] as [Time::Now] and [Time::Add] produce them: nanoseconds
    within a second. *)
Definition normalized (t : Time) : Prop := 0 <= tv_nsec t < 10 ^ 9.

(* ================================================================== *)
(** * Part II: properties                                              *)
(* ================================================================== *)

(** ** Buffers *)

Section BufferFacts.
Context {T : Type}.
Implicit Types (buf : list T) (i : Z) (v : T).

Lemma slot_read_nth_error buf : forall i,
  slot_read buf i = if 0 <=? i then nth_error buf (Z.to_nat i) else None.
Proof.
  induction buf as [|x rest IH]; intros i; simpl.
  - destruct (0 <=? i); [destruct (Z.to_nat i)|]; reflexivity.
  - destruct (Z.eqb_spec i 0) as [->|Hne]; [reflexivity|].
    rewrite IH.
    destruct (Z.leb_spec 0 i) as [Hi|Hi].
    + replace (0 <=? i - 1) with true by (symmetry; apply Z.leb_le; lia).
      replace (Z.to_nat i) with (S (Z.to_nat (i - 1))) by lia.
      reflexivity.
    + replace (0 <=? i - 1) with false by (symmetry; apply Z.leb_gt; lia).
      reflexivity.
Qed.

Lemma slot_read_outside buf i :
  i < 0 \/ Z.of_nat (length buf) <= i -> slot_read buf i = None.
Proof.
  intros H. rewrite slot_read_nth_error.
  destruct (Z.leb_spec 0 i); [|reflexivity].
  apply nth_error_None. lia.
Qed.

Lemma slot_write_inside buf v : forall i,
  0 <= i < Z.of_nat (length buf) ->
  slot_write buf i v
  = Some (firstn (Z.to_nat i) buf ++ v :: skipn (S (Z.to_nat i)) buf).
Proof.
  induction buf as [|x rest IH]; intros i Hi; simpl in *; [lia|].
  destruct (Z.eqb_spec i 0) as [->|Hne]; [reflexivity|].
  rewrite IH by lia.
  replace (Z.to_nat i) with (S (Z.to_nat (i - 1))) by lia.
  reflexivity.
Qed.

Lemma slot_write_outside buf v i :
  i < 0 \/ Z.of_nat (length buf) <= i -> slot_write buf i v = None.
Proof.
  revert i. induction buf as [|x rest IH]; intros i Hi; simpl in *; [reflexivity|].
  destruct (Z.eqb_spec i 0) as [->|Hne]; [lia|].
  rewrite IH by lia. reflexivity.
Qed.

(** After the write of slot [n]: the slots before it are the old ones
    and slot [n] holds the value written. *)
Lemma firstn_written buf v (n : nat) :
  (n < length buf)%nat ->
  firstn (S n) (firstn n buf ++ v :: skipn (S n) buf) = firstn n buf ++ [v].
Proof.
  intros Hn.
  assert (Hlen : length (firstn n buf) = n) by (rewrite length_firstn; lia).
  rewrite firstn_app, Hlen.
  replace (S n - n)%nat with 1%nat by lia.
  rewrite firstn_all2 by lia. reflexivity.
Qed.

Lemma firstn_before_written buf v (n m : nat) :
  (m <= n)%nat -> (n < length buf)%nat ->
  firstn m (firstn n buf ++ v :: skipn (S n) buf) = firstn m buf.
Proof.
  intros Hm Hn.
  assert (Hlen : length (firstn n buf) = n) by (rewrite length_firstn; lia).
  rewrite firstn_app, Hlen.
  replace (m - n)%nat with 0%nat by lia.
  rewrite firstn_O, app_nil_r, firstn_firstn.
  f_equal. lia.
Qed.

Lemma length_written buf v (n : nat) :
  (n < length buf)%nat ->
  length (firstn n buf ++ v :: skipn (S n) buf) = length buf.
Proof.
  intros Hn. rewrite length_app, length_firstn.
  change (length (v :: skipn (S n) buf)) with (S (length (skipn (S n) buf))).
  rewrite length_skipn. lia.
Qed.

End BufferFacts.

(** ** [Array<T>] *)

Section ArrayFacts.
Context {T : Type}.
Implicit Types (a : Array T) (item value : T).

Lemma wrap_size_small z : 0 <= z < size_t_modulus -> wrap_size z = z.
Proof. intros H. unfold wrap_size. apply Z.mod_small. exact H. Qed.

Lemma load_inside a i :
  0 <= i < Z.of_nat (length (mItems a)) ->
  exists x, load a i = Done x /\ nth_error (mItems a) (Z.to_nat i) = Some x.
Proof.
  intros Hi. unfold load. rewrite slot_read_nth_error.
  replace (0 <=? i) with true by (symmetry; apply Z.leb_le; lia).
  destruct (nth_error (mItems a) (Z.to_nat i)) as [x|] eqn:Hx.
  - exists x. split; reflexivity.
  - apply nth_error_None in Hx. lia.
Qed.

Lemma store_inside a i value :
  0 <= i < Z.of_nat (length (mItems a)) ->
  store a i value
  = Done (mkArray (firstn (Z.to_nat i) (mItems a)
                     ++ value :: skipn (S (Z.to_nat i)) (mItems a))
                  (mSize a) (mMaxSize a)).
Proof. intros Hi. unfold store. rewrite slot_write_inside by exact Hi. reflexivity. Qed.

Lemma elements_in_buffer a i x :
  0 <= i < mSize a ->
  nth_error (mItems a) (Z.to_nat i) = Some x ->
  nth_error (elements a) (Z.to_nat i) = Some x.
Proof.
  intros Hi Hx. unfold elements. rewrite nth_error_firstn.
  destruct (Nat.ltb_spec (Z.to_nat i) (Z.to_nat (mSize a))); [exact Hx|lia].
Qed.

Lemma PushBack_full a item :
  mSize a = mMaxSize a -> PushBack a item = Done (eNoMemory, a).
Proof.
  intros Hfull. unfold PushBack, IsFull.
  rewrite (proj2 (Z.eqb_eq _ _) Hfull). reflexivity.
Qed.

Lemma PushBack_room a item :
  well_formed a -> mSize a < mMaxSize a ->
  PushBack a item = Done (eNone, pushed a item).
Proof.
  intros (Hsize & Hbuf & Hmax) Hroom. unfold PushBack, IsFull, end_.
  replace (mSize a =? mMaxSize a) with false by (symmetry; apply Z.eqb_neq; lia).
  rewrite store_inside by lia. cbn [bind mItems mSize mMaxSize SetSize].
  unfold SetSize. cbn [mItems mSize mMaxSize].
  rewrite wrap_size_small by lia. reflexivity.
Qed.

Lemma pushed_well_formed a item :
  well_formed a -> mSize a < mMaxSize a -> well_formed (pushed a item).
Proof.
  intros (Hsize & Hbuf & Hmax) Hroom. unfold well_formed, pushed.
  cbn [mItems mSize mMaxSize].
  rewrite length_written by lia. lia.
Qed.

Lemma pushed_elements a item :
  well_formed a -> mSize a < mMaxSize a ->
  elements (pushed a item) = elements a ++ [item].
Proof.
  intros (Hsize & Hbuf & Hmax) Hroom. unfold elements, pushed.
  cbn [mItems mSize mMaxSize].
  replace (Z.to_nat (mSize a + 1)) with (S (Z.to_nat (mSize a))) by lia.
  apply firstn_written. lia.
Qed.

Lemma pushed_load a item :
  well_formed a -> mSize a < mMaxSize a ->
  load (pushed a item) (mSize a) = Done item.
Proof.
  intros (Hsize & Hbuf & Hmax) Hroom. unfold load, pushed.
  cbn [mItems mSize mMaxSize].
  rewrite slot_read_nth_error.
  replace (0 <=? mSize a) with true by (symmetry; apply Z.leb_le; lia).
  rewrite nth_error_app2 by (rewrite length_firstn; lia).
  rewrite length_firstn.
  replace (Z.to_nat (mSize a) - Nat.min (Z.to_nat (mSize a)) (length (mItems a)))%nat
    with 0%nat by lia.
  reflexivity.
Qed.

(** C5.  [PushBack] on a full array returns [eNoMemory] and leaves the
    array as it is; on an array with room it returns [eNone], the size
    grows by one and the item is stored at the former end, after the old
    items; the size never passes the capacity, which no push changes. *)
Theorem PushBack_bounded a item :
  well_formed a ->
  (mSize a = mMaxSize a -> PushBack a item = Done (eNoMemory, a))
  /\ (mSize a < mMaxSize a ->
      exists a',
        PushBack a item = Done (eNone, a')
        /\ mSize a' = mSize a + 1
        /\ load a' (mSize a) = Done item
        /\ elements a' = elements a ++ [item])
  /\ (exists err a',
        PushBack a item = Done (err, a')
        /\ mMaxSize a' = mMaxSize a
        /\ mSize a' <= mMaxSize a'
        /\ well_formed a').
Proof.
  intros Hwf. split; [apply PushBack_full|]. split.
  - intros Hroom. exists (pushed a item).
    split; [apply PushBack_room; assumption|].
    split; [reflexivity|].
    split; [apply pushed_load; assumption|apply pushed_elements; assumption].
  - destruct (Z.eq_dec (mSize a) (mMaxSize a)) as [Hfull|Hne].
    + exists eNoMemory, a. rewrite PushBack_full by exact Hfull.
      destruct Hwf as (Hsize & Hbuf & Hmax).
      repeat split; try assumption; lia.
    + assert (Hroom : mSize a < mMaxSize a) by (destruct Hwf; lia).
      exists eNone, (pushed a item). rewrite PushBack_room by assumption.
      pose proof (pushed_well_formed a item Hwf Hroom) as Hwf'.
      split; [reflexivity|]. split; [reflexivity|].
      split; [destruct Hwf' as (Hs & _); lia|exact Hwf'].
Qed.

(** C6.  [At(index)] returns [eOutOfRange] and no address when the index
    is not below the size; otherwise it returns the address of the slot
    [index] with [eNone], and that slot holds the item of that index.  An
    address it returns is always below the size. *)
Theorem At_checked a index :
  well_formed a ->
  0 <= index < size_t_modulus ->
  (mSize a <= index -> At a index = mkRet nullptr eOutOfRange)
  /\ (index < mSize a ->
      At a index = mkRet (SlotPtr index) eNone
      /\ exists x, load a index = Done x
                   /\ nth_error (elements a) (Z.to_nat index) = Some x)
  /\ (forall slot, mValue (At a index) = SlotPtr slot ->
                   mError (At a index) = eNone /\ 0 <= slot < mSize a).
Proof.
  intros (Hsize & Hbuf & Hmax) Hindex. unfold At, RetValue.
  destruct (Z.leb_spec (mSize a) index) as [Hout|Hin].
  - split; [reflexivity|]. split; [lia|].
    simpl. intros slot Hslot. discriminate Hslot.
  - split; [lia|]. split.
    + intros _. split; [reflexivity|].
      destruct (load_inside a index) as (x & Hload & Hnth); [lia|].
      exists x. split; [exact Hload|].
      apply elements_in_buffer; [lia|exact Hnth].
    + simpl. intros slot Hslot. injection Hslot as <-. split; [reflexivity|lia].
Qed.

End ArrayFacts.

Lemma PushBack_bounded_witness :
  let a := mkArray [5; 0; 0] 1 3 in
  (mSize a = mMaxSize a -> PushBack a 6 = Done (eNoMemory, a))
  /\ (mSize a < mMaxSize a ->
      exists a',
        PushBack a 6 = Done (eNone, a')
        /\ mSize a' = mSize a + 1
        /\ load a' (mSize a) = Done 6
        /\ elements a' = elements a ++ [6])
  /\ (exists err a',
        PushBack a 6 = Done (err, a')
        /\ mMaxSize a' = mMaxSize a
        /\ mSize a' <= mMaxSize a'
        /\ well_formed a').
Proof.
  apply (PushBack_bounded (mkArray [5; 0; 0] 1 3) 6).
  unfold well_formed, size_t_modulus. simpl. lia.
Defined.

Lemma At_checked_witness :
  let a := mkArray [5; 6; 0] 2 3 in
  (mSize a <= 1 -> At a 1 = mkRet nullptr eOutOfRange)
  /\ (1 < mSize a ->
      At a 1 = mkRet (SlotPtr 1) eNone
      /\ exists x, load a 1 = Done x
                   /\ nth_error (elements a) (Z.to_nat 1) = Some x)
  /\ (forall slot, mValue (At a 1) = SlotPtr slot ->
                   mError (At a 1) = eNone /\ 0 <= slot < mSize a).
Proof.
  apply (At_checked (mkArray [5; 6; 0] 2 3) 1).
  - unfold well_formed, size_t_modulus. simpl. lia.
  - unfold size_t_modulus. simpl. lia.
Defined.

Section ArrayDefects.
Context {T : Type}.
Implicit Types (a : Array T) (value zeroed dflt : T).

(** C9.  On an empty array [PopBack] does not return [eNotFound]: the
    result built under [if (IsEmpty())] is dropped, and the next statement
    reads [mItems[mSize - 1]], the slot [2^64 - 1] of a buffer that has
    fewer slots. *)
Theorem PopBack_empty_reads_outside zeroed dflt a :
  well_formed a -> mSize a = 0 ->
  PopBack zeroed dflt a = OutOfBounds (size_t_modulus - 1).
Proof.
  intros (Hsize & Hbuf & Hmax) Hempty. unfold PopBack, load.
  rewrite Hempty.
  change (wrap_size (0 - 1)) with (size_t_modulus - 1).
  rewrite slot_read_outside by lia. reflexivity.
Qed.

(** Whatever the array, a result of [PopBack] carries [eNone]. *)
Lemma PopBack_reports_no_error zeroed dflt a r a' :
  PopBack zeroed dflt a = Done (r, a') -> mError r = eNone.
Proof.
  unfold PopBack, bind.
  destruct (load a (wrap_size (mSize a - 1))) as [x| |]; try discriminate.
  destruct (store _ _ _); try discriminate.
  intros H. injection H as <- _. reflexivity.
Qed.

(** On an array with items [PopBack] returns the last one and clears
    its slot. *)
Lemma PopBack_nonempty zeroed dflt a :
  well_formed a -> 0 < mSize a ->
  exists x a',
    PopBack zeroed dflt a = Done (mkRet x eNone, a')
    /\ nth_error (elements a) (Z.to_nat (mSize a - 1)) = Some x
    /\ mSize a' = mSize a - 1
    /\ elements a' = firstn (Z.to_nat (mSize a - 1)) (elements a).
Proof.
  intros (Hsize & Hbuf & Hmax) Hpos. unfold PopBack.
  rewrite wrap_size_small by lia.
  destruct (load_inside a (mSize a - 1)) as (x & Hload & Hnth); [lia|].
  rewrite Hload. cbn [bind]. unfold end_, SetSize. cbn [mItems mSize mMaxSize].
  rewrite store_inside by (cbn [mItems]; lia).
  cbn [bind mItems mSize mMaxSize].
  eexists. eexists. split; [reflexivity|].
  split; [apply elements_in_buffer; [lia|exact Hnth]|].
  split; [reflexivity|].
  unfold elements. cbn [mItems mSize].
  rewrite firstn_before_written by lia.
  rewrite firstn_firstn. f_equal. lia.
Qed.

Lemma slot_write_again (buf : list T) value : forall i buf',
  slot_write buf i value = Some buf' -> slot_write buf' i value = Some buf'.
Proof.
  induction buf as [|x rest IH]; intros i buf' H; simpl in H; [discriminate|].
  destruct (Z.eqb_spec i 0) as [->|Hne].
  - injection H as <-. reflexivity.
  - destruct (slot_write rest (i - 1) value) as [rest'|] eqn:Hrest; [|discriminate].
    injection H as <-. simpl.
    destruct (Z.eqb_spec i 0) as [|_]; [contradiction|].
    rewrite (IH _ _ Hrest). reflexivity.
Qed.

Lemma store_again a a1 i value :
  store a i value = Done a1 -> store a1 i value = Done a1 /\ mSize a1 = mSize a.
Proof.
  unfold store. destruct (slot_write (mItems a) i value) as [buf'|] eqn:Hw; [|discriminate].
  intros H. injection H as <-. cbn [mItems mSize mMaxSize].
  rewrite (slot_write_again _ _ _ _ Hw). split; reflexivity.
Qed.

(** The loop of [Resize] writes one slot, however many rounds it makes. *)
Lemma Resize_fill_one_slot value : forall n a a1,
  store a (mSize a) value = Done a1 -> Resize_fill (S n) a value = Done a1.
Proof.
  induction n as [|n IH]; intros a a1 Hstore.
  - simpl. unfold end_. rewrite Hstore. reflexivity.
  - change (Resize_fill (S (S n)) a value)
      with (a2 <- store a (end_ a) value ;; Resize_fill (S n) a2 value).
    unfold end_. rewrite Hstore. cbn [bind].
    destruct (store_again _ _ _ _ Hstore) as (Hagain & Hsame).
    apply IH. rewrite Hsame. exact Hagain.
Qed.

(** What [Resize] does to a larger size within the capacity: the size
    is the new one, and of the slots the array gains, the first one alone
    receives the value. *)
Lemma Resize_grow a size value :
  well_formed a -> mSize a < size <= mMaxSize a ->
  Resize a size value
  = Done (eNone,
          mkArray (firstn (Z.to_nat (mSize a)) (mItems a)
                     ++ value :: skipn (S (Z.to_nat (mSize a))) (mItems a))
                  size (mMaxSize a)).
Proof.
  intros (Hsize & Hbuf & Hmax) Hgrow. unfold Resize.
  replace (mMaxSize a <? size) with false by (symmetry; apply Z.ltb_ge; lia).
  replace (mSize a <? size) with true by (symmetry; apply Z.ltb_lt; lia).
  replace (Z.to_nat (size - mSize a)) with (S (Z.to_nat (size - mSize a - 1))) by lia.
  rewrite (Resize_fill_one_slot value _ a _ (store_inside a (mSize a) value ltac:(lia))).
  reflexivity.
Qed.

Lemma Resize_over_capacity a size value :
  mMaxSize a < size -> Resize a size value = Done (eNoMemory, a).
Proof.
  intros Hover. unfold Resize.
  rewrite (proj2 (Z.ltb_lt _ _) Hover). reflexivity.
Qed.

Lemma Resize_keeps_old_items a size value a' :
  well_formed a -> mSize a < size <= mMaxSize a ->
  Resize a size value = Done (eNone, a') ->
  mSize a' = size
  /\ firstn (Z.to_nat (mSize a)) (elements a') = elements a
  /\ nth_error (elements a') (Z.to_nat (mSize a)) = Some value.
Proof.
  intros Hwf Hgrow. rewrite Resize_grow by assumption.
  destruct Hwf as (Hsize & Hbuf & Hmax).
  intros H. injection H as <-. split; [reflexivity|].
  unfold elements. cbn [mItems mSize]. split.
  - rewrite firstn_firstn.
    replace (Nat.min (Z.to_nat (mSize a)) (Z.to_nat size)) with (Z.to_nat (mSize a)) by lia.
    apply firstn_before_written; lia.
  - rewrite nth_error_firstn.
    destruct (Nat.ltb_spec (Z.to_nat (mSize a)) (Z.to_nat size)); [|lia].
    rewrite nth_error_app2 by (rewrite length_firstn; lia).
    rewrite length_firstn.
    replace (Z.to_nat (mSize a) - Nat.min (Z.to_nat (mSize a)) (length (mItems a)))%nat
      with 0%nat by lia.
    reflexivity.
Qed.

End ArrayDefects.

Lemma PopBack_empty_reads_outside_witness :
  PopBack 0 0 (StaticArray [0; 0; 0]) = OutOfBounds (size_t_modulus - 1).
Proof.
  apply PopBack_empty_reads_outside.
  - unfold well_formed, size_t_modulus. simpl. lia.
  - reflexivity.
Defined.

(** C10.  [Resize] to a larger size fills one slot only.  An array of
    capacity 3 that held 5, 6, 7 and was cleared is resized to 3 with the
    value 9: the call returns [eNone] and the size is 3, but the items are
    9, 6, 7: the slots 1 and 2 keep what they held, because every round of
    the loop copies the value to [end()] and not to [it]. *)
Theorem Resize_leaves_stale_items :
  (r1 <- PushBack (StaticArray [0; 0; 0]) 5 ;;
   r2 <- PushBack (snd r1) 6 ;;
   r3 <- PushBack (snd r2) 7 ;;
   Resize (Clear (snd r3)) 3 9)
  = Done (eNone, mkArray [9; 6; 7] 3 3)
  /\ elements (mkArray [9; 6; 7] 3 3) <> [9; 9; 9].
Proof. split; [reflexivity|discriminate]. Qed.

(** ** [Find] and [CompareInstanceStatuses] *)

Lemma skipn_nth_error {A : Type} (l : list A) : forall n x,
  nth_error l n = Some x -> skipn n l = x :: skipn (S n) l.
Proof.
  induction l as [|y rest IH]; intros [|n] x H; simpl in *; try discriminate.
  - injection H as ->. reflexivity.
  - apply IH. exact H.
Qed.

Section FindFacts.
Context {T : Type} `{EqualOp T}.
Implicit Types (a : Array T) (item : T).

(** [Find] visits the slots from [it] on, [n] of them, and reports
    whether one of them equals the item. *)
Lemma Find_from_found a item : forall n it,
  0 <= it -> (Z.to_nat it + n <= length (mItems a))%nat ->
  exists r,
    Find_from a item n it = Done r
    /\ IsNone (mError r)
       = existsb (fun x => equal x item) (firstn n (skipn (Z.to_nat it) (mItems a))).
Proof.
  induction n as [|n IH]; intros it Hit Hlen.
  - simpl. eexists. split; reflexivity.
  - destruct (load_inside a it) as (x & Hload & Hnth); [lia|].
    cbn [Find_from]. rewrite Hload. cbn [bind].
    rewrite (skipn_nth_error _ _ _ Hnth). cbn [firstn existsb].
    destruct (equal x item).
    + eexists. split; reflexivity.
    + destruct (IH (it + 1)) as (r & Hr & Herr); [lia|lia|].
      exists r. split; [exact Hr|].
      rewrite Herr. replace (Z.to_nat (it + 1)) with (S (Z.to_nat it)) by lia.
      reflexivity.
Qed.

Lemma Find_found a item :
  well_formed a ->
  exists r,
    Find a item = Done r
    /\ IsNone (mError r) = existsb (fun x => equal x item) (elements a).
Proof.
  intros (Hsize & Hbuf & Hmax). unfold Find, begin_, elements.
  apply (Find_from_found a item (Z.to_nat (mSize a)) 0); simpl; lia.
Qed.

End FindFacts.

Lemma InstanceIdent_equal_eq (a b : InstanceIdent) : equal a b = true <-> a = b.
Proof.
  unfold equal, InstanceIdent_equal. destruct a as [s1 u1 i1], b as [s2 u2 i2]. simpl.
  rewrite !andb_true_iff, !String.eqb_eq, Z.eqb_eq.
  split.
  - intros [[-> ->] ->]. reflexivity.
  - intros E. injection E as -> -> ->. repeat split.
Qed.

Lemma InstanceIdent_eq_dec (a b : InstanceIdent) : {a = b} + {a <> b}.
Proof.
  destruct (equal a b) eqn:E.
  - left. apply InstanceIdent_equal_eq. exact E.
  - right. intros H. apply InstanceIdent_equal_eq in H. congruence.
Qed.

Lemma InstanceIdent_equal_refl (a : InstanceIdent) : equal a a = true.
Proof. apply InstanceIdent_equal_eq. reflexivity. Qed.

Lemma InstanceIdent_equal_sym (a b : InstanceIdent) : equal a b = equal b a.
Proof.
  destruct (equal a b) eqn:Hab, (equal b a) eqn:Hba; try reflexivity.
  - apply InstanceIdent_equal_eq in Hab. subst b.
    rewrite InstanceIdent_equal_refl in Hba. discriminate.
  - apply InstanceIdent_equal_eq in Hba. subst b.
    rewrite InstanceIdent_equal_refl in Hab. discriminate.
Qed.

Lemma InstanceIdent_equal_neq (a b : InstanceIdent) : equal a b = false <-> a <> b.
Proof.
  split.
  - intros Hf E. apply InstanceIdent_equal_eq in E. congruence.
  - intros Hne. destruct (equal a b) eqn:E; [|reflexivity].
    apply InstanceIdent_equal_eq in E. contradiction.
Qed.

(** Membership by [InstanceStatus::operator==]: some status of the list
    has the identity. *)
Lemma status_found_iff (statuses : list InstanceStatus) (instance : InstanceStatus) :
  existsb (fun x => equal x instance) statuses = true
  <-> exists y, In y statuses /\ isInstanceIdent y = isInstanceIdent instance.
Proof.
  rewrite existsb_exists. split.
  - intros (y & Hin & Heq). exists y. split; [exact Hin|].
    apply InstanceIdent_equal_eq. exact Heq.
  - intros (y & Hin & Heq). exists y. split; [exact Hin|].
    apply InstanceIdent_equal_eq. exact Heq.
Qed.

Lemma all_found_forallb (other status : Array InstanceStatus) :
  well_formed other ->
  forall n it,
    0 <= it -> (Z.to_nat it + n <= length (mItems status))%nat ->
    all_found other n status it
    = Done (forallb (fun instance => existsb (fun x => equal x instance) (elements other))
                    (firstn n (skipn (Z.to_nat it) (mItems status)))).
Proof.
  intros Hwf. induction n as [|n IH]; intros it Hit Hlen.
  - reflexivity.
  - destruct (load_inside status it) as (x & Hload & Hnth); [lia|].
    cbn [all_found]. rewrite Hload. cbn [bind].
    destruct (Find_found other x Hwf) as (r & Hr & Herr).
    rewrite Hr. cbn [bind]. rewrite Herr.
    rewrite (skipn_nth_error _ _ _ Hnth). cbn [firstn forallb].
    destruct (existsb (fun x0 => equal x0 x) (elements other)); cbn [negb andb].
    + rewrite IH by lia.
      replace (Z.to_nat (it + 1)) with (S (Z.to_nat it)) by lia. reflexivity.
    + reflexivity.
Qed.

(** The comparison as a boolean formula over the items of the two
    batches. *)
Lemma CompareInstanceStatuses_formula (status1 status2 : Array InstanceStatus) :
  well_formed status1 -> well_formed status2 ->
  CompareInstanceStatuses status1 status2
  = Done ((mSize status1 =? mSize status2)
          && forallb (fun instance =>
                        existsb (fun x => equal x instance) (elements status2))
                     (elements status1)
          && forallb (fun instance =>
                        existsb (fun x => equal x instance) (elements status1))
                     (elements status2)).
Proof.
  intros Hwf1 Hwf2. unfold CompareInstanceStatuses, Size, begin_.
  destruct (mSize status1 =? mSize status2); cbn [negb andb]; [|reflexivity].
  rewrite (all_found_forallb status2 status1 Hwf2)
    by (destruct Hwf1 as (? & ? & ?); simpl; lia).
  cbn [bind]. change (Z.to_nat 0) with 0%nat. cbn [skipn]. fold (elements status1).
  destruct (forallb _ (elements status1)); cbn [negb andb]; [|reflexivity].
  rewrite (all_found_forallb status1 status2 Hwf1)
    by (destruct Hwf2 as (? & ? & ?); simpl; lia).
  cbn [bind]. change (Z.to_nat 0) with 0%nat. cbn [skipn]. fold (elements status2).
  destruct (forallb _ (elements status2)); reflexivity.
Qed.

Lemma elements_length {T : Type} (a : Array T) :
  well_formed a -> Z.of_nat (length (elements a)) = mSize a.
Proof.
  intros (Hsize & Hbuf & Hmax). unfold elements. rewrite length_firstn. lia.
Qed.

(** What the boolean formula of the comparison says. *)
Lemma compare_formula_iff (status1 status2 : Array InstanceStatus) :
  well_formed status1 -> well_formed status2 ->
  (mSize status1 =? mSize status2)
  && forallb (fun instance => existsb (fun x => equal x instance) (elements status2))
             (elements status1)
  && forallb (fun instance => existsb (fun x => equal x instance) (elements status1))
             (elements status2) = true
  <-> (length (elements status1) = length (elements status2)
       /\ (forall x, In x (elements status1) ->
             exists y, In y (elements status2)
                       /\ isInstanceIdent y = isInstanceIdent x)
       /\ (forall y, In y (elements status2) ->
             exists x, In x (elements status1)
                       /\ isInstanceIdent x = isInstanceIdent y)).
Proof.
  intros Hwf1 Hwf2.
  pose proof (elements_length status1 Hwf1) as Hlen1.
  pose proof (elements_length status2 Hwf2) as Hlen2.
  rewrite !andb_true_iff, Z.eqb_eq, !forallb_forall.
  split.
  - intros [[Hsize H12] H21]. split; [lia|]. split.
    + intros x Hx. apply status_found_iff. apply H12. exact Hx.
    + intros y Hy. apply status_found_iff. apply H21. exact Hy.
  - intros (Hsize & H12 & H21). split; [split; [lia|]|].
    + intros x Hx. apply status_found_iff. apply H12. exact Hx.
    + intros y Hy. apply status_found_iff. apply H21. exact Hy.
Qed.

(** Batches of one length whose entries carry the same identities compare
    equal. *)
Lemma CompareInstanceStatuses_same_identities (status1 status2 : Array InstanceStatus) :
  well_formed status1 -> well_formed status2 ->
  length (elements status1) = length (elements status2) ->
  (forall ident, In ident (map isInstanceIdent (elements status1))
                 <-> In ident (map isInstanceIdent (elements status2))) ->
  CompareInstanceStatuses status1 status2 = Done true.
Proof.
  intros Hwf1 Hwf2 Hlen Hsame.
  rewrite CompareInstanceStatuses_formula by assumption. f_equal.
  apply compare_formula_iff; [assumption|assumption|].
  split; [exact Hlen|]. split.
  - intros x Hx.
    assert (Hin : In (isInstanceIdent x) (map isInstanceIdent (elements status2)))
      by (apply Hsame, in_map, Hx).
    apply in_map_iff in Hin. destruct Hin as (y & Heq & Hy). exists y. split; assumption.
  - intros y Hy.
    assert (Hin : In (isInstanceIdent y) (map isInstanceIdent (elements status1)))
      by (apply Hsame, in_map, Hy).
    apply in_map_iff in Hin. destruct Hin as (x & Heq & Hx). exists x. split; assumption.
Qed.

(** C7.  [CompareInstanceStatuses] answers [true] exactly when the two
    batches have the same number of entries and every entry of each has an
    entry of the other with its identity.  The order of the entries and
    their version, run state and error play no part: batches of one length
    whose entries carry the same identities compare equal. *)
Theorem CompareInstanceStatuses_by_identity (status1 status2 : Array InstanceStatus) :
  well_formed status1 -> well_formed status2 ->
  exists result,
    CompareInstanceStatuses status1 status2 = Done result
    /\ (result = true <->
        (length (elements status1) = length (elements status2)
         /\ (forall x, In x (elements status1) ->
               exists y, In y (elements status2)
                         /\ isInstanceIdent y = isInstanceIdent x)
         /\ (forall y, In y (elements status2) ->
               exists x, In x (elements status1)
                         /\ isInstanceIdent x = isInstanceIdent y)))
    /\ (length (elements status1) = length (elements status2) ->
        (forall ident, In ident (map isInstanceIdent (elements status1))
                       <-> In ident (map isInstanceIdent (elements status2))) ->
        result = true).
Proof.
  intros Hwf1 Hwf2.
  eexists. split; [apply CompareInstanceStatuses_formula; assumption|].
  split; [apply compare_formula_iff; assumption|].
  intros Hlen Hsame.
  pose proof (CompareInstanceStatuses_same_identities _ _ Hwf1 Hwf2 Hlen Hsame) as Htrue.
  rewrite CompareInstanceStatuses_formula in Htrue by assumption.
  injection Htrue as Htrue. exact Htrue.
Qed.

Lemma CompareInstanceStatuses_by_identity_witness :
  let status1 := ArrayOfVector [test_status 0 1; test_status 1 1] in
  let status2 :=
    ArrayOfVector [failed (mkInstanceIdent "service1" "subject1" 1) 2 eNotFound;
                   test_status 0 2] in
  exists result,
    CompareInstanceStatuses status1 status2 = Done result
    /\ (result = true <->
        (length (elements status1) = length (elements status2)
         /\ (forall x, In x (elements status1) ->
               exists y, In y (elements status2)
                         /\ isInstanceIdent y = isInstanceIdent x)
         /\ (forall y, In y (elements status2) ->
               exists x, In x (elements status1)
                         /\ isInstanceIdent x = isInstanceIdent y)))
    /\ (length (elements status1) = length (elements status2) ->
        (forall ident, In ident (map isInstanceIdent (elements status1))
                       <-> In ident (map isInstanceIdent (elements status2))) ->
        result = true).
Proof.
  apply (CompareInstanceStatuses_by_identity
           (ArrayOfVector [test_status 0 1; test_status 1 1])
           (ArrayOfVector [failed (mkInstanceIdent "service1" "subject1" 1) 2 eNotFound;
                           test_status 0 2])).
  - unfold well_formed, size_t_modulus. simpl. lia.
  - unfold well_formed, size_t_modulus. simpl. lia.
Defined.


(** ** [MockStorage] *)

Section VectorFacts.
Context {A : Type}.
Implicit Types (pred : A -> bool) (v : list A).

Lemma find_if_end pred v :
  find_if pred v = None <-> (forall x, In x v -> pred x = false).
Proof.
  induction v as [|y rest IH]; simpl.
  - split; [intros _ x []|reflexivity].
  - destruct (pred y) eqn:Hy.
    + split; [discriminate|]. intros Hall.
      rewrite (Hall y (or_introl eq_refl)) in Hy. discriminate.
    + destruct (find_if pred rest) as [n|]; simpl.
      * split; [discriminate|]. intros Hall.
        assert (Hnone : Some n = None)
          by (apply IH; intros x Hx; apply Hall; right; exact Hx).
        discriminate Hnone.
      * split; [|reflexivity]. intros _ x [<-|Hx]; [exact Hy|].
        apply (proj1 IH eq_refl). exact Hx.
Qed.

(** The iterator [find_if] returns splits the vector at the first item
    that satisfies the predicate; [erase] and the assignment through the
    iterator act on that item. *)
Lemma find_if_at pred v : forall it,
  find_if pred v = Some it ->
  exists before x after,
    v = before ++ x :: after
    /\ pred x = true
    /\ (forall y, In y before -> pred y = false)
    /\ erase v it = before ++ after
    /\ (forall value, assign v it value = before ++ value :: after)
    /\ nth it v x = x.
Proof.
  induction v as [|y rest IH]; intros it Hfind; simpl in Hfind; [discriminate|].
  destruct (pred y) eqn:Hy.
  - injection Hfind as <-. exists [], y, rest. simpl.
    repeat split; try reflexivity; try assumption. intros z [].
  - destruct (find_if pred rest) as [n|] eqn:Hrest; [|discriminate].
    injection Hfind as <-.
    destruct (IH n eq_refl) as (before & x & after & -> & Hx & Hbefore & Herase & Hassign & Hnth).
    exists (y :: before), x, after. simpl.
    split; [reflexivity|]. split; [exact Hx|].
    split; [intros z [<-|Hz]; [exact Hy|apply Hbefore; exact Hz]|].
    split; [rewrite Herase; reflexivity|].
    split; [intros value; rewrite Hassign; reflexivity|exact Hnth].
Qed.

End VectorFacts.

Section StorageFacts.
Implicit Types (st : MockStorage) (instance : InstanceInfo) (ident : InstanceIdent).

Lemma storage_find_absent st ident :
  ~ In ident (map mInstanceIdent st) ->
  find_if (fun info => equal ident (mInstanceIdent info)) st = None
  /\ find_if (fun info => equal (mInstanceIdent info) ident) st = None.
Proof.
  intros Habsent. split; apply find_if_end; intros x Hx;
    apply InstanceIdent_equal_neq; intros E; apply Habsent;
    apply in_map_iff; exists x; split; congruence.
Qed.

Lemma storage_find_present st ident :
  In ident (map mInstanceIdent st) ->
  (exists it, find_if (fun info => equal ident (mInstanceIdent info)) st = Some it)
  /\ (exists it, find_if (fun info => equal (mInstanceIdent info) ident) st = Some it).
Proof.
  intros Hin. apply in_map_iff in Hin. destruct Hin as (x & Heq & Hx).
  split.
  - destruct (find_if (fun info => equal ident (mInstanceIdent info)) st) as [it|] eqn:Hf;
      [exists it; reflexivity|].
    rewrite find_if_end in Hf. specialize (Hf x Hx). cbv beta in Hf.
    rewrite Heq, InstanceIdent_equal_refl in Hf. discriminate.
  - destruct (find_if (fun info => equal (mInstanceIdent info) ident) st) as [it|] eqn:Hf;
      [exists it; reflexivity|].
    rewrite find_if_end in Hf. specialize (Hf x Hx). cbv beta in Hf.
    rewrite Heq, InstanceIdent_equal_refl in Hf. discriminate.
Qed.

Lemma AddInstance_present st instance :
  In (mInstanceIdent instance) (map mInstanceIdent st) ->
  AddInstance instance st = (eAlreadyExist, st).
Proof.
  intros Hin. unfold AddInstance.
  destruct (proj1 (storage_find_present st _ Hin)) as (it & ->). reflexivity.
Qed.

Lemma AddInstance_absent st instance :
  ~ In (mInstanceIdent instance) (map mInstanceIdent st) ->
  AddInstance instance st = (eNone, st ++ [instance]).
Proof.
  intros Habsent. unfold AddInstance.
  rewrite (proj1 (storage_find_absent st _ Habsent)). reflexivity.
Qed.

Lemma UpdateInstance_absent st instance :
  ~ In (mInstanceIdent instance) (map mInstanceIdent st) ->
  UpdateInstance instance st = (eNotFound, st).
Proof.
  intros Habsent. unfold UpdateInstance.
  rewrite (proj1 (storage_find_absent st _ Habsent)). reflexivity.
Qed.

Lemma UpdateInstance_present st instance :
  In (mInstanceIdent instance) (map mInstanceIdent st) ->
  exists before record after,
    st = before ++ record :: after
    /\ mInstanceIdent record = mInstanceIdent instance
    /\ UpdateInstance instance st = (eNone, before ++ instance :: after).
Proof.
  intros Hin. unfold UpdateInstance.
  destruct (proj1 (storage_find_present st _ Hin)) as (it & Hfind). rewrite Hfind.
  destruct (find_if_at _ _ _ Hfind)
    as (before & x & after & Hst & Hx & _ & _ & Hassign & _).
  exists before, x, after. split; [exact Hst|].
  split; [symmetry; apply InstanceIdent_equal_eq; exact Hx|].
  rewrite Hassign. reflexivity.
Qed.

Lemma RemoveInstance_absent st ident :
  ~ In ident (map mInstanceIdent st) ->
  RemoveInstance ident st = (eNotFound, st).
Proof.
  intros Habsent. unfold RemoveInstance.
  rewrite (proj2 (storage_find_absent st _ Habsent)). reflexivity.
Qed.

Lemma RemoveInstance_present st ident :
  In ident (map mInstanceIdent st) ->
  exists before record after,
    st = before ++ record :: after
    /\ mInstanceIdent record = ident
    /\ ~ In ident (map mInstanceIdent before)
    /\ RemoveInstance ident st = (eNone, before ++ after).
Proof.
  intros Hin. unfold RemoveInstance.
  destruct (proj2 (storage_find_present st _ Hin)) as (it & Hfind). rewrite Hfind.
  destruct (find_if_at _ _ _ Hfind)
    as (before & x & after & Hst & Hx & Hbefore & Herase & _ & _).
  exists before, x, after. split; [exact Hst|].
  split; [apply InstanceIdent_equal_eq; exact Hx|].
  split; [|rewrite Herase; reflexivity].
  intros Hb. apply in_map_iff in Hb. destruct Hb as (y & Hy & Hyin).
  specialize (Hbefore y Hyin). cbv beta in Hbefore.
  rewrite Hy, InstanceIdent_equal_refl in Hbefore. discriminate.
Qed.

(** Every call keeps the identities of the records pairwise distinct. *)
Lemma storage_step_NoDup call st :
  NoDup (map mInstanceIdent st) ->
  NoDup (map mInstanceIdent (snd (storage_step call st))).
Proof.
  intros Hnd. destruct call as [instance|instance|ident]; simpl.
  - destruct (in_dec InstanceIdent_eq_dec (mInstanceIdent instance) (map mInstanceIdent st)) as [Hin|Hout].
    + rewrite AddInstance_present by exact Hin. exact Hnd.
    + rewrite AddInstance_absent by exact Hout. simpl.
      rewrite map_app. simpl.
      apply NoDup_app; [exact Hnd|constructor; [intros []|constructor]|].
      intros x Hx [<-|[]]. contradiction.
  - destruct (in_dec InstanceIdent_eq_dec (mInstanceIdent instance) (map mInstanceIdent st)) as [Hin|Hout].
    + destruct (UpdateInstance_present st instance Hin)
        as (before & record & after & -> & Hsame & ->). simpl.
      rewrite map_app in *. simpl in *. rewrite <- Hsame. exact Hnd.
    + rewrite UpdateInstance_absent by exact Hout. exact Hnd.
  - destruct (in_dec InstanceIdent_eq_dec ident (map mInstanceIdent st)) as [Hin|Hout].
    + destruct (RemoveInstance_present st ident Hin)
        as (before & record & after & -> & Hsame & _ & ->). simpl.
      rewrite map_app in *. simpl in Hnd.
      apply NoDup_remove_1 in Hnd. exact Hnd.
    + rewrite RemoveInstance_absent by exact Hout. exact Hnd.
Qed.

Lemma storage_reachable_NoDup st :
  storage_reachable st -> NoDup (map mInstanceIdent st).
Proof.
  induction 1 as [|call st _ IH]; [constructor|].
  apply storage_step_NoDup. exact IH.
Qed.

End StorageFacts.

(** C1.  In every state the storage reaches from the empty one, no two
    records have the same identity.  [AddInstance] of an identity that has a
    record returns [eAlreadyExist], [UpdateInstance] and [RemoveInstance] of
    an identity that has none return [eNotFound], and the three leave the
    records as they are.  [AddInstance] of an identity without a record
    returns [eNone] and adds the given record, at the end and nothing else;
    [RemoveInstance] of an identity with a record returns [eNone] and
    removes that record and nothing else, after which the identity has no
    record. *)
Theorem MockStorage_one_record_per_identity (st : MockStorage) :
  storage_reachable st ->
  NoDup (map mInstanceIdent st)
  /\ (forall instance,
        In (mInstanceIdent instance) (map mInstanceIdent st) ->
        AddInstance instance st = (eAlreadyExist, st))
  /\ (forall instance,
        ~ In (mInstanceIdent instance) (map mInstanceIdent st) ->
        UpdateInstance instance st = (eNotFound, st))
  /\ (forall ident,
        ~ In ident (map mInstanceIdent st) ->
        RemoveInstance ident st = (eNotFound, st))
  /\ (forall instance,
        ~ In (mInstanceIdent instance) (map mInstanceIdent st) ->
        AddInstance instance st = (eNone, st ++ [instance]))
  /\ (forall ident,
        In ident (map mInstanceIdent st) ->
        exists before record after,
          st = before ++ record :: after
          /\ mInstanceIdent record = ident
          /\ RemoveInstance ident st = (eNone, before ++ after)
          /\ ~ In ident (map mInstanceIdent (before ++ after))).
Proof.
  intros Hreach. pose proof (storage_reachable_NoDup st Hreach) as Hnd.
  split; [exact Hnd|].
  split; [intros instance; apply AddInstance_present|].
  split; [intros instance; apply UpdateInstance_absent|].
  split; [intros ident; apply RemoveInstance_absent|].
  split; [intros instance; apply AddInstance_absent|].
  intros ident Hin.
  destruct (RemoveInstance_present st ident Hin)
    as (before & record & after & Hst & Hsame & _ & Hremove).
  exists before, record, after.
  split; [exact Hst|]. split; [exact Hsame|]. split; [exact Hremove|].
  subst st. rewrite map_app in Hnd. simpl in Hnd. rewrite Hsame in Hnd.
  rewrite map_app. apply NoDup_remove_2 in Hnd. exact Hnd.
Qed.

Lemma MockStorage_one_record_per_identity_witness :
  let st := [test_instance 0; test_instance 1] in
  NoDup (map mInstanceIdent st)
  /\ (forall instance,
        In (mInstanceIdent instance) (map mInstanceIdent st) ->
        AddInstance instance st = (eAlreadyExist, st))
  /\ (forall instance,
        ~ In (mInstanceIdent instance) (map mInstanceIdent st) ->
        UpdateInstance instance st = (eNotFound, st))
  /\ (forall ident,
        ~ In ident (map mInstanceIdent st) ->
        RemoveInstance ident st = (eNotFound, st))
  /\ (forall instance,
        ~ In (mInstanceIdent instance) (map mInstanceIdent st) ->
        AddInstance instance st = (eNone, st ++ [instance]))
  /\ (forall ident,
        In ident (map mInstanceIdent st) ->
        exists before record after,
          st = before ++ record :: after
          /\ mInstanceIdent record = ident
          /\ RemoveInstance ident st = (eNone, before ++ after)
          /\ ~ In ident (map mInstanceIdent (before ++ after))).
Proof.
  apply (MockStorage_one_record_per_identity [test_instance 0; test_instance 1]).
  apply (storage_after (CallAdd (test_instance 1)) [test_instance 0]).
  apply (storage_after (CallAdd (test_instance 0)) []).
  apply storage_initial.
Defined.

(** ** [Time::Add] *)

Lemma wrap_int64_small z : in_int64 z -> wrap_int64 z = z.
Proof.
  unfold in_int64, int64_min, int64_max, wrap_int64. intros Hz.
  rewrite Z.mod_small by lia. lia.
Qed.

Lemma wrap_int64_add_l a b : wrap_int64 (wrap_int64 a + b) = wrap_int64 (a + b).
Proof.
  unfold wrap_int64.
  replace ((a + 2 ^ 63) mod 2 ^ 64 - 2 ^ 63 + b + 2 ^ 63)
    with ((a + 2 ^ 63) mod 2 ^ 64 + b) by lia.
  rewrite Zplus_mod_idemp_l. f_equal. f_equal. lia.
Qed.

(** Truncated and floored division by a second. *)
Lemma quot_rem_floor n :
  let q := Z.quot n 1000000000 in
  let r := Z.rem n 1000000000 in
  n = 1000000000 * q + r
  /\ (r < 0 -> -1000000000 < r /\ n / 1000000000 = q - 1)
  /\ (0 <= r -> r < 1000000000 /\ n / 1000000000 = q).
Proof.
  intros q r. subst q r.
  pose proof (Z.quot_rem' n 1000000000) as Hqr.
  split; [exact Hqr|].
  destruct (Z.le_gt_cases 0 n) as [Hn|Hn].
  - pose proof (Z.rem_bound_pos n 1000000000 Hn ltac:(lia)) as Hr.
    split; [lia|]. intros _. split; [lia|].
    symmetry. apply (Z.div_unique n 1000000000 _ (Z.rem n 1000000000)); [lia|exact Hqr].
  - pose proof (Z.rem_bound_pos_neg n 1000000000 ltac:(lia) ltac:(lia)) as Hr.
    split.
    + intros Hneg. split; [lia|].
      symmetry. apply (Z.div_unique n 1000000000 _ (Z.rem n 1000000000 + 1000000000)); lia.
    + intros Hpos. split; [lia|].
      symmetry. apply (Z.div_unique n 1000000000 _ (Z.rem n 1000000000)); [lia|exact Hqr].
Qed.

(** C8, as the code has it.  For a [Time] whose nanoseconds are in
    [[0, 10^9)] and a duration [d] such that the sum [tv_nsec + d] and the
    seconds of the result, [tv_sec + floor ((tv_nsec + d) / 10^9)], fit in a
    signed 64-bit integer, [Add] returns a [Time] whose nanoseconds are again
    in [[0, 10^9)] and whose instant is the original one plus [d]. *)
Theorem Add_exact_without_overflow (t : Time) (d : Duration) :
  0 <= tv_nsec t < 10 ^ 9 ->
  in_int64 (tv_nsec t + d) ->
  in_int64 (tv_sec t + (tv_nsec t + d) / 10 ^ 9) ->
  0 <= tv_nsec (Add t d) < 10 ^ 9
  /\ total_nanoseconds (Add t d) = total_nanoseconds t + d.
Proof.
  change (10 ^ 9) with 1000000000. intros Hnsec Hsum Hsec.
  unfold Add, total_nanoseconds. change (10 ^ 9) with 1000000000.
  change Seconds with 1000000000.
  rewrite (wrap_int64_small _ Hsum).
  destruct (quot_rem_floor (tv_nsec t + d)) as (Hqr & Hneg & Hpos).
  cbv zeta in Hqr, Hneg, Hpos.
  destruct (Z.ltb_spec (Z.rem (tv_nsec t + d) 1000000000) 0) as [Hr|Hr].
  - destruct (Hneg Hr) as (Hlow & Hdiv). rewrite Hdiv in Hsec.
    cbn [tv_sec tv_nsec].
    replace (wrap_int64 (tv_sec t + Z.quot (tv_nsec t + d) 1000000000) - 1)
      with (wrap_int64 (tv_sec t + Z.quot (tv_nsec t + d) 1000000000) + -1) by lia.
    rewrite wrap_int64_add_l.
    rewrite (wrap_int64_small (tv_sec t + Z.quot (tv_nsec t + d) 1000000000 + -1))
      by (unfold in_int64 in *; lia).
    rewrite (wrap_int64_small (Z.rem (tv_nsec t + d) 1000000000 + 1000000000))
      by (unfold in_int64, int64_min, int64_max; lia).
    lia.
  - destruct (Hpos Hr) as (Hhigh & Hdiv). rewrite Hdiv in Hsec.
    cbn [tv_sec tv_nsec].
    rewrite (wrap_int64_small _ Hsec). lia.
Qed.

Lemma Add_exact_without_overflow_witness :
  0 <= tv_nsec (Add (Unix 5 100) (-200)) < 10 ^ 9
  /\ total_nanoseconds (Add (Unix 5 100) (-200))
     = total_nanoseconds (Unix 5 100) + (-200).
Proof.
  apply (Add_exact_without_overflow (Unix 5 100) (-200)).
  - simpl. lia.
  - unfold in_int64, int64_min, int64_max. simpl. lia.
  - unfold in_int64, int64_min, int64_max. vm_compute. split; discriminate.
Defined.

(** C8, as stated, fails where the sum [tv_nsec + d] leaves the signed
    64-bit range: one nanosecond short of a second, plus the largest
    duration. *)
Lemma Add_overflow_counterexample :
  ~ (forall (t : Time) (d : Duration),
       in_int64 (tv_sec t) -> 0 <= tv_nsec t < 10 ^ 9 -> in_int64 d ->
       0 <= tv_nsec (Add t d) < 10 ^ 9
       /\ total_nanoseconds (Add t d) = total_nanoseconds t + d).
Proof.
  intros Hclaim.
  destruct (Hclaim (Unix 0 999999999) int64_max) as (_ & Htotal).
  - vm_compute. split; discriminate.
  - vm_compute. split; [discriminate|reflexivity].
  - vm_compute. split; discriminate.
  - vm_compute in Htotal. discriminate Htotal.
Qed.

(** ** The launcher *)

Lemma GetAllInstances_fits (st : MockStorage) : forall instances,
  well_formed instances ->
  mSize instances + Z.of_nat (length st) <= mMaxSize instances ->
  exists instances',
    GetAllInstances st instances = Done (eNone, instances')
    /\ well_formed instances'
    /\ elements instances' = elements instances ++ st.
Proof.
  induction st as [|instance rest IH]; intros instances Hwf Hfits.
  - exists instances. rewrite app_nil_r. repeat split; try apply Hwf.
  - cbn [GetAllInstances length] in *.
    assert (Hroom : mSize instances < mMaxSize instances) by lia.
    rewrite PushBack_room by assumption. cbn [bind fst snd IsNone negb].
    destruct (IH (pushed instances instance)) as (instances' & Hget & Hwf' & Helems).
    + apply pushed_well_formed; assumption.
    + unfold pushed. cbn [mSize mMaxSize]. lia.
    + exists instances'. split; [exact Hget|]. split; [exact Hwf'|].
      rewrite Helems, pushed_elements by assumption.
      rewrite <- app_assoc. reflexivity.
Qed.

(** [GetAllInstances] when the records do not fit. *)
Lemma GetAllInstances_overflows (st : MockStorage) : forall instances,
  well_formed instances ->
  mMaxSize instances - mSize instances < Z.of_nat (length st) ->
  exists instances',
    GetAllInstances st instances = Done (eNoMemory, instances')
    /\ mSize instances' = mMaxSize instances
    /\ mMaxSize instances' = mMaxSize instances
    /\ elements instances'
       = elements instances
         ++ firstn (Z.to_nat (mMaxSize instances - mSize instances)) st.
Proof.
  induction st as [|instance rest IH]; intros instances Hwf Hover.
  - cbn [length] in Hover. destruct Hwf; lia.
  - cbn [GetAllInstances].
    destruct (Z.eq_dec (mSize instances) (mMaxSize instances)) as [Hfull|Hne].
    + rewrite PushBack_full by exact Hfull. cbn [bind fst snd IsNone negb].
      exists instances. split; [reflexivity|]. split; [exact Hfull|].
      split; [reflexivity|].
      replace (Z.to_nat (mMaxSize instances - mSize instances)) with 0%nat by lia.
      cbn [firstn]. rewrite app_nil_r. reflexivity.
    + assert (Hroom : mSize instances < mMaxSize instances) by (destruct Hwf; lia).
      rewrite PushBack_room by assumption. cbn [bind fst snd IsNone negb].
      destruct (IH (pushed instances instance)) as (instances' & Hget & Hs & Hm & Hels).
      * apply pushed_well_formed; assumption.
      * unfold pushed. cbn [mSize mMaxSize]. cbn [length] in Hover. lia.
      * exists instances'. split; [exact Hget|].
        unfold pushed in Hs, Hm. cbn [mSize mMaxSize] in Hs, Hm.
        split; [exact Hs|]. split; [exact Hm|].
        rewrite Hels, pushed_elements by assumption.
        unfold pushed. cbn [mSize mMaxSize].
        replace (Z.to_nat (mMaxSize instances - mSize instances))
          with (S (Z.to_nat (mMaxSize instances - (mSize instances + 1)))) by lia.
        cbn [firstn]. rewrite <- app_assoc. reflexivity.
Qed.


Lemma ArrayOfVector_elements {T : Type} (v : list T) : elements (ArrayOfVector v) = v.
Proof.
  unfold elements, ArrayOfVector, ArrayFromC. cbn [mItems mSize].
  rewrite Nat2Z.id. apply firstn_all.
Qed.

Lemma has_duplicate_NoDup (idents : list InstanceIdent) :
  has_duplicate idents = false <-> NoDup idents.
Proof.
  induction idents as [|ident rest IH]; simpl.
  - split; [constructor|reflexivity].
  - rewrite orb_false_iff, IH. split.
    + intros [Hex Hnd]. constructor; [|exact Hnd].
      intros Hin.
      assert (Htrue : existsb (equal ident) rest = true).
      { apply existsb_exists. exists ident. split; [exact Hin|apply InstanceIdent_equal_refl]. }
      congruence.
    + intros Hnd. inversion Hnd as [|? ? Hnotin Hnd']; subst. split; [|exact Hnd'].
      destruct (existsb (equal ident) rest) eqn:Hex; [|reflexivity].
      apply existsb_exists in Hex. destruct Hex as (x & Hx & Heq).
      apply InstanceIdent_equal_eq in Heq. subst x. contradiction.
Qed.

(** [upsert] does not fail, keeps the identities distinct and adds at
    most the identity of its record. *)
Lemma upsert_stores (instance : InstanceInfo) (st : MockStorage) :
  fst (upsert instance st) = eNone
  /\ ((In (mInstanceIdent instance) (map mInstanceIdent st)
       /\ map mInstanceIdent (snd (upsert instance st)) = map mInstanceIdent st)
      \/ (~ In (mInstanceIdent instance) (map mInstanceIdent st)
          /\ snd (upsert instance st) = st ++ [instance])).
Proof.
  unfold upsert.
  destruct (in_dec InstanceIdent_eq_dec (mInstanceIdent instance) (map mInstanceIdent st))
    as [Hin|Hout].
  - destruct (UpdateInstance_present st instance Hin)
      as (before & record & after & Hst & Hsame & Hupdate).
    rewrite Hupdate. cbn [fst snd]. split; [reflexivity|]. left. split; [exact Hin|].
    rewrite Hst, !map_app. cbn [map]. rewrite Hsame. reflexivity.
  - rewrite UpdateInstance_absent by exact Hout. cbn [fst].
    rewrite AddInstance_absent by exact Hout. cbn [fst snd].
    split; [reflexivity|]. right. split; [exact Hout|reflexivity].
Qed.

Section LauncherFacts.
Variable cMaxNumInstances : nat.
Variable instanceID : InstanceIdent -> string.
Variable runtimeDir : InstanceIdent -> Z -> string.

Implicit Types (l : Launcher) (instance : InstanceInfo).

Lemma loadInstances_loads l :
  Z.of_nat cMaxNumInstances < size_t_modulus ->
  (length (mStorage l) <= cMaxNumInstances)%nat ->
  exists loaded,
    loadInstances cMaxNumInstances l = Done (eNone, loaded) /\ elements loaded = mStorage l.
Proof.
  intros Hcap Hfits. unfold loadInstances.
  destruct (GetAllInstances_fits (mStorage l)
              (StaticArray (repeat InstanceInfo_default cMaxNumInstances)))
    as (loaded & Hget & _ & Helems).
  - unfold well_formed, StaticArray. cbn [mItems mSize mMaxSize].
    rewrite repeat_length. lia.
  - unfold StaticArray. cbn [mSize mMaxSize]. rewrite repeat_length. lia.
  - exists loaded. split; [exact Hget|]. exact Helems.
Qed.

(** With the mocks the preparation of a runtime directory succeeds. *)
Lemma Prepare_succeeds service instance :
  mError (Prepare runtimeDir service instance) = eNone.
Proof. reflexivity. Qed.

(** One start: the status carries the identity of the instance; it is
    [Active], with the version of the resolved service and the record
    stored, when the service is installed, and [Failed], with the storage
    untouched, when it is not. *)
Lemma startInstance_result instance l :
  let service := GetService (mServiceManager l) (mServiceID (mInstanceIdent instance)) in
  let started := startInstance instanceID runtimeDir instance l in
  mServiceManager (snd started) = mServiceManager l
  /\ mStatusReceiver (snd started) = mStatusReceiver l
  /\ (if IsNone (mError service)
      then fst started
           = mkInstanceStatus (mInstanceIdent instance)
               (mVersionID (sdVersionInfo (mValue service))) eActive eNone
           /\ mStorage (snd started) = snd (upsert instance (mStorage l))
      else fst started = failed (mInstanceIdent instance) 0 (mError service)
           /\ mStorage (snd started) = mStorage l).
Proof.
  intros service started. subst service started.
  unfold startInstance.
  destruct (IsNone (mError (GetService (mServiceManager l)
                              (mServiceID (mInstanceIdent instance))))) eqn:Hres;
    cbn [negb].
  - rewrite Prepare_succeeds. cbn [IsNone negb].
    unfold StartInstance, RunStatus_default. cbn [rsState rsError IsNone].
    destruct (upsert_stores instance (mStorage l)) as (Hok & _).
    rewrite Hok. cbn [IsNone negb fst snd mServiceManager mStatusReceiver mStorage].
    repeat split.
  - cbn [fst snd mServiceManager mStatusReceiver mStorage]. repeat split.
Qed.

(** One start and the storage: identities are kept, at most the one of the
    instance is added, they stay distinct, and an instance reported
    [Active] has its record. *)
Lemma startInstance_storage instance l :
  let started := startInstance instanceID runtimeDir instance l in
  isInstanceIdent (fst started) = mInstanceIdent instance
  /\ incl (map mInstanceIdent (mStorage l)) (map mInstanceIdent (mStorage (snd started)))
  /\ incl (map mInstanceIdent (mStorage (snd started)))
          (map mInstanceIdent (mStorage l) ++ [mInstanceIdent instance])
  /\ (NoDup (map mInstanceIdent (mStorage l)) ->
      NoDup (map mInstanceIdent (mStorage (snd started))))
  /\ (isRunState (fst started) = eActive ->
      In (mInstanceIdent instance) (map mInstanceIdent (mStorage (snd started)))).
Proof.
  intros started. subst started.
  destruct (startInstance_result instance l) as (_ & _ & Hcases).
  destruct (IsNone (mError (GetService (mServiceManager l)
                              (mServiceID (mInstanceIdent instance))))).
  - destruct Hcases as (-> & ->). cbn [isInstanceIdent isRunState].
    destruct (upsert_stores instance (mStorage l)) as (_ & [(Hin & Hsame)|(Hout & Hadded)]).
    + rewrite Hsame. split; [reflexivity|].
      split; [apply incl_refl|]. split; [apply incl_appl, incl_refl|].
      split; [trivial|]. intros _. exact Hin.
    + rewrite Hadded, map_app. cbn [map]. split; [reflexivity|].
      split; [apply incl_appl, incl_refl|]. split; [apply incl_refl|].
      split.
      * intros Hnd. apply NoDup_app; [exact Hnd|constructor; [intros []|constructor]|].
        intros x Hx [<-|[]]. contradiction.
      * intros _. apply in_or_app. right. left. reflexivity.
  - destruct Hcases as (-> & ->). cbn [isInstanceIdent isRunState failed].
    split; [reflexivity|]. split; [apply incl_refl|].
    split; [apply incl_appl, incl_refl|]. split; [trivial|]. discriminate.
Qed.

Lemma startInstances_storage : forall toStart l,
  let started := startInstances instanceID runtimeDir toStart l in
  map isInstanceIdent (fst started) = map mInstanceIdent toStart
  /\ mServiceManager (snd started) = mServiceManager l
  /\ mStatusReceiver (snd started) = mStatusReceiver l
  /\ incl (map mInstanceIdent (mStorage l)) (map mInstanceIdent (mStorage (snd started)))
  /\ incl (map mInstanceIdent (mStorage (snd started)))
          (map mInstanceIdent (mStorage l) ++ map mInstanceIdent toStart)
  /\ (NoDup (map mInstanceIdent (mStorage l)) ->
      NoDup (map mInstanceIdent (mStorage (snd started))))
  /\ (forall status,
        In status (fst started) -> isRunState status = eActive ->
        In (isInstanceIdent status) (map mInstanceIdent (mStorage (snd started)))).
Proof.
  induction toStart as [|instance rest IH]; intros l started; subst started.
  - cbn [startInstances fst snd map]. rewrite app_nil_r.
    repeat split; try apply incl_refl; try trivial. intros status [].
  - cbn [startInstances fst snd map].
    destruct (startInstance_result instance l) as (Hsm & Hrecv & _).
    destruct (startInstance_storage instance l) as (Hident & Hkeep & Hadd & Hnd & Hactive).
    destruct (IH (snd (startInstance instanceID runtimeDir instance l)))
      as (Hidents & Hsm' & Hrecv' & Hkeep' & Hadd' & Hnd' & Hactive').
    split; [rewrite Hident, Hidents; reflexivity|].
    split; [rewrite Hsm', Hsm; reflexivity|].
    split; [rewrite Hrecv', Hrecv; reflexivity|].
    split; [eapply incl_tran; eassumption|].
    split.
    + intros x Hx. apply Hadd' in Hx. apply in_app_or in Hx. destruct Hx as [Hx|Hx].
      * apply Hadd in Hx. apply in_app_or in Hx. destruct Hx as [Hx|[<-|[]]].
        -- apply in_or_app. left. exact Hx.
        -- apply in_or_app. right. left. reflexivity.
      * apply in_or_app. right. right. exact Hx.
    + split; [intros H0; apply Hnd', Hnd, H0|].
      intros status [<-|Hin] Hstate.
      * rewrite Hident. apply Hkeep', Hactive, Hstate.
      * apply Hactive'; assumption.
Qed.

(** Starts of instances whose service is installed, none of which has a
    record yet: every one is reported [Active] with the version of its
    service, and the records are added in their order. *)
Lemma startInstances_installed version : forall toStart l,
  (forall instance, In instance toStart ->
     let service := GetService (mServiceManager l) (mServiceID (mInstanceIdent instance)) in
     IsNone (mError service) = true
     /\ mVersionID (sdVersionInfo (mValue service)) = version) ->
  NoDup (map mInstanceIdent (mStorage l) ++ map mInstanceIdent toStart) ->
  let started := startInstances instanceID runtimeDir toStart l in
  fst started
  = map (fun instance => mkInstanceStatus (mInstanceIdent instance) version eActive eNone)
        toStart
  /\ mStorage (snd started) = mStorage l ++ toStart.
Proof.
  induction toStart as [|instance rest IH]; intros l Hinstalled Hnd started; subst started.
  - cbn [startInstances fst snd map]. rewrite app_nil_r. split; reflexivity.
  - cbn [startInstances fst snd map].
    destruct (startInstance_result instance l) as (Hsm & _ & Hcases).
    destruct (Hinstalled instance (or_introl eq_refl)) as (Hresolved & Hversion).
    cbv zeta in Hresolved, Hversion.
    rewrite Hresolved, Hversion in Hcases. destruct Hcases as (Hstatus & Hstorage).
    cbn [map] in Hnd.
    assert (Hout : ~ In (mInstanceIdent instance) (map mInstanceIdent (mStorage l))).
    { intros Hin. apply NoDup_remove_2 in Hnd. apply Hnd. apply in_or_app. left. exact Hin. }
    destruct (upsert_stores instance (mStorage l)) as (_ & [(Hin & _)|(_ & Hadded)]);
      [contradiction|].
    rewrite Hadded in Hstorage.
    destruct (IH (snd (startInstance instanceID runtimeDir instance l)))
      as (Hstatuses & Hstored).
    + intros other Hother. rewrite Hsm. apply Hinstalled. right. exact Hother.
    + rewrite Hstorage, map_app. cbn [map]. rewrite <- app_assoc. exact Hnd.
    + rewrite Hstatus, Hstatuses, Hstored, Hstorage, <- app_assoc.
      split; reflexivity.
Qed.

Lemma RemoveInstance_identities (st : MockStorage) (ident : InstanceIdent) :
  NoDup (map mInstanceIdent st) ->
  NoDup (map mInstanceIdent (snd (RemoveInstance ident st)))
  /\ (forall other,
        In other (map mInstanceIdent (snd (RemoveInstance ident st)))
        <-> In other (map mInstanceIdent st) /\ other <> ident).
Proof.
  intros Hnd.
  destruct (in_dec InstanceIdent_eq_dec ident (map mInstanceIdent st)) as [Hin|Hout].
  - destruct (RemoveInstance_present st ident Hin)
      as (before & record & after & -> & Hsame & _ & ->). cbn [snd].
    rewrite map_app in Hnd. cbn [map] in Hnd. rewrite Hsame in Hnd.
    pose proof (NoDup_remove_1 _ _ _ Hnd) as Hnd1.
    pose proof (NoDup_remove_2 _ _ _ Hnd) as Hnd2.
    rewrite !map_app. cbn [map]. rewrite Hsame.
    split; [exact Hnd1|]. intros other. rewrite !in_app_iff. cbn [In]. split.
    + intros Hother. split; [tauto|]. intros ->. apply Hnd2. apply in_or_app. exact Hother.
    + intros ([Hb|[Heq|Ha]] & Hne); [left; exact Hb|congruence|right; exact Ha].
  - rewrite RemoveInstance_absent by exact Hout. cbn [snd].
    split; [exact Hnd|]. intros other. split.
    + intros Hother. split; [exact Hother|]. intros ->. contradiction.
    + intros (Hother & _). exact Hother.
Qed.

Lemma stopInstances_storage : forall toStop l,
  NoDup (map mInstanceIdent (mStorage l)) ->
  let stopped := stopInstances instanceID toStop l in
  mServiceManager stopped = mServiceManager l
  /\ mStatusReceiver stopped = mStatusReceiver l
  /\ NoDup (map mInstanceIdent (mStorage stopped))
  /\ (forall ident,
        In ident (map mInstanceIdent (mStorage stopped))
        <-> In ident (map mInstanceIdent (mStorage l))
            /\ ~ In ident (map mInstanceIdent toStop)).
Proof.
  induction toStop as [|instance rest IH]; intros l Hnd stopped; subst stopped.
  - cbn [stopInstances map]. repeat split; try assumption; tauto.
  - cbn [stopInstances map].
    destruct (RemoveInstance_identities (mStorage l) (mInstanceIdent instance) Hnd)
      as (Hnd1 & Hremoved).
    match goal with
    | |- context [stopInstances instanceID rest ?l1] =>
        destruct (IH l1) as (Hsm & Hrecv & Hnd' & Hleft); [exact Hnd1|]
    end.
    cbn [mServiceManager mStatusReceiver mStorage] in *.
    split; [exact Hsm|]. split; [exact Hrecv|]. split; [exact Hnd'|].
    intros ident. rewrite Hleft, Hremoved. cbn [In]. split.
    + intros ((Hin & Hne) & Hrest). split; [exact Hin|]. intros [Heq|Hin']; [congruence|tauto].
    + intros (Hin & Hnot). split; [split; [exact Hin|]|].
      * intros ->. apply Hnot. left. reflexivity.
      * intros Hin'. apply Hnot. right. exact Hin'.
Qed.

Lemma stopInstances_collaborators : forall toStop l,
  mServiceManager (stopInstances instanceID toStop l) = mServiceManager l
  /\ mStatusReceiver (stopInstances instanceID toStop l) = mStatusReceiver l.
Proof.
  induction toStop as [|instance rest IH]; intros l; [split; reflexivity|].
  cbn [stopInstances].
  match goal with
  | |- context [stopInstances instanceID rest ?l1] => destruct (IH l1) as (Hsm & Hrecv)
  end.
  split; assumption.
Qed.

Lemma loadInstances_empty l :
  mStorage l = [] ->
  exists loaded,
    loadInstances cMaxNumInstances l = Done (eNone, loaded)
    /\ elements loaded = mStorage l.
Proof.
  intros Hempty. unfold loadInstances. rewrite Hempty.
  eexists. split; reflexivity.
Qed.

(** The delivery: with a promise that has no value yet the batch becomes
    its value; no other delivery returns. *)
Lemma deliver_fresh statuses l :
  mStatusReceiver l = None ->
  deliver statuses l
  = Done (eNone,
          mkLauncher (mServiceManager l) (Some (ArrayOfVector statuses))
                     (mStorage l) (mCurrentInstances l)).
Proof. intros Hfresh. unfold deliver, InstancesRunStatus. rewrite Hfresh. reflexivity. Qed.

Lemma deliver_returns statuses l err l' :
  deliver statuses l = Done (err, l') ->
  mStatusReceiver l = None
  /\ err = eNone
  /\ l' = mkLauncher (mServiceManager l) (Some (ArrayOfVector statuses))
                     (mStorage l) (mCurrentInstances l).
Proof.
  unfold deliver, InstancesRunStatus.
  destruct (mStatusReceiver l) as [batch|]; cbn [set_value bind fst snd]; [discriminate|].
  intros H. injection H as <- <-. repeat split.
Qed.

(** A round of [RunInstances] on a desired set that is accepted, once the
    registry is loaded: the stops, the starts, the delivery. *)
Lemma RunInstances_round services layers instances l :
  NoDup (map mInstanceIdent instances) ->
  (length instances <= cMaxNumInstances)%nat ->
  let l1 :=
    mkLauncher (snd (InstallServices services (mServiceManager l)))
               (mStatusReceiver l) (mStorage l) (mCurrentInstances l) in
  (exists loaded,
     loadInstances cMaxNumInstances l1 = Done (eNone, loaded)
     /\ elements loaded = mStorage l) ->
  let toStop :=
    filter (fun info =>
              negb (existsb (fun instance =>
                               equal (mInstanceIdent instance) (mInstanceIdent info))
                            instances))
           (mStorage l) in
  let toStart :=
    filter (fun instance => negb (unchanged l1 (mStorage l) instance)) instances in
  let started :=
    startInstances instanceID runtimeDir toStart (stopInstances instanceID toStop l1) in
  RunInstances cMaxNumInstances instanceID runtimeDir services layers instances l
  = deliver (fst started) (snd started)
  /\ mStatusReceiver (snd started) = mStatusReceiver l.
Proof.
  intros Hnd Hlen l1 (loaded & Hload & Helems) toStop toStart started.
  split.
  - unfold RunInstances.
    rewrite (proj2 (has_duplicate_NoDup _) Hnd).
    rewrite (proj2 (Nat.ltb_ge _ _) Hlen).
    cbn [InstallServices fst snd IsNone negb].
    change (mkLauncher
              (map (fun service =>
                      mkServiceData (siVersionInfo service) (siServiceID service)
                        (siProviderID service)
                        (JoinPath "/aos/storages" (siServiceID service))) services)
              (mStatusReceiver l) (mStorage l) (mCurrentInstances l)) with l1.
    rewrite Hload. cbn [bind fst snd IsNone negb]. rewrite Helems.
    reflexivity.
  - destruct (startInstances_storage toStart (stopInstances instanceID toStop l1))
      as (_ & _ & Hrecv & _).
    destruct (stopInstances_collaborators toStop l1) as (_ & Hrecv').
    subst started. rewrite Hrecv, Hrecv'. reflexivity.
Qed.


(** C2.  From an empty registry and with a promise that waits for its
    value, [RunInstances] of one service and of instances of that service,
    with pairwise distinct identities and within the declared capacity,
    returns no error and delivers one batch: it has as many entries as
    instances were submitted, one per submitted identity, each [Active] with
    the version of the installed service and no error; afterwards the
    registry holds the submitted records and no other.  Batch and registry
    are given up to the order of their entries, which the order of the
    starts decides. *)
Theorem RunInstances_from_empty_registry
    (service : ServiceInfo) (layers : list LayerInfo)
    (instances : list InstanceInfo) (l : Launcher) :
  mStorage l = [] ->
  mStatusReceiver l = None ->
  NoDup (map mInstanceIdent instances) ->
  (length instances <= cMaxNumInstances)%nat ->
  (forall instance, In instance instances ->
     mServiceID (mInstanceIdent instance) = siServiceID service) ->
  exists l' batch,
    RunInstances cMaxNumInstances instanceID runtimeDir [service] layers instances l
    = Done (eNone, l')
    /\ mStatusReceiver l' = Some batch
    /\ mSize batch = Z.of_nat (length instances)
    /\ Permutation
         (elements batch)
         (map (fun instance =>
                 mkInstanceStatus (mInstanceIdent instance)
                   (mVersionID (siVersionInfo service)) eActive eNone)
              instances)
    /\ Permutation (mStorage l') instances.
Proof.
  intros Hempty Hfresh Hnd Hlen Hbound.
  destruct (RunInstances_round [service] layers instances l Hnd Hlen) as (Hround & Hrecv).
  { apply (loadInstances_empty
             (mkLauncher (snd (InstallServices [service] (mServiceManager l)))
                         (mStatusReceiver l) (mStorage l) (mCurrentInstances l))).
    exact Hempty. }
  rewrite Hround; clear Hround.
  rewrite (deliver_fresh _ _ (eq_trans Hrecv Hfresh)); clear Hrecv.
  rewrite Hempty. cbn [filter stopInstances].
  assert (Hall : filter (fun instance =>
                           negb (unchanged
                                   (mkLauncher (snd (InstallServices [service] (mServiceManager l)))
                                      (mStatusReceiver l) [] (mCurrentInstances l))
                                   [] instance)) instances = instances).
  { clear. induction instances as [|instance rest IH]; [reflexivity|].
    cbn [filter]. unfold unchanged at 1. cbn [existsb andb negb]. rewrite IH. reflexivity. }
  rewrite Hall.
  match goal with
  | |- context [startInstances instanceID runtimeDir instances ?l1] =>
      destruct (startInstances_installed (mVersionID (siVersionInfo service)) instances l1)
        as (Hstatuses & Hstored)
  end.
  - intros instance Hin. cbn [mServiceManager InstallServices snd map].
    unfold GetService. cbn [find_if sdServiceID].
    rewrite (Hbound instance Hin), String.eqb_refl. cbn [nth]. split; reflexivity.
  - cbn [mStorage map app]. exact Hnd.
  - eexists. eexists. split; [reflexivity|]. cbn [mStatusReceiver mStorage] in *.
    split; [reflexivity|].
    split; [unfold ArrayOfVector, ArrayFromC; cbn [mSize];
            rewrite Hstatuses, length_map; reflexivity|].
    split; [rewrite ArrayOfVector_elements, Hstatuses; apply Permutation_refl|].
    rewrite Hstored. apply Permutation_refl.
Qed.

(** C4.  With no record in the registry and a promise that waits for its
    value, [RunLastInstances] returns no error and delivers one batch, which
    has no entry (and compares equal to the empty array, as the test
    checks); the registry stays empty. *)
Theorem RunLastInstances_empty_registry (l : Launcher) :
  mStorage l = [] ->
  mStatusReceiver l = None ->
  exists l' batch,
    RunLastInstances cMaxNumInstances instanceID runtimeDir l = Done (eNone, l')
    /\ mStatusReceiver l' = Some batch
    /\ mSize batch = 0
    /\ elements batch = []
    /\ CompareInstanceStatuses batch EmptyArray = Done true
    /\ mStorage l' = [].
Proof.
  intros Hempty Hfresh. unfold RunLastInstances, loadInstances. rewrite Hempty.
  cbn [GetAllInstances bind fst snd IsNone negb].
  change (elements (StaticArray (repeat InstanceInfo_default cMaxNumInstances)))
    with (@nil InstanceInfo).
  cbn [startInstances fst snd]. rewrite (deliver_fresh _ _ Hfresh).
  eexists. eexists. split; [reflexivity|]. cbn [mStatusReceiver mStorage].
  split; [reflexivity|]. split; [reflexivity|]. split; [reflexivity|].
  split; [reflexivity|exact Hempty].
Qed.

Lemma not_desired_is_stopped (st : MockStorage) (instances : list InstanceInfo)
    (ident : InstanceIdent) :
  In ident (map mInstanceIdent st) ->
  ~ In ident (map mInstanceIdent instances) ->
  In ident
     (map mInstanceIdent
          (filter (fun info =>
                     negb (existsb (fun instance =>
                                      equal (mInstanceIdent instance) (mInstanceIdent info))
                                   instances))
                  st)).
Proof.
  intros Hin Hout. apply in_map_iff in Hin. destruct Hin as (info & Heq & Hinfo).
  apply in_map_iff. exists info. split; [exact Heq|].
  apply filter_In. split; [exact Hinfo|].
  destruct (existsb _ instances) eqn:Hex; [|reflexivity].
  apply existsb_exists in Hex. destruct Hex as (instance & Hinstance & Hequal).
  apply InstanceIdent_equal_eq in Hequal.
  exfalso. apply Hout. apply in_map_iff. exists instance. split; [congruence|exact Hinstance].
Qed.

(** The stops and starts of a round, whatever is started: the records
    left have pairwise distinct identities, all of them desired. *)
Lemma round_storage (instances toStart : list InstanceInfo) l :
  NoDup (map mInstanceIdent (mStorage l)) ->
  incl toStart instances ->
  let toStop :=
    filter (fun info =>
              negb (existsb (fun instance =>
                               equal (mInstanceIdent instance) (mInstanceIdent info))
                            instances))
           (mStorage l) in
  let started :=
    startInstances instanceID runtimeDir toStart (stopInstances instanceID toStop l) in
  NoDup (map mInstanceIdent (mStorage (snd started)))
  /\ incl (map mInstanceIdent (mStorage (snd started))) (map mInstanceIdent instances)
  /\ mServiceManager (snd started) = mServiceManager l
  /\ mStatusReceiver (snd started) = mStatusReceiver l.
Proof.
  intros Hnd Hsub toStop started.
  destruct (stopInstances_storage toStop l Hnd) as (Hsm & Hrecv & Hnd2 & Hleft).
  destruct (startInstances_storage toStart (stopInstances instanceID toStop l))
    as (_ & Hsm' & Hrecv' & _ & Hadd & Hnd3 & _).
  fold started in Hsm', Hrecv', Hadd, Hnd3.
  split; [apply Hnd3, Hnd2|]. split.
  - intros ident Hident. apply Hadd in Hident. apply in_app_or in Hident.
    destruct Hident as [Hident|Hident].
    + apply Hleft in Hident. destruct Hident as (Hin & Hnot).
      destruct (in_dec InstanceIdent_eq_dec ident (map mInstanceIdent instances))
        as [Hdesired|Hundesired]; [exact Hdesired|].
      exfalso. apply Hnot. apply not_desired_is_stopped; assumption.
    + apply in_map_iff in Hident. destruct Hident as (instance & Heq & Hinstance).
      apply in_map_iff. exists instance. split; [exact Heq|apply Hsub; exact Hinstance].
  - split; [rewrite Hsm', Hsm; reflexivity|rewrite Hrecv', Hrecv; reflexivity].
Qed.

Lemma NoDup_incl_length_map (st : MockStorage) (instances : list InstanceInfo) :
  NoDup (map mInstanceIdent st) ->
  incl (map mInstanceIdent st) (map mInstanceIdent instances) ->
  (length st <= length instances)%nat.
Proof.
  intros Hnd Hincl. pose proof (NoDup_incl_length Hnd Hincl) as Hlen.
  rewrite !length_map in Hlen. exact Hlen.
Qed.

(** The registry's invariant: distinct identities, within the capacity.
    Both entry points keep it. *)
Lemma RunInstances_keeps_invariant services layers instances l l' err :
  Z.of_nat cMaxNumInstances < size_t_modulus ->
  NoDup (map mInstanceIdent (mStorage l)) ->
  (length (mStorage l) <= cMaxNumInstances)%nat ->
  RunInstances cMaxNumInstances instanceID runtimeDir services layers instances l
  = Done (err, l') ->
  NoDup (map mInstanceIdent (mStorage l'))
  /\ (length (mStorage l') <= cMaxNumInstances)%nat.
Proof.
  intros Hcap Hnd Hfits Hrun.
  destruct (has_duplicate (map mInstanceIdent instances)) eqn:Hdup.
  { unfold RunInstances in Hrun. rewrite Hdup in Hrun.
    injection Hrun as _ <-. split; assumption. }
  destruct (Nat.ltb_spec cMaxNumInstances (length instances)) as [Hover|Hlen].
  { unfold RunInstances in Hrun. rewrite Hdup in Hrun.
    rewrite (proj2 (Nat.ltb_lt _ _) Hover) in Hrun.
    injection Hrun as _ <-. split; assumption. }
  apply has_duplicate_NoDup in Hdup.
  destruct (RunInstances_round services layers instances l Hdup Hlen) as (Hround & _).
  { apply (loadInstances_loads
             (mkLauncher (snd (InstallServices services (mServiceManager l)))
                         (mStatusReceiver l) (mStorage l) (mCurrentInstances l)));
      assumption. }
  rewrite Hround in Hrun; clear Hround.
  apply deliver_returns in Hrun. destruct Hrun as (_ & _ & ->). cbn [mStorage].
  match goal with
  | |- context [startInstances instanceID runtimeDir ?toStart (stopInstances instanceID _ ?l1)] =>
      destruct (round_storage instances toStart l1 Hnd) as (Hnd' & Hincl & _);
      [apply incl_filter|]
  end.
  cbn [mStorage] in Hnd', Hincl.
  split; [exact Hnd'|].
  pose proof (NoDup_incl_length_map _ _ Hnd' Hincl). lia.
Qed.

Lemma RunLastInstances_round l :
  Z.of_nat cMaxNumInstances < size_t_modulus ->
  (length (mStorage l) <= cMaxNumInstances)%nat ->
  let started := startInstances instanceID runtimeDir (mStorage l) l in
  RunLastInstances cMaxNumInstances instanceID runtimeDir l
  = deliver (fst started) (snd started).
Proof.
  intros Hcap Hfits started. unfold RunLastInstances.
  destruct (loadInstances_loads l Hcap Hfits) as (loaded & Hload & Helems).
  rewrite Hload. cbn [bind fst snd IsNone negb]. rewrite Helems. reflexivity.
Qed.

Lemma RunLastInstances_keeps_invariant l l' err :
  Z.of_nat cMaxNumInstances < size_t_modulus ->
  NoDup (map mInstanceIdent (mStorage l)) ->
  (length (mStorage l) <= cMaxNumInstances)%nat ->
  RunLastInstances cMaxNumInstances instanceID runtimeDir l = Done (err, l') ->
  NoDup (map mInstanceIdent (mStorage l'))
  /\ (length (mStorage l') <= cMaxNumInstances)%nat.
Proof.
  intros Hcap Hnd Hfits Hrun.
  rewrite RunLastInstances_round in Hrun by assumption.
  apply deliver_returns in Hrun. destruct Hrun as (_ & _ & ->). cbn [mStorage].
  destruct (startInstances_storage (mStorage l) l) as (_ & _ & _ & _ & Hadd & Hnd' & _).
  split; [apply Hnd', Hnd|].
  assert (Hincl : incl (map mInstanceIdent
                          (mStorage (snd (startInstances instanceID runtimeDir (mStorage l) l))))
                       (map mInstanceIdent (mStorage l))).
  { intros ident Hident. apply Hadd in Hident. apply in_app_or in Hident. tauto. }
  pose proof (NoDup_incl_length_map _ _ (Hnd' Hnd) Hincl). lia.
Qed.

Lemma launcher_reachable_invariant l :
  Z.of_nat cMaxNumInstances < size_t_modulus ->
  launcher_reachable cMaxNumInstances instanceID runtimeDir l ->
  NoDup (map mInstanceIdent (mStorage l))
  /\ (length (mStorage l) <= cMaxNumInstances)%nat.
Proof.
  intros Hcap Hreach.
  induction Hreach as [sm|l _ IH|services layers instances l l' err _ IH Hrun|l l' err _ IH Hrun].
  - cbn. split; [constructor|lia].
  - exact IH.
  - destruct IH. eapply RunInstances_keeps_invariant; eassumption.
  - destruct IH. eapply RunLastInstances_keeps_invariant; eassumption.
Qed.









End LauncherFacts.

(** The model of the launcher passes the launcher test of the sources. *)
Lemma launcher_test_passes : launcher_test = Done true.
Proof. vm_compute. reflexivity. Qed.

Lemma RunInstances_from_empty_registry_witness :
  exists l' batch,
    RunInstances test_capacity test_instanceID test_runtimeDir
                 [test_service 1] [] test_instances test_launcher
    = Done (eNone, l')
    /\ mStatusReceiver l' = Some batch
    /\ mSize batch = 3
    /\ Permutation (elements batch)
                   [test_status 0 1; test_status 1 1; test_status 2 1]
    /\ Permutation (mStorage l') test_instances.
Proof.
  apply (RunInstances_from_empty_registry test_capacity test_instanceID test_runtimeDir
           (test_service 1) [] test_instances test_launcher).
  - reflexivity.
  - reflexivity.
  - apply has_duplicate_NoDup. vm_compute. reflexivity.
  - vm_compute. lia.
  - intros instance [<-|[<-|[<-|[]]]]; reflexivity.
Defined.

Lemma RunLastInstances_empty_registry_witness :
  exists l' batch,
    RunLastInstances test_capacity test_instanceID test_runtimeDir test_launcher
    = Done (eNone, l')
    /\ mStatusReceiver l' = Some batch
    /\ mSize batch = 0
    /\ elements batch = []
    /\ CompareInstanceStatuses batch EmptyArray = Done true
    /\ mStorage l' = [].
Proof.
  apply (RunLastInstances_empty_registry test_capacity test_instanceID test_runtimeDir
           test_launcher).
  - reflexivity.
  - reflexivity.
Defined.



(** The round of P1: the desired set of the first round of the test,
    submitted a second time with the same service, is reconciled with no
    error, an empty batch and the registry as it was. *)
Example RunInstances_unchanged_round :
  test_round (renew_promise test_launcher_1)
  = Done (eNone, test_launcher_2)
  /\ mStatusReceiver test_launcher_2 = Some (ArrayOfVector [])
  /\ mStorage test_launcher_2 = mStorage test_launcher_1
  /\ mStorage test_launcher_1 = test_instances.
Proof. vm_compute. repeat split. Qed.

(** C3, as stated, fails as well after a round that leaves every instance
    unchanged (step 2 and P1: no status for an unchanged instance).  After
    the round above, which returned no error with an empty batch,
    [RunLastInstances] delivers the three statuses of the registry's
    records. *)
Lemma RunLastInstances_after_unchanged_round :
  ~ (forall services layers instances l l1 batch1,
       launcher_reachable test_capacity test_instanceID test_runtimeDir l ->
       RunInstances test_capacity test_instanceID test_runtimeDir
                    services layers instances l
       = Done (eNone, l1) ->
       mStatusReceiver l1 = Some batch1 ->
       exists l2 batch2,
         RunLastInstances test_capacity test_instanceID test_runtimeDir
                          (renew_promise l1)
         = Done (eNone, l2)
         /\ mStatusReceiver l2 = Some batch2
         /\ CompareInstanceStatuses batch1 batch2 = Done true).
Proof.
  intros Hclaim.
  destruct (Hclaim [test_service 1] [] test_instances
                   (renew_promise test_launcher_1) test_launcher_2 (ArrayOfVector []))
    as (l2 & batch2 & Hlast & Hbatch & Hcompare).
  - apply reachable_GetFeature.
    apply (reachable_RunInstances test_capacity test_instanceID test_runtimeDir
             [test_service 1] [] test_instances test_launcher test_launcher_1 eNone).
    + apply reachable_Init.
    + vm_compute. reflexivity.
  - vm_compute. reflexivity.
  - vm_compute. reflexivity.
  - vm_compute in Hlast. injection Hlast as <-.
    vm_compute in Hbatch. injection Hbatch as <-.
    vm_compute in Hcompare. discriminate Hcompare.
Qed.

(* ================================================================== *)
(** * Part III: further properties of the sources                      *)
(* ================================================================== *)

(** ** Buffers, slot by slot *)

Section SlotFacts.
Context {T : Type}.
Implicit Types (buf : list T) (a : Array T).

Lemma slot_read_inside buf j :
  0 <= j < Z.of_nat (length buf) -> exists x, slot_read buf j = Some x.
Proof.
  intros Hj. rewrite slot_read_nth_error.
  replace (0 <=? j) with true by (symmetry; apply Z.leb_le; lia).
  destruct (nth_error buf (Z.to_nat j)) as [x|] eqn:Hx; [exists x; reflexivity|].
  apply nth_error_None in Hx. lia.
Qed.

Lemma slot_write_read buf v : forall i buf',
  slot_write buf i v = Some buf' ->
  length buf' = length buf
  /\ forall j, slot_read buf' j = if j =? i then Some v else slot_read buf j.
Proof.
  induction buf as [|x rest IH]; intros i buf' Hw; simpl in Hw; [discriminate|].
  destruct (Z.eqb_spec i 0) as [->|Hne].
  - injection Hw as <-. split; [reflexivity|]. intros j. simpl.
    destruct (Z.eqb_spec j 0); reflexivity.
  - destruct (slot_write rest (i - 1) v) as [rest'|] eqn:Hrest; [|discriminate].
    injection Hw as <-. destruct (IH _ _ Hrest) as (Hlen & Hread).
    split; [simpl; rewrite Hlen; reflexivity|]. intros j. simpl.
    destruct (Z.eqb_spec j 0) as [->|Hj].
    + destruct (Z.eqb_spec 0 i); [congruence|reflexivity].
    + rewrite Hread.
      destruct (Z.eqb_spec (j - 1) (i - 1)), (Z.eqb_spec j i); try reflexivity; lia.
Qed.

(** A store to a slot of the buffer: the slot holds the value, nothing
    else changes. *)
Lemma store_slot a i v :
  0 <= i < Z.of_nat (length (mItems a)) ->
  exists a',
    store a i v = Done a'
    /\ mSize a' = mSize a
    /\ mMaxSize a' = mMaxSize a
    /\ length (mItems a') = length (mItems a)
    /\ forall j, slot_read (mItems a') j
                 = if j =? i then Some v else slot_read (mItems a) j.
Proof.
  intros Hi. unfold store.
  destruct (slot_write (mItems a) i v) as [buf'|] eqn:Hw.
  - destruct (slot_write_read _ _ _ _ Hw) as (Hlen & Hread).
    eexists. split; [reflexivity|]. cbn [mItems mSize mMaxSize]. repeat split; assumption.
  - rewrite slot_write_inside in Hw by exact Hi. discriminate.
Qed.

Lemma load_slot a j x :
  slot_read (mItems a) j = Some x -> load a j = Done x.
Proof. intros H. unfold load. rewrite H. reflexivity. Qed.

(** The items of an array, index by index. *)
Lemma elements_nth a (n : nat) :
  0 <= mSize a ->
  nth_error (elements a) n
  = if Z.of_nat n <? mSize a then slot_read (mItems a) (Z.of_nat n) else None.
Proof.
  intros Hsize. unfold elements. rewrite nth_error_firstn, slot_read_nth_error.
  replace (0 <=? Z.of_nat n) with true by (symmetry; apply Z.leb_le; lia).
  rewrite Nat2Z.id.
  destruct (Nat.ltb_spec n (Z.to_nat (mSize a))), (Z.ltb_spec (Z.of_nat n) (mSize a));
    try reflexivity; lia.
Qed.

Lemma slot_read_elements a j :
  well_formed a -> 0 <= j < mSize a ->
  slot_read (mItems a) j = nth_error (elements a) (Z.to_nat j).
Proof.
  intros (Hsize & _) Hj. rewrite elements_nth by lia.
  rewrite Z2Nat.id by lia.
  replace (j <? mSize a) with true by (symmetry; apply Z.ltb_lt; lia). reflexivity.
Qed.

End SlotFacts.

(** ** [Front], [Back], [PopBack], [Resize] *)

Section ArrayEnds.
Context {T : Type}.
Implicit Types (a : Array T) (item value zeroed dflt : T).

(** X1.  On an empty array [Front] and [Back] return [eOutOfRange] and no
    address ([Back] asks [At] for the index [mSize - 1], which wraps to
    [2^64 - 1] and is refused); on an array with items they return the
    addresses of the first and of the last item. *)
Theorem Front_Back_checked a :
  well_formed a ->
  (mSize a = 0 ->
   Front a = mkRet nullptr eOutOfRange /\ Back a = mkRet nullptr eOutOfRange)
  /\ (0 < mSize a ->
      Front a = mkRet (SlotPtr 0) eNone
      /\ Back a = mkRet (SlotPtr (mSize a - 1)) eNone).
Proof.
  intros (Hsize & Hbuf & Hmax). unfold Front, Back, At, RetValue. split.
  - intros Hempty. rewrite Hempty.
    change (wrap_size (0 - 1)) with (size_t_modulus - 1).
    split; reflexivity.
  - intros Hpos. rewrite wrap_size_small by lia.
    replace (mSize a <=? 0) with false by (symmetry; apply Z.leb_gt; lia).
    replace (mSize a <=? mSize a - 1) with false by (symmetry; apply Z.leb_gt; lia).
    split; reflexivity.
Qed.

(** What [PopBack] leaves of an array with items. *)
Lemma PopBack_last zeroed dflt a :
  well_formed a -> 0 < mSize a ->
  exists x a',
    PopBack zeroed dflt a = Done (mkRet x eNone, a')
    /\ elements a = elements a' ++ [x]
    /\ mSize a' = mSize a - 1
    /\ mMaxSize a' = mMaxSize a
    /\ well_formed a'
    /\ slot_read (mItems a') (mSize a') = Some zeroed.
Proof.
  intros Hwf Hpos. pose proof Hwf as (Hsize & Hbuf & Hmax). unfold PopBack.
  rewrite wrap_size_small by lia.
  destruct (load_inside a (mSize a - 1)) as (x & Hload & Hnth); [lia|].
  rewrite Hload. cbn [bind]. unfold end_.
  destruct (store_slot (SetSize a (mSize a - 1)) (mSize a - 1) zeroed)
    as (a' & Hstore & Hs & Hm & Hlen & Hread); [cbn [SetSize mItems]; lia|].
  cbn [SetSize mSize mMaxSize mItems] in *. rewrite Hstore. cbn [bind].
  exists x, a'. split; [reflexivity|].
  assert (Hwf' : well_formed a') by (unfold well_formed; rewrite Hs, Hm, Hlen; lia).
  split.
  - apply nth_error_ext. intros n.
    rewrite elements_nth by lia.
    destruct (Nat.ltb_spec n (Z.to_nat (mSize a - 1))) as [Hlow|Hhigh].
    + rewrite nth_error_app1 by (pose proof (elements_length a' Hwf'); lia).
      rewrite elements_nth by lia. rewrite Hs, Hread.
      replace (Z.of_nat n <? mSize a) with true by (symmetry; apply Z.ltb_lt; lia).
      replace (Z.of_nat n <? mSize a - 1) with true by (symmetry; apply Z.ltb_lt; lia).
      replace (Z.of_nat n =? mSize a - 1) with false by (symmetry; apply Z.eqb_neq; lia).
      reflexivity.
    + pose proof (elements_length a' Hwf') as Hlen'.
      rewrite nth_error_app2 by lia.
      destruct (Nat.eq_dec n (Z.to_nat (mSize a - 1))) as [->|Hne].
      * replace (Z.to_nat (mSize a - 1) - length (elements a'))%nat with 0%nat by lia.
        rewrite Z2Nat.id by lia.
        replace (mSize a - 1 <? mSize a) with true by (symmetry; apply Z.ltb_lt; lia).
        rewrite slot_read_nth_error.
        replace (0 <=? mSize a - 1) with true by (symmetry; apply Z.leb_le; lia).
        exact Hnth.
      * replace (Z.of_nat n <? mSize a) with false by (symmetry; apply Z.ltb_ge; lia).
        destruct (n - length (elements a'))%nat as [|m] eqn:Hm'; [lia|].
        destruct m; reflexivity.
  - split; [exact Hs|]. split; [exact Hm|]. split; [exact Hwf'|].
    rewrite Hs, Hread, Z.eqb_refl. reflexivity.
Qed.

(** X2.  [PopBack] on an array with items returns its last item with
    [eNone]; the array keeps the items before it, in order, has one item
    less and the same capacity, and the slot the item left holds zero
    bytes. *)
Theorem PopBack_returns_last zeroed dflt a :
  well_formed a -> 0 < mSize a ->
  exists x a',
    PopBack zeroed dflt a = Done (mkRet x eNone, a')
    /\ elements a = elements a' ++ [x]
    /\ mSize a' = mSize a - 1
    /\ mMaxSize a' = mMaxSize a
    /\ well_formed a'
    /\ load a' (mSize a') = Done zeroed.
Proof.
  intros Hwf Hpos.
  destruct (PopBack_last zeroed dflt a Hwf Hpos)
    as (x & a' & Hpop & Hels & Hs & Hm & Hwf' & Hzero).
  exists x, a'. repeat (split; [assumption|]). apply load_slot. exact Hzero.
Qed.

(** X3.  A [PushBack] followed by a [PopBack] gives the item back and
    leaves the items and the size of the array as they were. *)
Theorem PushBack_PopBack zeroed dflt a item :
  well_formed a -> mSize a < mMaxSize a ->
  exists a',
    (r <- PushBack a item ;; PopBack zeroed dflt (snd r))
    = Done (mkRet item eNone, a')
    /\ elements a' = elements a
    /\ mSize a' = mSize a
    /\ well_formed a'.
Proof.
  intros Hwf Hroom. rewrite PushBack_room by assumption. cbn [bind snd].
  pose proof (pushed_well_formed a item Hwf Hroom) as Hwf1.
  pose proof (pushed_elements a item Hwf Hroom) as Hels1.
  destruct (PopBack_last zeroed dflt (pushed a item) Hwf1)
    as (x & a' & Hpop & Hels & Hs & _ & Hwf' & _).
  { unfold pushed. cbn [mSize]. destruct Hwf; lia. }
  rewrite Hels1 in Hels. apply app_inj_tail in Hels. destruct Hels as (Hsame & <-).
  exists a'. split; [exact Hpop|]. split; [symmetry; exact Hsame|].
  split; [rewrite Hs; unfold pushed; cbn [mSize]; lia|exact Hwf'].
Qed.

(** X4.  [Resize] to a size that is not larger than the current one
    returns [eNone] and touches no slot: the array keeps its first [size]
    items and its capacity. *)
Theorem Resize_shrinks a size value :
  well_formed a -> 0 <= size <= mSize a ->
  Resize a size value = Done (eNone, SetSize a size)
  /\ elements (SetSize a size) = firstn (Z.to_nat size) (elements a)
  /\ well_formed (SetSize a size).
Proof.
  intros (Hsize & Hbuf & Hmax) Hshrink. unfold Resize.
  replace (mMaxSize a <? size) with false by (symmetry; apply Z.ltb_ge; lia).
  replace (mSize a <? size) with false by (symmetry; apply Z.ltb_ge; lia).
  cbn [bind]. split; [reflexivity|]. split.
  - unfold elements, SetSize. cbn [mItems mSize]. rewrite firstn_firstn.
    f_equal. lia.
  - unfold well_formed, SetSize. cbn [mItems mSize mMaxSize]. lia.
Qed.

(** X5.  [Resize] to a larger size within the capacity returns [eNone]
    and sets the size; the old items stay, the first new item is the value,
    and the further new items are whatever the buffer held in their slots:
    the fill loop writes the slot at the old end in every round. *)
Theorem Resize_grows a size value :
  well_formed a -> mSize a < size <= mMaxSize a ->
  exists a',
    Resize a size value = Done (eNone, a')
    /\ mSize a' = size
    /\ mMaxSize a' = mMaxSize a
    /\ elements a'
       = elements a ++ value
           :: firstn (Z.to_nat (size - mSize a - 1))
                     (skipn (S (Z.to_nat (mSize a))) (mItems a)).
Proof.
  intros Hwf Hgrow. rewrite Resize_grow by assumption.
  destruct Hwf as (Hsize & Hbuf & Hmax).
  eexists. split; [reflexivity|]. cbn [mSize mMaxSize].
  split; [reflexivity|]. split; [reflexivity|].
  unfold elements. cbn [mItems mSize].
  assert (Hlen : length (firstn (Z.to_nat (mSize a)) (mItems a)) = Z.to_nat (mSize a))
    by (rewrite length_firstn; lia).
  rewrite firstn_app, Hlen.
  rewrite firstn_firstn.
  replace (Nat.min (Z.to_nat size) (Z.to_nat (mSize a))) with (Z.to_nat (mSize a)) by lia.
  replace (Z.to_nat size - Z.to_nat (mSize a))%nat
    with (S (Z.to_nat (size - mSize a - 1))) by lia.
  reflexivity.
Qed.

End ArrayEnds.

Lemma Front_Back_checked_witness :
  let a := mkArray [5; 6; 0] 2 3 in
  (mSize a = 0 ->
   Front a = mkRet nullptr eOutOfRange /\ Back a = mkRet nullptr eOutOfRange)
  /\ (0 < mSize a ->
      Front a = mkRet (SlotPtr 0) eNone
      /\ Back a = mkRet (SlotPtr (mSize a - 1)) eNone).
Proof.
  apply (Front_Back_checked (mkArray [5; 6; 0] 2 3)).
  unfold well_formed, size_t_modulus. simpl. lia.
Defined.

Lemma PopBack_returns_last_witness :
  let a := mkArray [5; 6; 7] 2 3 in
  exists x a',
    PopBack 0 0 a = Done (mkRet x eNone, a')
    /\ elements a = elements a' ++ [x]
    /\ mSize a' = mSize a - 1
    /\ mMaxSize a' = mMaxSize a
    /\ well_formed a'
    /\ load a' (mSize a') = Done 0.
Proof.
  apply (PopBack_returns_last 0 0 (mkArray [5; 6; 7] 2 3)).
  - unfold well_formed, size_t_modulus. simpl. lia.
  - simpl. lia.
Defined.

Lemma PushBack_PopBack_witness :
  let a := mkArray [5; 6; 7] 2 3 in
  exists a',
    (r <- PushBack a 9 ;; PopBack 0 0 (snd r)) = Done (mkRet 9 eNone, a')
    /\ elements a' = elements a
    /\ mSize a' = mSize a
    /\ well_formed a'.
Proof.
  apply (PushBack_PopBack 0 0 (mkArray [5; 6; 7] 2 3) 9).
  - unfold well_formed, size_t_modulus. simpl. lia.
  - simpl. lia.
Defined.

Lemma Resize_shrinks_witness :
  let a := mkArray [5; 6; 7] 3 3 in
  Resize a 1 0 = Done (eNone, SetSize a 1)
  /\ elements (SetSize a 1) = firstn (Z.to_nat 1) (elements a)
  /\ well_formed (SetSize a 1).
Proof.
  apply (Resize_shrinks (mkArray [5; 6; 7] 3 3) 1 0).
  - unfold well_formed, size_t_modulus. simpl. lia.
  - simpl. lia.
Defined.

Lemma Resize_grows_witness :
  let a := mkArray [5; 6; 7; 8] 1 4 in
  exists a',
    Resize a 4 0 = Done (eNone, a')
    /\ mSize a' = 4
    /\ mMaxSize a' = mMaxSize a
    /\ elements a'
       = elements a ++ 0
           :: firstn (Z.to_nat (4 - mSize a - 1))
                     (skipn (S (Z.to_nat (mSize a))) (mItems a)).
Proof.
  apply (Resize_grows (mkArray [5; 6; 7; 8] 1 4) 4 0).
  - unfold well_formed, size_t_modulus. simpl. lia.
  - simpl. lia.
Defined.

(** ** [Find] *)

Section FindFirst.
Context {T : Type}.
Implicit Types (a : Array T).

(** The loop of [Find(P match)] against [std::find_if] on the slots it
    visits. *)
Lemma FindMatch_from_find_if (match_ : T -> bool) a : forall n it,
  0 <= it -> (Z.to_nat it + n <= length (mItems a))%nat ->
  FindMatch_from match_ a n it
  = Done (match find_if match_ (firstn n (skipn (Z.to_nat it) (mItems a))) with
          | Some k => RetValue (SlotPtr (it + Z.of_nat k))
          | None => mkRet nullptr eNotFound
          end).
Proof.
  induction n as [|n IH]; intros it Hit Hlen.
  - reflexivity.
  - destruct (load_inside a it) as (x & Hload & Hnth); [lia|].
    cbn [FindMatch_from]. rewrite Hload. cbn [bind].
    rewrite (skipn_nth_error _ _ _ Hnth). cbn [firstn find_if].
    destruct (match_ x).
    + rewrite Z.add_0_r. reflexivity.
    + rewrite IH by lia.
      replace (Z.to_nat (it + 1)) with (S (Z.to_nat it)) by lia.
      destruct (find_if match_ _) as [k|]; cbn [option_map]; [|reflexivity].
      do 3 f_equal. lia.
Qed.

Lemma FindMatch_find_if (match_ : T -> bool) a :
  well_formed a ->
  FindMatch match_ a
  = Done (match find_if match_ (elements a) with
          | Some k => RetValue (SlotPtr (Z.of_nat k))
          | None => mkRet nullptr eNotFound
          end).
Proof.
  intros (Hsize & Hbuf & Hmax). unfold FindMatch, begin_.
  rewrite FindMatch_from_find_if by (simpl; lia).
  change (Z.to_nat 0) with 0%nat. cbn [skipn]. fold (elements a).
  destruct (find_if match_ (elements a)); reflexivity.
Qed.

Lemma find_if_first (match_ : T -> bool) (before after : list T) (x : T) :
  (forall y, In y before -> match_ y = false) -> match_ x = true ->
  find_if match_ (before ++ x :: after) = Some (length before).
Proof.
  intros Hbefore Hx. induction before as [|y rest IH]; simpl.
  - rewrite Hx. reflexivity.
  - rewrite (Hbefore y (or_introl eq_refl)).
    rewrite IH by (intros z Hz; apply Hbefore; right; exact Hz). reflexivity.
Qed.

(** X6.  [Find(P match)] returns [eNotFound] and no address when no item
    of the array satisfies the predicate, and otherwise the address of the
    first item that does, with [eNone]; slots past the size are not
    looked at. *)
Theorem FindMatch_first (match_ : T -> bool) a :
  well_formed a ->
  ((forall x, In x (elements a) -> match_ x = false) ->
   FindMatch match_ a = Done (mkRet nullptr eNotFound))
  /\ (forall before x after,
        elements a = before ++ x :: after ->
        (forall y, In y before -> match_ y = false) -> match_ x = true ->
        FindMatch match_ a
        = Done (mkRet (SlotPtr (Z.of_nat (length before))) eNone)).
Proof.
  intros Hwf. rewrite FindMatch_find_if by exact Hwf. split.
  - intros Hnone. rewrite (proj2 (find_if_end match_ (elements a)) Hnone). reflexivity.
  - intros before x after Hels Hbefore Hx.
    rewrite Hels, (find_if_first match_ before after x Hbefore Hx). reflexivity.
Qed.

Lemma Find_is_FindMatch `{EqualOp T} a (item : T) : forall n it,
  Find_from a item n it = FindMatch_from (fun x => equal x item) a n it.
Proof.
  induction n as [|n IH]; intros it; [reflexivity|].
  cbn [Find_from FindMatch_from]. destruct (load a it) as [x| |]; cbn [bind]; try reflexivity.
  destruct (equal x item); [reflexivity|apply IH].
Qed.

(** X7.  [Find(item)] returns [eNotFound] and no address when no item of
    the array equals the given one, and otherwise the address of the first
    item that does, with [eNone]. *)
Theorem Find_first `{EqualOp T} a (item : T) :
  well_formed a ->
  ((forall x, In x (elements a) -> equal x item = false) ->
   Find a item = Done (mkRet nullptr eNotFound))
  /\ (forall before x after,
        elements a = before ++ x :: after ->
        (forall y, In y before -> equal y item = false) -> equal x item = true ->
        Find a item = Done (mkRet (SlotPtr (Z.of_nat (length before))) eNone)).
Proof.
  intros Hwf. unfold Find. rewrite Find_is_FindMatch.
  fold (FindMatch (fun x => equal x item) a).
  rewrite FindMatch_find_if by exact Hwf. split.
  - intros Hnone.
    rewrite (proj2 (find_if_end (fun x => equal x item) (elements a)) Hnone). reflexivity.
  - intros before x after Hels Hbefore Hx.
    rewrite Hels, (find_if_first (fun x => equal x item) before after x Hbefore Hx).
    reflexivity.
Qed.

Lemma find_if_position (match_ : T -> bool) (v : list T) : forall k,
  find_if match_ v = Some k ->
  exists before x after,
    v = before ++ x :: after
    /\ length before = k
    /\ match_ x = true
    /\ (forall y, In y before -> match_ y = false).
Proof.
  induction v as [|y rest IH]; intros k Hfind; simpl in Hfind; [discriminate|].
  destruct (match_ y) eqn:Hy.
  - injection Hfind as <-. exists [], y, rest.
    repeat split; try assumption. intros z [].
  - destruct (find_if match_ rest) as [m|] eqn:Hrest; [|discriminate].
    injection Hfind as <-.
    destruct (IH m eq_refl) as (before & x & after & -> & <- & Hx & Hbefore).
    exists (y :: before), x, after. repeat split; try assumption.
    intros z [<-|Hz]; [exact Hy|apply Hbefore; exact Hz].
Qed.

(** X8.  An item that equals itself is found after it was pushed: [Find]
    returns, with [eNone], the address of an item that equals it, at or
    before the slot it was stored in. *)
Theorem PushBack_then_Find `{EqualOp T} a (item : T) :
  well_formed a -> mSize a < mMaxSize a -> equal item item = true ->
  exists a' slot x,
    PushBack a item = Done (eNone, a')
    /\ Find a' item = Done (mkRet (SlotPtr slot) eNone)
    /\ 0 <= slot <= mSize a
    /\ load a' slot = Done x
    /\ equal x item = true.
Proof.
  intros Hwf Hroom Hrefl.
  pose proof (pushed_well_formed a item Hwf Hroom) as Hwf1.
  pose proof (pushed_elements a item Hwf Hroom) as Hels1.
  pose proof (elements_length a Hwf) as Hlen.
  exists (pushed a item).
  unfold Find. rewrite Find_is_FindMatch.
  fold (FindMatch (fun x => equal x item) (pushed a item)).
  rewrite FindMatch_find_if by exact Hwf1.
  destruct (find_if (fun x => equal x item) (elements (pushed a item))) as [k|] eqn:Hfind.
  - destruct (find_if_position _ _ _ Hfind) as (before & x & after & Hsplit & <- & Hx & _).
    assert (Hshort : (length before <= length (elements a))%nat).
    { assert (Hl : length (elements (pushed a item)) = S (length (elements a)))
        by (rewrite Hels1, length_app; simpl; lia).
      rewrite Hsplit, length_app in Hl. simpl in Hl. lia. }
    exists (Z.of_nat (length before)), x.
    split; [apply PushBack_room; assumption|]. split; [reflexivity|].
    split; [lia|]. split; [|exact Hx].
    apply load_slot. rewrite slot_read_elements.
    + rewrite Nat2Z.id, Hsplit, nth_error_app2 by lia.
      rewrite Nat.sub_diag. reflexivity.
    + exact Hwf1.
    + unfold pushed. cbn [mSize]. lia.
  - rewrite find_if_end in Hfind.
    assert (Hin : In item (elements (pushed a item)))
      by (rewrite Hels1; apply in_or_app; right; left; reflexivity).
    rewrite (Hfind item Hin) in Hrefl. discriminate.
Qed.

End FindFirst.

Lemma FindMatch_first_witness :
  let a := mkArray [5; 6; 7] 2 3 in
  ((forall x, In x (elements a) -> (fun x => 5 <? x) x = false) ->
   FindMatch (fun x => 5 <? x) a = Done (mkRet nullptr eNotFound))
  /\ (forall before x after,
        elements a = before ++ x :: after ->
        (forall y, In y before -> (fun x => 5 <? x) y = false) ->
        (fun x => 5 <? x) x = true ->
        FindMatch (fun x => 5 <? x) a
        = Done (mkRet (SlotPtr (Z.of_nat (length before))) eNone)).
Proof.
  apply (FindMatch_first (fun x => 5 <? x) (mkArray [5; 6; 7] 2 3)).
  unfold well_formed, size_t_modulus. simpl. lia.
Defined.

Lemma Find_first_witness :
  let a := mkArray [5; 6; 7] 2 3 in
  ((forall x, In x (elements a) -> equal x 6 = false) ->
   Find a 6 = Done (mkRet nullptr eNotFound))
  /\ (forall before x after,
        elements a = before ++ x :: after ->
        (forall y, In y before -> equal y 6 = false) ->
        equal x 6 = true ->
        Find a 6 = Done (mkRet (SlotPtr (Z.of_nat (length before))) eNone)).
Proof.
  apply (Find_first (mkArray [5; 6; 7] 2 3) 6).
  unfold well_formed, size_t_modulus. simpl. lia.
Defined.

Lemma PushBack_then_Find_witness :
  let a := mkArray [5; 6; 0] 2 3 in
  exists a' slot x,
    PushBack a 7 = Done (eNone, a')
    /\ Find a' 7 = Done (mkRet (SlotPtr slot) eNone)
    /\ 0 <= slot <= mSize a
    /\ load a' slot = Done x
    /\ equal x 7 = true.
Proof.
  apply (PushBack_then_Find (mkArray [5; 6; 0] 2 3) 7).
  - unfold well_formed, size_t_modulus. simpl. lia.
  - simpl. lia.
  - reflexivity.
Defined.

(** ** [Remove] *)

Section RemoveFacts.
Context {T : Type}.
Implicit Types (a : Array T).

(** The loop of [Remove(T* item)], from the round [i] on: the items of
    the slots it passes move down by one. *)
Lemma Remove_loop (item : Z) : forall (n : nat) (i : Z) a,
  0 <= item -> 0 <= i ->
  item + i + Z.of_nat n + 1 <= Z.of_nat (length (mItems a)) ->
  i + Z.of_nat n <= int_max ->
  exists a',
    for_int n i (fun i b => x <- load b (item + 1 + i) ;; store b (item + i) x) a
    = Some (Done a')
    /\ mSize a' = mSize a
    /\ mMaxSize a' = mMaxSize a
    /\ length (mItems a') = length (mItems a)
    /\ forall j,
         slot_read (mItems a') j
         = if (item + i <=? j) && (j <? item + i + Z.of_nat n)
           then slot_read (mItems a) (j + 1)
           else slot_read (mItems a) j.
Proof.
  induction n as [|n IH]; intros i a Hitem Hi Hfits Hint.
  - exists a. cbn [for_int]. repeat split.
    intros j. destruct (Z.leb_spec (item + i) j), (Z.ltb_spec j (item + i + Z.of_nat 0));
      cbn [andb]; try reflexivity; lia.
  - cbn [for_int].
    destruct (slot_read_inside (mItems a) (item + 1 + i)) as (x & Hx); [lia|].
    rewrite (load_slot _ _ _ Hx). cbn [bind].
    destruct (store_slot a (item + i) x) as (a1 & Hstore & Hs1 & Hm1 & Hlen1 & Hread1); [lia|].
    rewrite Hstore.
    replace (i =? int_max) with false by (symmetry; apply Z.eqb_neq; lia).
    destruct (IH (i + 1) a1) as (a' & Hloop & Hs & Hm & Hlen & Hread);
      [lia|lia|rewrite Hlen1; lia|lia|].
    exists a'. split; [exact Hloop|].
    split; [congruence|]. split; [congruence|]. split; [congruence|].
    intros j. rewrite Hread, !Hread1.
    destruct (Z.leb_spec (item + (i + 1)) j), (Z.ltb_spec j (item + (i + 1) + Z.of_nat n)),
             (Z.leb_spec (item + i) j), (Z.ltb_spec j (item + i + Z.of_nat (S n))),
             (Z.eqb_spec (j + 1) (item + i)), (Z.eqb_spec j (item + i));
      cbn [andb]; try reflexivity; try lia.
    subst j. replace (item + i + 1) with (item + 1 + i) by lia.
    symmetry. exact Hx.
Qed.

(** [Remove] of the item of a slot below the size. *)
Lemma Remove_item a (item : Z) :
  well_formed a -> mMaxSize a <= int_max -> 0 <= item < mSize a ->
  exists a',
    Remove a item = Some (Done (mkRet (SlotPtr item) eNone, a'))
    /\ mSize a' = mSize a - 1
    /\ mMaxSize a' = mMaxSize a
    /\ well_formed a'
    /\ elements a'
       = firstn (Z.to_nat item) (elements a) ++ skipn (S (Z.to_nat item)) (elements a).
Proof.
  intros Hwf Hint Hitem. pose proof Hwf as (Hsize & Hbuf & Hmax).
  unfold Remove, begin_, end_.
  replace (item <? 0) with false by (symmetry; apply Z.ltb_ge; lia).
  replace (mSize a <? item) with false by (symmetry; apply Z.ltb_ge; lia).
  cbn [orb].
  destruct (Remove_loop item (Z.to_nat (mSize a - item - 1)) 0 a)
    as (a1 & Hloop & Hs1 & Hm1 & Hlen1 & Hread1); [lia|lia|lia|lia|].
  rewrite Hloop. cbn [and_then]. rewrite Hs1, wrap_size_small by lia.
  eexists. split; [reflexivity|]. cbn [SetSize mSize mMaxSize mItems].
  split; [reflexivity|]. split; [exact Hm1|].
  assert (Hwf' : well_formed (mkArray (mItems a1) (mSize a - 1) (mMaxSize a1)))
    by (unfold well_formed; cbn [mItems mSize mMaxSize]; rewrite Hm1, Hlen1; lia).
  split; [exact Hwf'|].
  pose proof (elements_length a Hwf) as Hlen.
  apply nth_error_ext. intros n.
  rewrite elements_nth by (unfold SetSize; cbn [mSize]; lia).
  unfold SetSize. cbn [mSize mItems].
  rewrite Hread1.
  assert (Hfirst : length (firstn (Z.to_nat item) (elements a)) = Z.to_nat item)
    by (rewrite length_firstn; lia).
  destruct (Z.ltb_spec (Z.of_nat n) (mSize a - 1)) as [Hn|Hn].
  - destruct (Z.leb_spec (item + 0) (Z.of_nat n)) as [Hhigh|Hlow].
    + replace (Z.of_nat n <? item + 0 + Z.of_nat (Z.to_nat (mSize a - item - 1)))
        with true by (symmetry; apply Z.ltb_lt; lia).
      cbn [andb]. rewrite nth_error_app2 by lia.
      rewrite Hfirst, nth_error_skipn.
      rewrite (slot_read_elements a (Z.of_nat n + 1) Hwf) by lia.
      f_equal. lia.
    + cbn [andb]. rewrite nth_error_app1 by lia.
      rewrite nth_error_firstn.
      replace (n <? Z.to_nat item)%nat with true by (symmetry; apply Nat.ltb_lt; lia).
      rewrite (slot_read_elements a (Z.of_nat n) Hwf) by lia.
      f_equal. lia.
  - rewrite nth_error_app2 by lia.
    rewrite Hfirst, nth_error_skipn. symmetry. apply nth_error_None. lia.
Qed.

(** X9.  [Remove(T* item)] of an item of the array returns its address
    with [eNone]; the array loses that item and no other, the items after
    it keep their order, and the size drops by one. *)
Theorem Remove_removes_item a (item : Z) :
  well_formed a -> mMaxSize a <= int_max -> 0 <= item < mSize a ->
  exists a',
    Remove a item = Some (Done (mkRet (SlotPtr item) eNone, a'))
    /\ mSize a' = mSize a - 1
    /\ mMaxSize a' = mMaxSize a
    /\ well_formed a'
    /\ elements a'
       = firstn (Z.to_nat item) (elements a) ++ skipn (S (Z.to_nat item)) (elements a).
Proof. apply Remove_item. Qed.

(** X10.  [Remove(T* item)] refuses a pointer before [begin()] or after
    [end()] with [eInvalidArgument] and leaves the array alone, but it
    accepts [end()] itself, which points at no item: it then returns
    [end()] with [eNone] and drops the last item, and on an empty array the
    size wraps to [2^64 - 1], past the capacity. *)
Theorem Remove_bounds a (item : Z) :
  well_formed a ->
  (item < 0 \/ mSize a < item ->
   Remove a item = Some (Done (mkRet nullptr eInvalidArgument, a)))
  /\ (item = mSize a ->
      Remove a item
      = Some (Done (mkRet (SlotPtr (mSize a)) eNone,
                    SetSize a (wrap_size (mSize a - 1)))))
  /\ (0 < mSize a ->
      elements (SetSize a (wrap_size (mSize a - 1)))
      = firstn (Z.to_nat (mSize a - 1)) (elements a))
  /\ (mSize a = 0 ->
      mSize (SetSize a (wrap_size (mSize a - 1))) = size_t_modulus - 1
      /\ (mMaxSize a < size_t_modulus - 1 ->
          ~ well_formed (SetSize a (wrap_size (mSize a - 1))))).
Proof.
  intros (Hsize & Hbuf & Hmax). unfold Remove, begin_, end_. split; [|split; [|split]].
  - intros [Hlow|Hhigh].
    + rewrite (proj2 (Z.ltb_lt _ _) Hlow). reflexivity.
    + rewrite (proj2 (Z.ltb_lt _ _) Hhigh), orb_true_r. reflexivity.
  - intros ->.
    replace (mSize a <? 0) with false by (symmetry; apply Z.ltb_ge; lia).
    rewrite Z.ltb_irrefl. cbn [orb].
    replace (Z.to_nat (mSize a - mSize a - 1)) with 0%nat by lia.
    reflexivity.
  - intros Hpos. rewrite wrap_size_small by lia.
    unfold elements, SetSize. cbn [mItems mSize]. rewrite firstn_firstn. f_equal. lia.
  - intros Hempty. rewrite Hempty.
    change (wrap_size (0 - 1)) with (size_t_modulus - 1).
    split; [reflexivity|]. unfold well_formed, SetSize. cbn [mItems mSize mMaxSize]. lia.
Qed.

End RemoveFacts.

Lemma Remove_removes_item_witness :
  let a := mkArray [5; 6; 7; 0] 3 4 in
  exists a',
    Remove a 1 = Some (Done (mkRet (SlotPtr 1) eNone, a'))
    /\ mSize a' = mSize a - 1
    /\ mMaxSize a' = mMaxSize a
    /\ well_formed a'
    /\ elements a'
       = firstn (Z.to_nat 1) (elements a) ++ skipn (S (Z.to_nat 1)) (elements a).
Proof.
  apply (Remove_removes_item (mkArray [5; 6; 7; 0] 3 4) 1).
  - unfold well_formed, size_t_modulus. simpl. lia.
  - unfold int_max. simpl. lia.
  - simpl. lia.
Defined.

Lemma Remove_bounds_witness :
  let a := mkArray [5; 6; 7; 0] 3 4 in
  (3 < 0 \/ mSize a < 3 ->
   Remove a 3 = Some (Done (mkRet nullptr eInvalidArgument, a)))
  /\ (3 = mSize a ->
      Remove a 3
      = Some (Done (mkRet (SlotPtr (mSize a)) eNone,
                    SetSize a (wrap_size (mSize a - 1)))))
  /\ (0 < mSize a ->
      elements (SetSize a (wrap_size (mSize a - 1)))
      = firstn (Z.to_nat (mSize a - 1)) (elements a))
  /\ (mSize a = 0 ->
      mSize (SetSize a (wrap_size (mSize a - 1))) = size_t_modulus - 1
      /\ (mMaxSize a < size_t_modulus - 1 ->
          ~ well_formed (SetSize a (wrap_size (mSize a - 1))))).
Proof.
  apply (Remove_bounds (mkArray [5; 6; 7; 0] 3 4) 3).
  unfold well_formed, size_t_modulus. simpl. lia.
Defined.

Section RemoveMatchFacts.
Context {T : Type}.
Implicit Types (a : Array T).

Lemma firstn_S_nth_error (l : list T) : forall n x,
  nth_error l n = Some x -> firstn (S n) l = firstn n l ++ [x].
Proof.
  induction l as [|y rest IH]; intros [|n] x H; simpl in *; try discriminate.
  - injection H as ->. reflexivity.
  - rewrite (IH n x H). reflexivity.
Qed.

Lemma firstn_of_firstn_app (l r : list T) (n : nat) :
  (n <= length l)%nat -> firstn n (firstn n l ++ r) = firstn n l.
Proof.
  intros Hn.
  assert (Hlen : length (firstn n l) = n) by (rewrite length_firstn; lia).
  rewrite firstn_app, Hlen, Nat.sub_diag, firstn_O, app_nil_r.
  rewrite firstn_firstn. f_equal. lia.
Qed.

Lemma skipn_of_firstn_app (l r : list T) (n : nat) :
  (n <= length l)%nat -> skipn n (firstn n l ++ r) = r.
Proof.
  intros Hn.
  assert (Hlen : length (firstn n l) = n) by (rewrite length_firstn; lia).
  rewrite skipn_app, Hlen, Nat.sub_diag. cbn [skipn].
  rewrite skipn_all2 by lia. reflexivity.
Qed.

(** The loop of [Remove(P match)] from [it] on, with [n] items between
    [it] and [end()]: the items before [it] stay, and of the others the
    ones that do not match. *)
Lemma RemoveMatch_from_filter (match_ : T -> bool) : forall (n : nat) (it : Z) a,
  well_formed a -> mMaxSize a <= int_max ->
  0 <= it -> it + Z.of_nat n = mSize a ->
  exists a',
    RemoveMatch_from match_ n it a
    = Some (Done (mkRet (SlotPtr (mSize a')) eNone, a'))
    /\ well_formed a'
    /\ mMaxSize a' = mMaxSize a
    /\ elements a'
       = firstn (Z.to_nat it) (elements a)
         ++ filter (fun x => negb (match_ x)) (skipn (Z.to_nat it) (elements a)).
Proof.
  induction n as [|n IH]; intros it a Hwf Hint Hit Hcount.
  - exists a. cbn [RemoveMatch_from]. unfold end_, RetValue.
    pose proof (elements_length a Hwf) as Hlen.
    split; [reflexivity|]. split; [exact Hwf|]. split; [reflexivity|].
    rewrite firstn_all2, skipn_all2 by lia. cbn [filter]. rewrite app_nil_r. reflexivity.
  - pose proof Hwf as (Hsize & Hbuf & Hmax).
    pose proof (elements_length a Hwf) as Hlen.
    destruct (load_inside a it) as (x & Hload & Hnth); [lia|].
    pose proof (elements_in_buffer a it x ltac:(lia) Hnth) as Hx.
    cbn [RemoveMatch_from]. rewrite Hload.
    rewrite (skipn_nth_error _ _ _ Hx). cbn [filter].
    destruct (match_ x); cbn [negb].
    + destruct (Remove_item a it Hwf Hint ltac:(lia))
        as (a1 & Hremove & Hs1 & Hm1 & Hwf1 & Hels1).
      rewrite Hremove. cbn [and_then fst snd mError mValue IsNone negb].
      destruct (IH it a1 Hwf1 ltac:(lia) Hit ltac:(lia))
        as (a' & Hloop & Hwf' & Hm' & Hels').
      exists a'. split; [exact Hloop|]. split; [exact Hwf'|].
      split; [congruence|].
      rewrite Hels', Hels1.
      rewrite firstn_of_firstn_app, skipn_of_firstn_app by lia. reflexivity.
    + destruct (IH (it + 1) a Hwf Hint ltac:(lia) ltac:(lia))
        as (a' & Hloop & Hwf' & Hm' & Hels').
      exists a'. split; [exact Hloop|]. split; [exact Hwf'|].
      split; [exact Hm'|].
      rewrite Hels'. replace (Z.to_nat (it + 1)) with (S (Z.to_nat it)) by lia.
      rewrite (firstn_S_nth_error _ _ _ Hx), <- app_assoc. reflexivity.
Qed.

(** X11.  [Remove(P match)] removes from the array every item that
    satisfies the predicate and no other, keeps the order of the items that
    stay, and returns the new [end()] with [eNone]. *)
Theorem RemoveMatch_filters (match_ : T -> bool) a :
  well_formed a -> mMaxSize a <= int_max ->
  exists a',
    RemoveMatch match_ a = Some (Done (mkRet (SlotPtr (mSize a')) eNone, a'))
    /\ elements a' = filter (fun x => negb (match_ x)) (elements a)
    /\ well_formed a'
    /\ mMaxSize a' = mMaxSize a.
Proof.
  intros Hwf Hint. pose proof Hwf as (Hsize & _).
  destruct (RemoveMatch_from_filter match_ (Z.to_nat (mSize a)) 0 a Hwf Hint)
    as (a' & Hloop & Hwf' & Hm' & Hels'); [lia|lia|].
  exists a'. split; [exact Hloop|]. split; [exact Hels'|]. split; assumption.
Qed.

End RemoveMatchFacts.

Lemma RemoveMatch_filters_witness :
  let a := mkArray [2; 1; 2; 2; 3; 0] 5 6 in
  exists a',
    RemoveMatch (fun x => x =? 2) a
    = Some (Done (mkRet (SlotPtr (mSize a')) eNone, a'))
    /\ elements a' = filter (fun x => negb (x =? 2)) (elements a)
    /\ well_formed a'
    /\ mMaxSize a' = mMaxSize a.
Proof.
  apply (RemoveMatch_filters (fun x => x =? 2) (mkArray [2; 1; 2; 2; 3; 0] 5 6)).
  - unfold well_formed, size_t_modulus. simpl. lia.
  - unfold int_max. simpl. lia.
Defined.

(** ** [Insert] *)

Section InsertFacts.
Context {T : Type}.
Implicit Types (a b : Array T) (buffer : range_buffer T).

(** The first loop of [Insert], from the round [i] on.  [a] is the array
    before the loop and [b] the one the rounds before [i] left: the slot
    [pos + k + r] of a round [r] holds the old item of the slot
    [pos + r mod k], because the rounds from [k] on read slots that earlier
    rounds wrote. *)
Lemma Insert_shift_loop a (pos k : Z) : forall (n : nat) (i : Z) b,
  0 <= pos -> 0 < k -> 0 <= i ->
  pos + k + i + Z.of_nat n <= Z.of_nat (length (mItems a)) ->
  i + Z.of_nat n <= int_max ->
  mSize b = mSize a -> mMaxSize b = mMaxSize a ->
  length (mItems b) = length (mItems a) ->
  (forall j, slot_read (mItems b) j
             = if (pos + k <=? j) && (j <? pos + k + i)
               then slot_read (mItems a) (pos + (j - pos - k) mod k)
               else slot_read (mItems a) j) ->
  exists b',
    for_int n i (fun i b => x <- load b (pos + i) ;; store b (pos + k + i) x) b
    = Some (Done b')
    /\ mSize b' = mSize a /\ mMaxSize b' = mMaxSize a
    /\ length (mItems b') = length (mItems a)
    /\ forall j, slot_read (mItems b') j
                 = if (pos + k <=? j) && (j <? pos + k + (i + Z.of_nat n))
                   then slot_read (mItems a) (pos + (j - pos - k) mod k)
                   else slot_read (mItems a) j.
Proof.
  induction n as [|n IH]; intros i b Hpos Hk Hi Hfits Hint Hs Hm Hlen Hread.
  - exists b. cbn [for_int]. rewrite Z.add_0_r. repeat split; assumption.
  - cbn [for_int].
    pose proof (Z.mod_pos_bound i k Hk) as Hmod.
    destruct (slot_read_inside (mItems a) (pos + i mod k)) as (x & Hx); [lia|].
    assert (Hload : slot_read (mItems b) (pos + i) = Some x).
    { rewrite Hread.
      destruct (Z.leb_spec (pos + k) (pos + i)) as [Hhigh|Hlow].
      - replace (pos + i <? pos + k + i) with true by (symmetry; apply Z.ltb_lt; lia).
        cbn [andb].
        replace (pos + i - pos - k) with (i + (-1) * k) by lia.
        rewrite Z.mod_add by lia. exact Hx.
      - cbn [andb]. rewrite Z.mod_small in Hx by lia. exact Hx. }
    rewrite (load_slot _ _ _ Hload). cbn [bind].
    destruct (store_slot b (pos + k + i) x) as (b1 & Hstore & Hs1 & Hm1 & Hlen1 & Hread1);
      [lia|].
    rewrite Hstore.
    replace (i =? int_max) with false by (symmetry; apply Z.eqb_neq; lia).
    destruct (IH (i + 1) b1) as (b' & Hloop & Hs' & Hm' & Hlen' & Hread');
      try lia; try congruence.
    + intros j. rewrite Hread1, Hread.
      destruct (Z.eqb_spec j (pos + k + i)) as [->|Hne].
      * replace (pos + k <=? pos + k + i) with true by (symmetry; apply Z.leb_le; lia).
        replace (pos + k + i <? pos + k + (i + 1)) with true
          by (symmetry; apply Z.ltb_lt; lia).
        cbn [andb]. replace (pos + k + i - pos - k) with i by lia.
        symmetry. exact Hx.
      * destruct (Z.leb_spec (pos + k) j), (Z.ltb_spec j (pos + k + i)),
                 (Z.ltb_spec j (pos + k + (i + 1)));
          cbn [andb]; try reflexivity; lia.
    + exists b'. split; [exact Hloop|]. repeat (split; [assumption|]).
      intros j. rewrite Hread'.
      replace (i + 1 + Z.of_nat n) with (i + Z.of_nat (S n)) by lia. reflexivity.
Qed.

(** The second loop of [Insert], from the round [i] on, when the items it
    reads are those of [src], whatever the rounds before wrote: [b] is the
    array the first loop left, and a later state differs from it from [pos]
    on only. *)
Lemma Insert_copy_loop buffer (pos from : Z) (src : list T) :
  forall (n : nat) (i : Z) b,
  0 <= pos -> 0 <= i -> 0 <= from ->
  pos + i + Z.of_nat n <= Z.of_nat (length (mItems b)) ->
  from + i + Z.of_nat n <= Z.of_nat (length src) ->
  i + Z.of_nat n <= int_max ->
  (forall b' r,
     from + i <= r < from + i + Z.of_nat n ->
     (forall j, j < pos -> slot_read (mItems b') j = slot_read (mItems b) j) ->
     range_load buffer b' r
     = match slot_read src r with
       | Some x => Done x
       | None => OutOfBounds r
       end) ->
  exists b',
    for_int n i (fun i b => x <- range_load buffer b (from + i) ;; store b (pos + i) x) b
    = Some (Done b')
    /\ mSize b' = mSize b /\ mMaxSize b' = mMaxSize b
    /\ length (mItems b') = length (mItems b)
    /\ forall j, slot_read (mItems b') j
                 = if (pos + i <=? j) && (j <? pos + i + Z.of_nat n)
                   then slot_read src (from + (j - pos))
                   else slot_read (mItems b) j.
Proof.
  induction n as [|n IH]; intros i b Hpos Hi Hfrom Hfits Hsrc Hint Hload.
  - exists b. cbn [for_int]. repeat split.
    intros j. destruct (Z.leb_spec (pos + i) j), (Z.ltb_spec j (pos + i + Z.of_nat 0));
      cbn [andb]; try reflexivity; lia.
  - cbn [for_int].
    destruct (slot_read_inside src (from + i)) as (x & Hx); [lia|].
    rewrite (Hload b (from + i)) by (try reflexivity; lia). rewrite Hx. cbn [bind].
    destruct (store_slot b (pos + i) x) as (b1 & Hstore & Hs1 & Hm1 & Hlen1 & Hread1);
      [lia|].
    rewrite Hstore.
    replace (i =? int_max) with false by (symmetry; apply Z.eqb_neq; lia).
    destruct (IH (i + 1) b1) as (b' & Hloop & Hs' & Hm' & Hlen' & Hread');
      [lia|lia|lia|rewrite Hlen1; lia|lia|lia| |].
    { intros b' r Hr Hsame. apply Hload; [lia|]. intros j Hj. rewrite Hsame by exact Hj.
      rewrite Hread1. replace (j =? pos + i) with false by (symmetry; apply Z.eqb_neq; lia).
      reflexivity. }
    exists b'. split; [exact Hloop|].
    split; [congruence|]. split; [congruence|]. split; [congruence|].
    intros j. rewrite Hread', Hread1.
    destruct (Z.eqb_spec j (pos + i)) as [->|Hne].
    + replace (pos + (i + 1) <=? pos + i) with false by (symmetry; apply Z.leb_gt; lia).
      replace (pos + i <=? pos + i) with true by (symmetry; apply Z.leb_le; lia).
      replace (pos + i <? pos + i + Z.of_nat (S n)) with true
        by (symmetry; apply Z.ltb_lt; lia).
      cbn [andb]. replace (from + (pos + i - pos)) with (from + i) by lia.
      symmetry. exact Hx.
    + destruct (Z.leb_spec (pos + (i + 1)) j),
               (Z.ltb_spec j (pos + (i + 1) + Z.of_nat n)),
               (Z.leb_spec (pos + i) j),
               (Z.ltb_spec j (pos + i + Z.of_nat (S n)));
        cbn [andb]; try reflexivity; lia.
Qed.

(** [Insert] of a range with items that is apart from the slots it
    writes, slot by slot. *)
Lemma Insert_slots a (pos : Z) buffer (from till : Z) :
  well_formed a -> mMaxSize a <= int_max ->
  range_apart buffer a pos from till -> from < till ->
  0 <= pos <= mSize a ->
  mSize a + (till - from) <= mMaxSize a ->
  exists a',
    Insert a pos buffer from till = Some (Done (eNone, a'))
    /\ mSize a' = mSize a + (till - from)
    /\ mMaxSize a' = mMaxSize a
    /\ well_formed a'
    /\ forall j,
         slot_read (mItems a') j
         = if j <? pos then slot_read (mItems a) j
           else if j <? pos + (till - from)
                then slot_read (range_slots buffer a) (from + (j - pos))
                else if j <? mSize a + (till - from)
                     then slot_read (mItems a)
                            (pos + (j - pos - (till - from)) mod (till - from))
                     else slot_read (mItems a) j.
Proof.
  intros Hwf Hint (Hrange & Htill & Hapart) Hitems Hpos Hfits.
  pose proof Hwf as (Hsize & Hbuf & Hmax).
  unfold Insert, begin_, end_.
  rewrite wrap_size_small by lia.
  replace (mMaxSize a <? mSize a + (till - from)) with false
    by (symmetry; apply Z.ltb_ge; lia).
  replace (pos <? 0) with false by (symmetry; apply Z.ltb_ge; lia).
  replace (mSize a <? pos) with false by (symmetry; apply Z.ltb_ge; lia).
  cbn [orb].
  destruct (Insert_shift_loop a pos (till - from) (Z.to_nat (mSize a - pos)) 0 a)
    as (a1 & Hloop1 & Hs1 & Hm1 & Hlen1 & Hread1); try lia; try reflexivity.
  { intros j.
    destruct (Z.leb_spec (pos + (till - from)) j),
             (Z.ltb_spec j (pos + (till - from) + 0));
      cbn [andb]; try reflexivity; lia. }
  rewrite Hloop1. cbn [and_then].
  destruct (Insert_copy_loop buffer pos from (range_slots buffer a)
              (Z.to_nat (till - from)) 0 a1)
    as (a2 & Hloop2 & Hs2 & Hm2 & Hlen2 & Hread2); try lia.
  { intros b' r Hr Hsame. destruct buffer as [|slots]; [|reflexivity].
    cbn [range_load range_slots]. unfold load.
    rewrite Hsame, Hread1 by lia.
    replace (pos + (till - from) <=? r) with false by (symmetry; apply Z.leb_gt; lia).
    reflexivity. }
  rewrite Hloop2. cbn [and_then].
  rewrite Hs2, Hs1, wrap_size_small by lia.
  eexists. split; [reflexivity|]. unfold SetSize. cbn [mItems mSize mMaxSize].
  split; [reflexivity|]. split; [congruence|].
  split; [unfold well_formed; cbn [mItems mSize mMaxSize]; rewrite Hm2, Hm1, Hlen2, Hlen1; lia|].
  intros j. rewrite Hread2, Hread1.
  rewrite ?Z.add_0_r, ?Z.add_0_l, ?Z.sub_0_r. rewrite !Z2Nat.id by lia.
  replace (pos + (till - from) + (mSize a - pos))
    with (mSize a + (till - from)) by lia.
  destruct (Z.ltb_spec j pos), (Z.leb_spec pos j),
           (Z.ltb_spec j (pos + (till - from))),
           (Z.leb_spec (pos + (till - from)) j),
           (Z.ltb_spec j (mSize a + (till - from)));
    cbn [andb]; try reflexivity; try lia.
Qed.

End InsertFacts.

Section InsertResults.
Context {T : Type}.
Implicit Types (a : Array T) (buffer : range_buffer T).

(** The items of a range, index by index. *)
Lemma range_items_nth buffer a (from till : Z) (n : nat) :
  0 <= from <= till ->
  till <= Z.of_nat (length (range_slots buffer a)) ->
  nth_error (range_items buffer a from till) n
  = if Z.of_nat n <? till - from
    then slot_read (range_slots buffer a) (from + Z.of_nat n)
    else None.
Proof.
  intros Hrange Htill. unfold range_items.
  rewrite nth_error_firstn, nth_error_skipn, slot_read_nth_error.
  replace (0 <=? from + Z.of_nat n) with true by (symmetry; apply Z.leb_le; lia).
  replace (Z.to_nat (from + Z.of_nat n)) with (Z.to_nat from + n)%nat by lia.
  destruct (Nat.ltb_spec n (Z.to_nat (till - from))), (Z.ltb_spec (Z.of_nat n) (till - from));
    try reflexivity; lia.
Qed.

Lemma range_items_length buffer a (from till : Z) :
  0 <= from <= till ->
  till <= Z.of_nat (length (range_slots buffer a)) ->
  Z.of_nat (length (range_items buffer a from till)) = till - from.
Proof.
  intros Hrange Htill. unfold range_items. rewrite length_firstn, length_skipn. lia.
Qed.

(** X12.  [Insert] of a range that is apart from the slots [Insert]
    writes (a range of another buffer, or of the array's own items that
    ends at or before the position), at a position from which no more
    items follow than the range has (at [end()] in particular, where it
    appends), returns [eNone]: the array holds the items before the
    position, the range, and the items from the position on, in this
    order. *)
Theorem Insert_inserts a (pos : Z) buffer (from till : Z) :
  well_formed a -> mMaxSize a <= int_max ->
  range_apart buffer a pos from till ->
  0 <= pos <= mSize a ->
  mSize a + (till - from) <= mMaxSize a ->
  mSize a - pos <= till - from ->
  exists a',
    Insert a pos buffer from till = Some (Done (eNone, a'))
    /\ elements a'
       = firstn (Z.to_nat pos) (elements a)
         ++ range_items buffer a from till
         ++ skipn (Z.to_nat pos) (elements a)
    /\ mSize a' = mSize a + (till - from)
    /\ mMaxSize a' = mMaxSize a
    /\ well_formed a'.
Proof.
  intros Hwf Hint Hrange Hpos Hfits Htail. pose proof Hwf as (Hsize & Hbuf & Hmax).
  pose proof (elements_length a Hwf) as Hlen.
  pose proof Hrange as (Hft & Htill & _).
  pose proof (range_items_length buffer a from till Hft Htill) as Hk.
  destruct (Z.eq_dec from till) as [->|Hne].
  - assert (pos = mSize a) by lia. subst pos.
    unfold Insert, begin_, end_. rewrite !Z.sub_diag.
    rewrite Z.add_0_r, wrap_size_small by lia.
    replace (mMaxSize a <? mSize a) with false by (symmetry; apply Z.ltb_ge; lia).
    replace (mSize a <? 0) with false by (symmetry; apply Z.ltb_ge; lia).
    rewrite Z.ltb_irrefl.
    cbn [orb Z.to_nat for_int and_then].
    rewrite Z.add_0_r, wrap_size_small by lia.
    eexists. split; [reflexivity|]. unfold SetSize.
    split; [|split; [cbn [mSize]; lia|split; [reflexivity|destruct a; exact Hwf]]].
    unfold range_items. rewrite Z.sub_diag. cbn [Z.to_nat firstn app].
    rewrite firstn_skipn. destruct a; reflexivity.
  - destruct (Insert_slots a pos buffer from till Hwf Hint Hrange ltac:(lia) Hpos Hfits)
      as (a' & Hinsert & Hs' & Hm' & Hwf' & Hread).
    exists a'. split; [exact Hinsert|].
    split; [|split; [exact Hs'|split; [exact Hm'|exact Hwf']]].
    assert (Hfirst : length (firstn (Z.to_nat pos) (elements a)) = Z.to_nat pos)
      by (rewrite length_firstn; lia).
    apply nth_error_ext. intros n.
    rewrite elements_nth by lia. rewrite Hs', Hread.
    destruct (Z.ltb_spec (Z.of_nat n) (mSize a + (till - from))) as [Hn|Hn].
    + destruct (Z.ltb_spec (Z.of_nat n) pos) as [Hlow|Hmid].
      * rewrite nth_error_app1 by lia. rewrite nth_error_firstn.
        replace (n <? Z.to_nat pos)%nat with true by (symmetry; apply Nat.ltb_lt; lia).
        rewrite (slot_read_elements a (Z.of_nat n) Hwf) by lia.
        rewrite Nat2Z.id. reflexivity.
      * rewrite nth_error_app2 by lia. rewrite Hfirst.
        destruct (Z.ltb_spec (Z.of_nat n) (pos + (till - from))) as [Hin|Hout].
        -- rewrite nth_error_app1 by lia.
           rewrite range_items_nth by assumption.
           replace (Z.of_nat (n - Z.to_nat pos) <? till - from) with true
             by (symmetry; apply Z.ltb_lt; lia).
           f_equal. lia.
        -- rewrite nth_error_app2 by lia. rewrite nth_error_skipn.
           rewrite Z.mod_small by lia.
           rewrite (slot_read_elements a _ Hwf) by lia.
           f_equal. lia.
    + symmetry. apply nth_error_None.
      rewrite !length_app, Hfirst, length_skipn. lia.
Qed.

(** X13.  [Insert] of a range with items that is apart from the slots
    [Insert] writes, at any position of the array, returns [eNone] and the
    size grows by the length of the range; the items before the position
    stay and the range follows them, but an item behind the range is the
    old item of the slot [pos + r mod k], for its distance [r] from the end
    of the range and the length [k] of the range: the loop that makes room
    copies upwards from the lowest slot, so that with more than [k] items
    behind the position it copies items it has already overwritten. *)
Theorem Insert_repeats_tail a (pos : Z) buffer (from till : Z) :
  well_formed a -> mMaxSize a <= int_max ->
  range_apart buffer a pos from till -> from < till ->
  0 <= pos <= mSize a ->
  mSize a + (till - from) <= mMaxSize a ->
  exists a',
    Insert a pos buffer from till = Some (Done (eNone, a'))
    /\ mSize a' = mSize a + (till - from)
    /\ forall j,
         0 <= j < mSize a + (till - from) ->
         nth_error (elements a') (Z.to_nat j)
         = if j <? pos then nth_error (elements a) (Z.to_nat j)
           else if j <? pos + (till - from)
                then nth_error (range_items buffer a from till) (Z.to_nat (j - pos))
                else nth_error (elements a)
                       (Z.to_nat (pos + (j - pos - (till - from)) mod (till - from))).
Proof.
  intros Hwf Hint Hrange Hitems Hpos Hfits.
  destruct (Insert_slots a pos buffer from till Hwf Hint Hrange Hitems Hpos Hfits)
    as (a' & Hinsert & Hs' & Hm' & Hwf' & Hread).
  destruct Hrange as (Hft & Htill & _).
  exists a'. split; [exact Hinsert|]. split; [exact Hs'|].
  intros j Hj. rewrite <- (slot_read_elements a' j Hwf') by lia.
  rewrite Hread.
  destruct (Z.ltb_spec j pos) as [Hlow|Hmid].
  - apply slot_read_elements; [exact Hwf|lia].
  - destruct (Z.ltb_spec j (pos + (till - from))) as [Hin|Hout].
    + rewrite range_items_nth by assumption. rewrite Z2Nat.id by lia.
      replace (j - pos <? till - from) with true by (symmetry; apply Z.ltb_lt; lia).
      reflexivity.
    + replace (j <? mSize a + (till - from)) with true
        by (symmetry; apply Z.ltb_lt; lia).
      pose proof (Z.mod_pos_bound (j - pos - (till - from)) (till - from) ltac:(lia))
        as Hmod.
      apply slot_read_elements; [exact Hwf|].
      destruct (Z.le_gt_cases (till - from) (mSize a - pos)) as [Hlong|Hshort].
      * lia.
      * rewrite Z.mod_small by lia. lia.
Qed.

(** X14.  [Insert] of one item, read from another buffer or from a slot
    of the array before the position, in front of an item of the array
    keeps the items before the position and puts the item in, and every
    slot behind it, up to the new size, receives the item that was at the
    position: the items that followed it are lost. *)
Theorem Insert_one_in_front a (pos : Z) buffer (from : Z) (item old : T) :
  well_formed a -> mMaxSize a <= int_max ->
  range_apart buffer a pos from (from + 1) ->
  0 <= pos < mSize a ->
  mSize a + 1 <= mMaxSize a ->
  nth_error (range_slots buffer a) (Z.to_nat from) = Some item ->
  nth_error (elements a) (Z.to_nat pos) = Some old ->
  exists a',
    Insert a pos buffer from (from + 1) = Some (Done (eNone, a'))
    /\ elements a'
       = firstn (Z.to_nat pos) (elements a)
         ++ item :: repeat old (Z.to_nat (mSize a - pos)).
Proof.
  intros Hwf Hint Hrange Hpos Hfits Hitem Hold. pose proof Hwf as (Hsize & Hbuf & Hmax).
  pose proof (elements_length a Hwf) as Hlen.
  destruct (Insert_slots a pos buffer from (from + 1) Hwf Hint Hrange
              ltac:(lia) ltac:(lia) ltac:(lia))
    as (a' & Hinsert & Hs' & Hm' & Hwf' & Hread).
  destruct Hrange as (Hft & Htill & _).
  replace (from + 1 - from) with 1 in * by lia.
  exists a'. split; [exact Hinsert|].
  assert (Hfirst : length (firstn (Z.to_nat pos) (elements a)) = Z.to_nat pos)
    by (rewrite length_firstn; lia).
  apply nth_error_ext. intros n.
  rewrite elements_nth by lia. rewrite Hs', Hread.
  destruct (Z.ltb_spec (Z.of_nat n) (mSize a + 1)) as [Hn|Hn].
  - destruct (Z.ltb_spec (Z.of_nat n) pos) as [Hlow|Hmid].
    + rewrite nth_error_app1 by lia. rewrite nth_error_firstn.
      replace (n <? Z.to_nat pos)%nat with true by (symmetry; apply Nat.ltb_lt; lia).
      rewrite (slot_read_elements a (Z.of_nat n) Hwf) by lia.
      rewrite Nat2Z.id. reflexivity.
    + rewrite nth_error_app2 by lia. rewrite Hfirst.
      destruct (Z.ltb_spec (Z.of_nat n) (pos + 1)) as [Hin|Hout].
      * replace (from + (Z.of_nat n - pos)) with from by lia.
        replace (n - Z.to_nat pos)%nat with 0%nat by lia. cbn [nth_error].
        rewrite slot_read_nth_error.
        replace (0 <=? from) with true by (symmetry; apply Z.leb_le; lia).
        exact Hitem.
      * rewrite Z.mod_1_r, Z.add_0_r.
        rewrite (slot_read_elements a pos Hwf) by lia. rewrite Hold.
        destruct (n - Z.to_nat pos)%nat as [|m] eqn:Hm; [lia|].
        cbn [nth_error]. symmetry. apply nth_error_repeat. lia.
  - symmetry. apply nth_error_None.
    rewrite length_app, Hfirst. cbn [length]. rewrite repeat_length. lia.
Qed.

(** X15.  [Insert] checks the room before the position: a range that does
    not fit is refused with [eNoMemory] whatever the position, and a range
    that fits, with a position before [begin()] or after [end()], with
    [eInvalidArgument]; the array is left as it is. *)
Theorem Insert_refuses a (pos : Z) buffer (from till : Z) :
  well_formed a ->
  0 <= mSize a + (till - from) < size_t_modulus ->
  (mMaxSize a < mSize a + (till - from) ->
   Insert a pos buffer from till = Some (Done (eNoMemory, a)))
  /\ (mSize a + (till - from) <= mMaxSize a ->
      pos < 0 \/ mSize a < pos ->
      Insert a pos buffer from till = Some (Done (eInvalidArgument, a))).
Proof.
  intros (Hsize & Hbuf & Hmax) Hnowrap. unfold Insert, begin_, end_.
  rewrite wrap_size_small by lia. split.
  - intros Hover. rewrite (proj2 (Z.ltb_lt _ _) Hover). reflexivity.
  - intros Hfits Hout.
    replace (mMaxSize a <? mSize a + (till - from)) with false
      by (symmetry; apply Z.ltb_ge; lia).
    destruct Hout as [Hlow|Hhigh].
    + rewrite (proj2 (Z.ltb_lt _ _) Hlow). reflexivity.
    + rewrite (proj2 (Z.ltb_lt _ _) Hhigh), orb_true_r. reflexivity.
Qed.

End InsertResults.

(** A range among the slots [Insert] writes: the second loop reads what
    the loops have written.  Two of the array's own items inserted behind
    them, and one inserted in front of itself. *)
Example Insert_own_range_overwritten :
  option_map (fun r => match r with Done (err, a') => Some (err, elements a') | _ => None end)
             (Insert (mkArray [1; 2; 3; 0; 0; 0] 3 6) 2 own_buffer 1 3)
  = Some (Some (eNone, [1; 2; 2; 2; 3]))
  /\ option_map (fun r => match r with Done (err, a') => Some (err, elements a') | _ => None end)
                (Insert (mkArray [1; 2; 3; 0; 0; 0] 3 6) 0 own_buffer 1 2)
     = Some (Some (eNone, [1; 1; 1; 1])).
Proof. split; reflexivity. Qed.

Lemma Insert_inserts_witness :
  let a := mkArray [1; 2; 3; 0; 0; 0] 3 6 in
  exists a',
    Insert a 1 (other_buffer [7; 8]) 0 2 = Some (Done (eNone, a'))
    /\ elements a'
       = firstn (Z.to_nat 1) (elements a)
         ++ range_items (other_buffer [7; 8]) a 0 2
         ++ skipn (Z.to_nat 1) (elements a)
    /\ mSize a' = mSize a + (2 - 0)
    /\ mMaxSize a' = mMaxSize a
    /\ well_formed a'.
Proof.
  apply (Insert_inserts (mkArray [1; 2; 3; 0; 0; 0] 3 6) 1 (other_buffer [7; 8]) 0 2).
  - unfold well_formed, size_t_modulus. simpl. lia.
  - unfold int_max. simpl. lia.
  - unfold range_apart. simpl. lia.
  - simpl. lia.
  - simpl. lia.
  - simpl. lia.
Defined.

Lemma Insert_repeats_tail_witness :
  let a := mkArray [1; 2; 3; 4; 0; 0] 4 6 in
  exists a',
    Insert a 2 own_buffer 0 2 = Some (Done (eNone, a'))
    /\ mSize a' = mSize a + (2 - 0)
    /\ forall j,
         0 <= j < mSize a + (2 - 0) ->
         nth_error (elements a') (Z.to_nat j)
         = if j <? 2 then nth_error (elements a) (Z.to_nat j)
           else if j <? 2 + (2 - 0)
                then nth_error (range_items own_buffer a 0 2) (Z.to_nat (j - 2))
                else nth_error (elements a)
                       (Z.to_nat (2 + (j - 2 - (2 - 0)) mod (2 - 0))).
Proof.
  apply (Insert_repeats_tail (mkArray [1; 2; 3; 4; 0; 0] 4 6) 2 own_buffer 0 2).
  - unfold well_formed, size_t_modulus. simpl. lia.
  - unfold int_max. simpl. lia.
  - unfold range_apart. simpl. lia.
  - lia.
  - simpl. lia.
  - simpl. lia.
Defined.

Lemma Insert_one_in_front_witness :
  let a := mkArray [1; 2; 3; 0; 0; 0] 3 6 in
  exists a',
    Insert a 0 (other_buffer [7]) 0 (0 + 1) = Some (Done (eNone, a'))
    /\ elements a'
       = firstn (Z.to_nat 0) (elements a) ++ 7 :: repeat 1 (Z.to_nat (mSize a - 0)).
Proof.
  apply (Insert_one_in_front (mkArray [1; 2; 3; 0; 0; 0] 3 6) 0 (other_buffer [7]) 0 7 1).
  - unfold well_formed, size_t_modulus. simpl. lia.
  - unfold int_max. simpl. lia.
  - unfold range_apart. simpl. lia.
  - simpl. lia.
  - simpl. lia.
  - reflexivity.
  - reflexivity.
Defined.

Lemma Insert_refuses_witness :
  let a := mkArray [1; 2; 3; 0] 3 4 in
  (mMaxSize a < mSize a + (2 - 0) ->
   Insert a 9 (other_buffer [7; 8]) 0 2 = Some (Done (eNoMemory, a)))
  /\ (mSize a + (2 - 0) <= mMaxSize a ->
      9 < 0 \/ mSize a < 9 ->
      Insert a 9 (other_buffer [7; 8]) 0 2 = Some (Done (eInvalidArgument, a))).
Proof.
  apply (Insert_refuses (mkArray [1; 2; 3; 0] 3 4) 9 (other_buffer [7; 8]) 0 2).
  - unfold well_formed, size_t_modulus. simpl. lia.
  - unfold size_t_modulus. simpl. lia.
Defined.

(** ** The mocks of the launcher test *)

(** X16.  [GetAllInstances] appends the records of the storage to the
    caller's array, in their order, and returns [eNone] when the array has
    room for all of them; when it has not, it returns [eNoMemory] with the
    array filled up to its capacity by the first records. *)
Theorem GetAllInstances_appends (st : MockStorage) (instances : Array InstanceInfo) :
  well_formed instances ->
  (Z.of_nat (length st) <= mMaxSize instances - mSize instances ->
   exists instances',
     GetAllInstances st instances = Done (eNone, instances')
     /\ elements instances' = elements instances ++ st)
  /\ (mMaxSize instances - mSize instances < Z.of_nat (length st) ->
      exists instances',
        GetAllInstances st instances = Done (eNoMemory, instances')
        /\ mSize instances' = mMaxSize instances
        /\ elements instances'
           = elements instances
             ++ firstn (Z.to_nat (mMaxSize instances - mSize instances)) st).
Proof.
  intros Hwf. split.
  - intros Hfits.
    destruct (GetAllInstances_fits st instances Hwf ltac:(lia))
      as (instances' & Hget & _ & Hels).
    exists instances'. split; assumption.
  - intros Hover.
    destruct (GetAllInstances_overflows st instances Hwf Hover)
      as (instances' & Hget & Hs & _ & Hels).
    exists instances'. repeat split; assumption.
Qed.

Lemma GetAllInstances_appends_witness :
  let st := [test_instance 0; test_instance 1; test_instance 2] in
  let instances := StaticArray [InstanceInfo_default; InstanceInfo_default] in
  (Z.of_nat (length st) <= mMaxSize instances - mSize instances ->
   exists instances',
     GetAllInstances st instances = Done (eNone, instances')
     /\ elements instances' = elements instances ++ st)
  /\ (mMaxSize instances - mSize instances < Z.of_nat (length st) ->
      exists instances',
        GetAllInstances st instances = Done (eNoMemory, instances')
        /\ mSize instances' = mMaxSize instances
        /\ elements instances'
           = elements instances
             ++ firstn (Z.to_nat (mMaxSize instances - mSize instances)) st).
Proof.
  apply (GetAllInstances_appends
           [test_instance 0; test_instance 1; test_instance 2]
           (StaticArray [InstanceInfo_default; InstanceInfo_default])).
  unfold well_formed, size_t_modulus. simpl. lia.
Defined.

Lemma find_if_map {A B : Type} (f : A -> B) (pred : B -> bool) (v : list A) :
  find_if pred (map f v) = find_if (fun x => pred (f x)) v.
Proof.
  induction v as [|x rest IH]; [reflexivity|].
  cbn [map find_if]. rewrite IH. reflexivity.
Qed.

(** X17.  After [InstallServices], which returns [eNone] and forgets the
    services installed before, [GetService] of an identifier that no
    service of the batch carries returns [eNotFound], and of an identifier
    of the batch the data of the first service that carries it: its
    version, its provider and its image path under "/aos/storages". *)
Theorem InstallServices_then_GetService
    (services : list ServiceInfo) (installed : MockServiceManager) (serviceID : string) :
  fst (InstallServices services installed) = eNone
  /\ ((forall service, In service services -> siServiceID service <> serviceID) ->
      GetService (snd (InstallServices services installed)) serviceID
      = mkRet ServiceData_default eNotFound)
  /\ (forall before service after,
        services = before ++ service :: after ->
        (forall other, In other before -> siServiceID other <> serviceID) ->
        siServiceID service = serviceID ->
        GetService (snd (InstallServices services installed)) serviceID
        = mkRet (mkServiceData (siVersionInfo service) serviceID (siProviderID service)
                               (JoinPath "/aos/storages" serviceID))
                eNone).
Proof.
  split; [reflexivity|]. unfold GetService. cbn [InstallServices snd].
  rewrite find_if_map. cbn [sdServiceID]. split.
  - intros Hnone.
    rewrite (proj2 (find_if_end _ services)); [reflexivity|].
    intros service Hin. apply String.eqb_neq. apply Hnone. exact Hin.
  - intros before service after -> Hbefore Hservice.
    rewrite (find_if_first _ before after service).
    + unfold RetValue. f_equal.
      rewrite map_app. cbn [map].
      rewrite app_nth2 by (rewrite length_map; lia).
      rewrite length_map, Nat.sub_diag. cbn [nth]. rewrite Hservice. reflexivity.
    + intros other Hin. apply String.eqb_neq. apply Hbefore. exact Hin.
    + apply String.eqb_eq. exact Hservice.
Qed.

Lemma erase_at_end {A : Type} (v : list A) (x : A) :
  erase (v ++ [x]) (length v) = v.
Proof. induction v as [|y rest IH]; [reflexivity|]. simpl. rewrite IH. reflexivity. Qed.

(** X18.  [UpdateInstance] of an identity that has a record returns
    [eNone] and puts the given record in the place of that one; the other
    records, their order and the identities of the storage stay, and no
    other record has the identity. *)
Theorem UpdateInstance_replaces (st : MockStorage) (instance : InstanceInfo) :
  storage_reachable st ->
  In (mInstanceIdent instance) (map mInstanceIdent st) ->
  exists before record after,
    st = before ++ record :: after
    /\ mInstanceIdent record = mInstanceIdent instance
    /\ UpdateInstance instance st = (eNone, before ++ instance :: after)
    /\ map mInstanceIdent (before ++ instance :: after) = map mInstanceIdent st
    /\ (forall other, In other (before ++ after) ->
          mInstanceIdent other <> mInstanceIdent instance).
Proof.
  intros Hreach Hin. pose proof (storage_reachable_NoDup st Hreach) as Hnd.
  destruct (UpdateInstance_present st instance Hin)
    as (before & record & after & Hst & Hsame & Hupdate).
  exists before, record, after.
  split; [exact Hst|]. split; [exact Hsame|]. split; [exact Hupdate|].
  subst st. rewrite !map_app in *. cbn [map] in *. rewrite Hsame in *.
  split; [reflexivity|].
  apply NoDup_remove_2 in Hnd. intros other Hother Heq. apply Hnd.
  rewrite <- map_app, <- Heq. apply in_map. exact Hother.
Qed.

Lemma UpdateInstance_replaces_witness :
  let st := [test_instance 0; test_instance 1] in
  let instance := mkInstanceInfo (mkInstanceIdent "service1" "subject1" 1) 7 7 "s" "t" in
  exists before record after,
    st = before ++ record :: after
    /\ mInstanceIdent record = mInstanceIdent instance
    /\ UpdateInstance instance st = (eNone, before ++ instance :: after)
    /\ map mInstanceIdent (before ++ instance :: after) = map mInstanceIdent st
    /\ (forall other, In other (before ++ after) ->
          mInstanceIdent other <> mInstanceIdent instance).
Proof.
  apply (UpdateInstance_replaces
           [test_instance 0; test_instance 1]
           (mkInstanceInfo (mkInstanceIdent "service1" "subject1" 1) 7 7 "s" "t")).
  - apply (storage_after (CallAdd (test_instance 1)) [test_instance 0]).
    apply (storage_after (CallAdd (test_instance 0)) []).
    apply storage_initial.
  - simpl. right. left. reflexivity.
Defined.

(** X19.  [AddInstance] of a record whose identity has none, followed by
    [RemoveInstance] of that identity: both return [eNone] and the storage
    is the one before the two calls. *)
Theorem AddInstance_then_RemoveInstance (st : MockStorage) (instance : InstanceInfo) :
  ~ In (mInstanceIdent instance) (map mInstanceIdent st) ->
  fst (AddInstance instance st) = eNone
  /\ RemoveInstance (mInstanceIdent instance) (snd (AddInstance instance st))
     = (eNone, st).
Proof.
  intros Habsent. rewrite AddInstance_absent by exact Habsent. cbn [fst snd].
  split; [reflexivity|]. unfold RemoveInstance.
  rewrite (find_if_first _ st [] instance).
  - rewrite erase_at_end. reflexivity.
  - intros other Hother. apply InstanceIdent_equal_neq. intros Heq.
    apply Habsent. rewrite <- Heq. apply in_map. exact Hother.
  - apply InstanceIdent_equal_refl.
Qed.

Lemma AddInstance_then_RemoveInstance_witness :
  fst (AddInstance (test_instance 2) [test_instance 0; test_instance 1]) = eNone
  /\ RemoveInstance (mInstanceIdent (test_instance 2))
       (snd (AddInstance (test_instance 2) [test_instance 0; test_instance 1]))
     = (eNone, [test_instance 0; test_instance 1]).
Proof.
  apply (AddInstance_then_RemoveInstance [test_instance 0; test_instance 1] (test_instance 2)).
  simpl. intros [H|[H|[]]]; discriminate H.
Defined.

(** ** More of [Time] *)

(** [Add] in closed form, when its two sums fit. *)
Lemma Add_floor (t : Time) (d : Duration) :
  in_int64 (tv_nsec t + d) ->
  in_int64 (tv_sec t + (tv_nsec t + d) / 10 ^ 9) ->
  Add t d = mkTimespec (tv_sec t + (tv_nsec t + d) / 10 ^ 9)
                       ((tv_nsec t + d) mod 10 ^ 9).
Proof.
  change (10 ^ 9) with 1000000000. intros Hsum Hsec.
  unfold Add. change Seconds with 1000000000.
  rewrite (wrap_int64_small _ Hsum).
  destruct (quot_rem_floor (tv_nsec t + d)) as (Hqr & Hneg & Hpos).
  cbv zeta in Hqr, Hneg, Hpos.
  destruct (Z.ltb_spec (Z.rem (tv_nsec t + d) 1000000000) 0) as [Hr|Hr].
  - destruct (Hneg Hr) as (Hlow & Hdiv). rewrite Hdiv in Hsec. rewrite Hdiv.
    replace (wrap_int64 (tv_sec t + Z.quot (tv_nsec t + d) 1000000000) - 1)
      with (wrap_int64 (tv_sec t + Z.quot (tv_nsec t + d) 1000000000) + -1) by lia.
    rewrite wrap_int64_add_l.
    rewrite (wrap_int64_small (tv_sec t + Z.quot (tv_nsec t + d) 1000000000 + -1))
      by (unfold in_int64 in *; lia).
    rewrite (wrap_int64_small (Z.rem (tv_nsec t + d) 1000000000 + 1000000000))
      by (unfold in_int64, int64_min, int64_max; lia).
    f_equal; [lia|].
    apply (Z.mod_unique (tv_nsec t + d) 1000000000
             (Z.quot (tv_nsec t + d) 1000000000 - 1)); [left; lia|lia].
  - destruct (Hpos Hr) as (Hhigh & Hdiv). rewrite Hdiv in Hsec. rewrite Hdiv.
    rewrite (wrap_int64_small _ Hsec). f_equal.
    apply (Z.mod_unique (tv_nsec t + d) 1000000000
             (Z.quot (tv_nsec t + d) 1000000000)); [left; lia|lia].
Qed.

Lemma Time_lt_total (a b : Time) :
  normalized a -> normalized b ->
  Time_lt a b = (total_nanoseconds a <? total_nanoseconds b).
Proof.
  unfold normalized, Time_lt, total_nanoseconds. change (10 ^ 9) with 1000000000.
  intros Ha Hb.
  destruct (Z.ltb_spec (tv_sec a) (tv_sec b)), (Z.eqb_spec (tv_sec a) (tv_sec b)),
    (Z.ltb_spec (tv_nsec a) (tv_nsec b)),
    (Z.ltb_spec (tv_sec a * 1000000000 + tv_nsec a) (tv_sec b * 1000000000 + tv_nsec b));
    cbn [orb andb]; try reflexivity; lia.
Qed.

Lemma Time_eq_total (a b : Time) :
  normalized a -> normalized b ->
  Time_eq a b = (total_nanoseconds a =? total_nanoseconds b).
Proof.
  unfold normalized, Time_eq, total_nanoseconds. change (10 ^ 9) with 1000000000.
  intros Ha Hb.
  destruct (Z.eqb_spec (tv_sec a) (tv_sec b)), (Z.eqb_spec (tv_nsec a) (tv_nsec b)),
    (Z.eqb_spec (tv_sec a * 1000000000 + tv_nsec a) (tv_sec b * 1000000000 + tv_nsec b));
    cbn [andb]; try reflexivity; lia.
Qed.

(** X20.  On times whose nanoseconds are within a second, [operator<],
    [operator==] and [operator!=] compare the instants: they are the
    order, the equality and the difference of the nanoseconds since the
    epoch; and two times that [operator==] holds equal are the same
    [timespec]. *)
Theorem Time_comparisons_chronological (a b : Time) :
  normalized a -> normalized b ->
  Time_lt a b = (total_nanoseconds a <? total_nanoseconds b)
  /\ Time_eq a b = (total_nanoseconds a =? total_nanoseconds b)
  /\ Time_ne a b = negb (total_nanoseconds a =? total_nanoseconds b)
  /\ (Time_eq a b = true -> UnixTime a = UnixTime b).
Proof.
  intros Ha Hb. split; [apply Time_lt_total; assumption|].
  split; [apply Time_eq_total; assumption|].
  split; [unfold Time_ne; rewrite Time_eq_total by assumption; reflexivity|].
  unfold Time_eq, UnixTime. intros Heq.
  apply andb_true_iff in Heq. destruct Heq as (Hs & Hn).
  apply Z.eqb_eq in Hs, Hn. destruct a, b. cbn [tv_sec tv_nsec] in *. congruence.
Qed.

Lemma Time_comparisons_chronological_witness :
  Time_lt (Unix 1 999999999) (Unix 2 0)
  = (total_nanoseconds (Unix 1 999999999) <? total_nanoseconds (Unix 2 0))
  /\ Time_eq (Unix 1 999999999) (Unix 2 0)
     = (total_nanoseconds (Unix 1 999999999) =? total_nanoseconds (Unix 2 0))
  /\ Time_ne (Unix 1 999999999) (Unix 2 0)
     = negb (total_nanoseconds (Unix 1 999999999) =? total_nanoseconds (Unix 2 0))
  /\ (Time_eq (Unix 1 999999999) (Unix 2 0) = true
      -> UnixTime (Unix 1 999999999) = UnixTime (Unix 2 0)).
Proof.
  apply (Time_comparisons_chronological (Unix 1 999999999) (Unix 2 0)).
  - unfold normalized. simpl. lia.
  - unfold normalized. simpl. lia.
Defined.

Lemma div_mod_shift a b :
  a / 10 ^ 9 + (a mod 10 ^ 9 + b) / 10 ^ 9 = (a + b) / 10 ^ 9
  /\ (a mod 10 ^ 9 + b) mod 10 ^ 9 = (a + b) mod 10 ^ 9.
Proof.
  change (10 ^ 9) with 1000000000.
  pose proof (Z.div_mod a 1000000000 ltac:(lia)) as Ha.
  replace (a + b) with (a mod 1000000000 + b + a / 1000000000 * 1000000000) by lia.
  rewrite Z.div_add by lia. rewrite Z.mod_add by lia. split; [lia|reflexivity].
Qed.

(** X21.  Two [Add] in a row are one [Add] of the sum of the durations,
    as long as the sums that the three calls compute fit in a signed
    64-bit integer: the nanoseconds plus the duration, and the seconds plus
    the whole seconds of that sum. *)
Theorem Add_composes (t : Time) (d1 d2 : Duration) :
  in_int64 (tv_nsec t + d1) ->
  in_int64 (tv_sec t + (tv_nsec t + d1) / 10 ^ 9) ->
  in_int64 ((tv_nsec t + d1) mod 10 ^ 9 + d2) ->
  in_int64 (tv_nsec t + (d1 + d2)) ->
  in_int64 (tv_sec t + (tv_nsec t + (d1 + d2)) / 10 ^ 9) ->
  Add (Add t d1) d2 = Add t (d1 + d2).
Proof.
  intros H1 H2 H3 H4 H5.
  destruct (div_mod_shift (tv_nsec t + d1) d2) as (Hdiv & Hmod).
  replace (tv_nsec t + d1 + d2) with (tv_nsec t + (d1 + d2)) in Hdiv, Hmod by lia.
  rewrite (Add_floor t d1 H1 H2), (Add_floor t (d1 + d2) H4 H5).
  rewrite Add_floor; cbn [tv_sec tv_nsec].
  - f_equal; [lia|exact Hmod].
  - exact H3.
  - replace (tv_sec t + (tv_nsec t + d1) / 10 ^ 9
             + ((tv_nsec t + d1) mod 10 ^ 9 + d2) / 10 ^ 9)
      with (tv_sec t + (tv_nsec t + (d1 + d2)) / 10 ^ 9) by lia.
    exact H5.
Qed.

Lemma Add_composes_witness :
  Add (Add (Unix 5 999999999) 2) (-3000000001) = Add (Unix 5 999999999) (2 + -3000000001).
Proof.
  apply (Add_composes (Unix 5 999999999) 2 (-3000000001));
    unfold in_int64, int64_min, int64_max; vm_compute; split; discriminate.
Defined.

(** X22.  [Add] moves a time in the direction of the duration: for a
    time whose nanoseconds are within a second and a duration whose sums
    fit, a positive duration gives a later time by [operator<], a negative
    one an earlier time, and zero the time itself. *)
Theorem Add_moves_in_order (t : Time) (d : Duration) :
  normalized t ->
  in_int64 (tv_nsec t + d) ->
  in_int64 (tv_sec t + (tv_nsec t + d) / 10 ^ 9) ->
  normalized (Add t d)
  /\ (0 < d -> Time_lt t (Add t d) = true /\ Time_lt (Add t d) t = false)
  /\ (d < 0 -> Time_lt (Add t d) t = true /\ Time_lt t (Add t d) = false)
  /\ (d = 0 -> Add t d = t).
Proof.
  intros Ht Hsum Hsec.
  assert (Hnorm : normalized (Add t d)).
  { rewrite Add_floor by assumption. unfold normalized. cbn [tv_nsec].
    apply Z.mod_pos_bound. reflexivity. }
  assert (Htotal : total_nanoseconds (Add t d) = total_nanoseconds t + d).
  { rewrite Add_floor by assumption. unfold total_nanoseconds. cbn [tv_sec tv_nsec].
    pose proof (Z.div_mod (tv_nsec t + d) (10 ^ 9) ltac:(discriminate)). lia. }
  split; [exact Hnorm|].
  rewrite !Time_lt_total by assumption. rewrite Htotal.
  split; [|split].
  - intros Hd. split; [apply Z.ltb_lt|apply Z.ltb_ge]; lia.
  - intros Hd. split; [apply Z.ltb_lt|apply Z.ltb_ge]; lia.
  - intros ->. rewrite Add_floor by assumption. rewrite Z.add_0_r.
    unfold normalized in Ht. rewrite Z.div_small, Z.mod_small by exact Ht.
    rewrite Z.add_0_r. destruct t. reflexivity.
Qed.

Lemma Add_moves_in_order_witness :
  normalized (Add (Unix 5 100) (-200))
  /\ (0 < -200 -> Time_lt (Unix 5 100) (Add (Unix 5 100) (-200)) = true
                  /\ Time_lt (Add (Unix 5 100) (-200)) (Unix 5 100) = false)
  /\ (-200 < 0 -> Time_lt (Add (Unix 5 100) (-200)) (Unix 5 100) = true
                  /\ Time_lt (Unix 5 100) (Add (Unix 5 100) (-200)) = false)
  /\ (-200 = 0 -> Add (Unix 5 100) (-200) = Unix 5 100).
Proof.
  apply (Add_moves_in_order (Unix 5 100) (-200)).
  - unfold normalized. simpl. lia.
  - unfold in_int64, int64_min, int64_max. simpl. lia.
  - unfold in_int64, int64_min, int64_max. vm_compute. split; discriminate.
Defined.

(** X23.  [UnixNano], when its product and its sum fit in a signed
    64-bit integer: for an instant at or after the epoch it is the
    nanoseconds since the epoch; for an instant before the epoch the
    conversion to [uint64_t] adds [2^64], so the result is at least
    [2^63]. *)
Theorem UnixNano_of_instant (t : Time) :
  in_int64 (tv_sec t * Seconds) ->
  in_int64 (tv_nsec t + tv_sec t * Seconds) ->
  (0 <= total_nanoseconds t -> UnixNano t = total_nanoseconds t)
  /\ (total_nanoseconds t < 0 ->
      UnixNano t = total_nanoseconds t + 2 ^ 64 /\ 2 ^ 63 <= UnixNano t).
Proof.
  unfold UnixNano, total_nanoseconds. change Seconds with 1000000000.
  change (10 ^ 9) with 1000000000.
  intros Hprod Hsum. rewrite (wrap_int64_small _ Hprod), (wrap_int64_small _ Hsum).
  unfold in_int64, int64_min, int64_max in Hsum.
  unfold wrap_size, size_t_modulus. split.
  - intros Hpos. rewrite Z.mod_small by lia. lia.
  - intros Hneg.
    assert (Hmod : (tv_nsec t + tv_sec t * 1000000000) mod 2 ^ 64
                   = tv_sec t * 1000000000 + tv_nsec t + 2 ^ 64).
    { symmetry. apply (Z.mod_unique _ _ (-1)); [left; lia|lia]. }
    rewrite Hmod. lia.
Qed.

Lemma UnixNano_of_instant_witness :
  (0 <= total_nanoseconds (Unix (-1) 999999999) ->
   UnixNano (Unix (-1) 999999999) = total_nanoseconds (Unix (-1) 999999999))
  /\ (total_nanoseconds (Unix (-1) 999999999) < 0 ->
      UnixNano (Unix (-1) 999999999) = total_nanoseconds (Unix (-1) 999999999) + 2 ^ 64
      /\ 2 ^ 63 <= UnixNano (Unix (-1) 999999999)).
Proof.
  apply (UnixNano_of_instant (Unix (-1) 999999999));
    unfold in_int64, int64_min, int64_max; vm_compute; split; discriminate.
Defined.

(** X24.  [Years] is exact for at most 292 years in either direction:
    the product of the length of a year and [num] fits in a signed 64-bit
    integer exactly for [-292 <= num <= 292], and then [Years num] is that
    product. *)
Theorem Years_range (num : Z) :
  (in_int64 (31556925974700000 * num) <-> -292 <= num <= 292)
  /\ (-292 <= num <= 292 -> Years num = 31556925974700000 * num).
Proof.
  assert (Hiff : in_int64 (31556925974700000 * num) <-> -292 <= num <= 292).
  { unfold in_int64, int64_min, int64_max. lia. }
  split; [exact Hiff|].
  intros Hnum. unfold Years. apply wrap_int64_small. apply Hiff. exact Hnum.
Qed.
